(** * CPU scheduling simulator: a shallow embedding of [process.py],
    [algorithms.py], [metrics.py] and the dispatcher of [app.py], and the
    properties of its schedules.

    Python integers are unbounded, so every time quantity is a [Z].
    [Process] objects are mutable and shared by reference: the embedding
    keeps an explicit heap of objects, every list of processes is a list
    of references into it, and attribute assignment is a heap update. *)

From Stdlib Require Import String ZArith QArith List Bool Lia Arith Permutation Sorted.
Import ListNotations.
Local Open Scope Z_scope.

(** * Definitions *)

(** ** process.py: the [Process] class *)

Record Process : Type := mkProcess {
  pid : Z;
  arrival_time : Z;
  burst_time : Z;
  priority : Z;
  remaining_time : Z;
  start_time : Z;
  completion_time : Z;
  waiting_time : Z;
  turnaround_time : Z;
  response_time : Z
}.

(** [Process.__init__] *)
Definition new_Process (pid arrival_time burst_time priority : Z) : Process :=
  mkProcess pid arrival_time burst_time priority burst_time (-1) (-1) (-1) (-1) (-1).

(** Attribute assignment, one setter per attribute the algorithms write. *)
Definition set_remaining_time (v : Z) (p : Process) : Process :=
  mkProcess (pid p) (arrival_time p) (burst_time p) (priority p)
            v (start_time p) (completion_time p)
            (waiting_time p) (turnaround_time p) (response_time p).

Definition set_start_time (v : Z) (p : Process) : Process :=
  mkProcess (pid p) (arrival_time p) (burst_time p) (priority p)
            (remaining_time p) v (completion_time p)
            (waiting_time p) (turnaround_time p) (response_time p).

Definition set_completion_time (v : Z) (p : Process) : Process :=
  mkProcess (pid p) (arrival_time p) (burst_time p) (priority p)
            (remaining_time p) (start_time p) v
            (waiting_time p) (turnaround_time p) (response_time p).

Definition set_waiting_time (v : Z) (p : Process) : Process :=
  mkProcess (pid p) (arrival_time p) (burst_time p) (priority p)
            (remaining_time p) (start_time p) (completion_time p)
            v (turnaround_time p) (response_time p).

Definition set_turnaround_time (v : Z) (p : Process) : Process :=
  mkProcess (pid p) (arrival_time p) (burst_time p) (priority p)
            (remaining_time p) (start_time p) (completion_time p)
            (waiting_time p) v (response_time p).

Definition set_response_time (v : Z) (p : Process) : Process :=
  mkProcess (pid p) (arrival_time p) (burst_time p) (priority p)
            (remaining_time p) (start_time p) (completion_time p)
            (waiting_time p) (turnaround_time p) v.

(** ** The object heap *)

Definition ref : Type := nat.

(** Objects live at addresses below [next_ref]; allocation takes the next
    address. *)
Record heap : Type := mkHeap {
  next_ref : ref;
  cell : ref -> Process
}.

Definition store (h : heap) (r : ref) (p : Process) : heap :=
  mkHeap (next_ref h) (fun a => if Nat.eqb a r then p else cell h a).

Definition modify (h : heap) (r : ref) (f : Process -> Process) : heap :=
  store h r (f (cell h r)).

Definition alloc (h : heap) (p : Process) : heap * ref :=
  (mkHeap (S (next_ref h))
          (fun a => if Nat.eqb a (next_ref h) then p else cell h a),
   next_ref h).

(** The records a list of references points to. *)
Definition records (h : heap) (l : list ref) : list Process := map (cell h) l.

(** [Process.execute(time_quantum)]: returns the executed time. *)
Definition execute (h : heap) (r : ref) (time_quantum : option Z) : heap * Z :=
  let rem := remaining_time (cell h r) in
  match time_quantum with
  | None => (modify h r (set_remaining_time 0), rem)
  | Some q =>
      if q >=? rem then (modify h r (set_remaining_time 0), rem)
      else (modify h r (set_remaining_time (rem - q)), q)
  end.

(** ** algorithms.py: shared pieces *)

(** A timeline entry: the dict with keys pid, start_time, end_time and
    duration; pid is [None] for an idle gap. *)
Record Segment : Type := mkSegment {
  seg_pid : option Z;
  seg_start_time : Z;
  seg_end_time : Z;
  seg_duration : Z
}.

Definition idle_segment (from to : Z) : Segment :=
  mkSegment None from to (to - from).

Definition run_segment (p : Z) (from len : Z) : Segment :=
  mkSegment (Some p) from (from + len) len.

(** [[Process(p.pid, p.arrival_time, p.burst_time, p.priority) for p in
    processes]]: one fresh object per element, allocated left to right. *)
Definition fresh_copy (p : Process) : Process :=
  new_Process (pid p) (arrival_time p) (burst_time p) (priority p).

Fixpoint copy_processes (h : heap) (processes : list ref) : heap * list ref :=
  match processes with
  | [] => (h, [])
  | p :: rest =>
      let (h1, a) := alloc h (fresh_copy (cell h p)) in
      let (h2, l) := copy_processes h1 rest in
      (h2, a :: l)
  end.

(** [list.sort(key=...)] is a stable sort: insertion before the first
    element with a key at least as large keeps equal keys in input order. *)
Fixpoint insert_by (key : ref -> Z) (x : ref) (l : list ref) : list ref :=
  match l with
  | [] => [x]
  | y :: l' => if key x <=? key y then x :: l else y :: insert_by key x l'
  end.

Definition sort_by (key : ref -> Z) (l : list ref) : list ref :=
  fold_right (insert_by key) [] l.

(** [min(iterable, key=...)] on a non-empty iterable: the first element
    whose key is minimal. *)
Definition min_by (key : ref -> Z) (first : ref) (others : list ref) : ref :=
  fold_left (fun best x => if key x <? key best then x else best) others first.

(** [min(p.arrival_time for p in l)]; the loops only evaluate it on a
    non-empty list (on an empty one Python raises ValueError). *)
Definition min_arrival (h : heap) (l : list ref) : Z :=
  match l with
  | [] => 0
  | r :: rest =>
      fold_left Z.min (map (fun x => arrival_time (cell h x)) rest)
                (arrival_time (cell h r))
  end.

(** [list.remove(x)]: drops the first occurrence; objects compare by
    identity. *)
Fixpoint remove_first (x : ref) (l : list ref) : list ref :=
  match l with
  | [] => []
  | y :: l' => if Nat.eqb y x then l' else y :: remove_first x l'
  end.

(** The four assignments every algorithm makes when a process finishes. *)
Definition finalize (current_time : Z) (p : Process) : Process :=
  let p1 := set_completion_time current_time p in
  let p2 := set_turnaround_time (completion_time p1 - arrival_time p1) p1 in
  let p3 := set_waiting_time (turnaround_time p2 - burst_time p2) p2 in
  set_response_time (start_time p3 - arrival_time p3) p3.

(** [if process.start_time == -1: process.start_time = current_time] *)
Definition mark_start (h : heap) (r : ref) (current_time : Z) : heap :=
  if start_time (cell h r) =? -1 then modify h r (set_start_time current_time)
  else h.

(** The earliest arrival strictly after the clock, [None] for Python's
    [float('inf')]. *)
Definition next_event (h : heap) (current_time : Z) (l : list ref) : option Z :=
  fold_left
    (fun next_event_time p =>
       let a := arrival_time (cell h p) in
       if (a >? current_time) &&
          match next_event_time with None => true | Some n => a <? n end
       then Some a else next_event_time)
    l None.

(** The local variables of a simulation loop.  [ready_queue] is only used by
    Round Robin and [current_process] only by the two algorithms that track the
    running process. *)
Record state : Type := mkState {
  st_heap : heap;
  current_time : Z;
  timeline : list Segment;
  remaining_processes : list ref;
  ready_queue : list ref;
  completed_processes : list ref;
  current_process : option ref
}.

(** What a call returns: the timeline, the list of finalized processes, and
    the heap it leaves behind. *)
Record result : Type := mkResult {
  res_timeline : list Segment;
  res_processes : list ref;
  res_heap : heap
}.

(** The error taxonomy of the specification.  The source contains no [raise]
    statement, so no function below ever builds [Raised]. *)
Inductive error : Type := InvalidProcess | InvalidParameter | EmptyInput.

Inductive outcome (A : Type) : Type :=
| Returned (a : A)
| Raised (e : error)
| OutOfFuel.
Arguments Returned {A} a.
Arguments Raised {A} e.
Arguments OutOfFuel {A}.

(** [while cond: body], cut off after [fuel] iterations. *)
Fixpoint while {St : Type} (cond : St -> bool) (body : St -> St)
         (fuel : nat) (s : St) : option St :=
  if cond s then
    match fuel with
    | O => None
    | S n => while cond body n (body s)
    end
  else Some s.

Definition finish (o : option state) : outcome result :=
  match o with
  | Some s => Returned (mkResult (timeline s) (completed_processes s) (st_heap s))
  | None => OutOfFuel
  end.

Definition is_empty {A : Type} (l : list A) : bool :=
  match l with [] => true | _ => false end.

Definition arrival (h : heap) (r : ref) : Z := arrival_time (cell h r).

Definition arrived (h : heap) (current_time : Z) (r : ref) : bool :=
  arrival h r <=? current_time.

(** The branch all three selection loops take when nothing has arrived. *)
Definition idle_until_next_arrival (s : state) : state :=
  let next_arrival := min_arrival (st_heap s) (remaining_processes s) in
  mkState (st_heap s) next_arrival
          (if current_time s <? next_arrival
           then timeline s ++ [idle_segment (current_time s) next_arrival]
           else timeline s)
          (remaining_processes s) (ready_queue s) (completed_processes s)
          None.

(** ** fcfs *)

Definition fcfs_step (acc : heap * Z * list Segment) (process : ref)
  : heap * Z * list Segment :=
  let '(h, now, tl) := acc in
  let a := arrival h process in
  let tl1 := if now <? a
             then (if now >? 0 then tl ++ [idle_segment now a] else tl)
             else tl in
  let now1 := if now <? a then a else now in
  let h1 := mark_start h process now1 in
  let (h2, execution_time) := execute h1 process None in
  let tl2 := tl1 ++ [run_segment (pid (cell h2 process)) now1 execution_time] in
  let now2 := now1 + execution_time in
  (modify h2 process (finalize now2), now2, tl2).

Definition fcfs (h : heap) (processes : list ref) : outcome result :=
  let (h0, copies) := copy_processes h processes in
  let sorted := sort_by (arrival h0) copies in
  let '(h1, _, tl) := fold_left fcfs_step sorted (h0, 0, []) in
  Returned (mkResult tl sorted h1).

(** ** sjf_non_preemptive *)

Definition sjf_np_body (s : state) : state :=
  let h := st_heap s in
  match filter (arrived h (current_time s)) (remaining_processes s) with
  | [] => idle_until_next_arrival s
  | first :: others =>
      let selected := min_by (fun p => burst_time (cell h p)) first others in
      let h1 := mark_start h selected (current_time s) in
      let (h2, execution_time) := execute h1 selected None in
      let tl := timeline s ++
                [run_segment (pid (cell h2 selected)) (current_time s) execution_time] in
      let now := current_time s + execution_time in
      mkState (modify h2 selected (finalize now)) now tl
              (remove_first selected (remaining_processes s)) (ready_queue s)
              (completed_processes s ++ [selected]) (current_process s)
  end.

Definition has_remaining (s : state) : bool :=
  negb (is_empty (remaining_processes s)).

Definition init_state (h : heap) (sorted : list ref) : state :=
  mkState h 0 [] sorted [] [] None.

Definition sjf_non_preemptive (fuel : nat) (h : heap) (processes : list ref)
  : outcome result :=
  let (h0, copies) := copy_processes h processes in
  let sorted := sort_by (arrival h0) copies in
  finish (while has_remaining sjf_np_body fuel (init_state h0 sorted)).

(** ** sjf_preemptive *)

(** The tail shared by the preemptive loops: charge [execution_time] to the
    selected process, record the segment, advance the clock, and finalize the
    process when nothing remains. *)
Definition run_selected (s : state) (h : heap) (selected : ref)
           (execution_time : Z) : state :=
  let h1 := modify h selected
              (fun p => set_remaining_time (remaining_time p - execution_time) p) in
  let tl := timeline s ++
            [run_segment (pid (cell h1 selected)) (current_time s) execution_time] in
  let now := current_time s + execution_time in
  if remaining_time (cell h1 selected) =? 0 then
    mkState (modify h1 selected (finalize now)) now tl
            (remove_first selected (remaining_processes s)) (ready_queue s)
            (completed_processes s ++ [selected]) None
  else
    mkState h1 now tl (remaining_processes s) (ready_queue s)
            (completed_processes s) (Some selected).

(** [execution_time] of a preemptive dispatch: up to the next arrival or to
    completion, whichever is sooner. *)
Definition preemptive_slice (h : heap) (s : state) (selected : ref) : Z :=
  match next_event h (current_time s) (remaining_processes s) with
  | None => remaining_time (cell h selected)
  | Some next_event_time =>
      Z.min (remaining_time (cell h selected)) (next_event_time - current_time s)
  end.

Definition same_process (current : option ref) (selected : ref) : bool :=
  match current with
  | Some c => Nat.eqb c selected
  | None => false
  end.

Definition sjf_p_body (s : state) : state :=
  let h := st_heap s in
  match filter (arrived h (current_time s)) (remaining_processes s) with
  | [] => idle_until_next_arrival s
  | first :: others =>
      let selected := min_by (fun p => remaining_time (cell h p)) first others in
      let h1 := if same_process (current_process s) selected then h
                else mark_start h selected (current_time s) in
      run_selected s h1 selected (preemptive_slice h1 s selected)
  end.

Definition sjf_preemptive (fuel : nat) (h : heap) (processes : list ref)
  : outcome result :=
  let (h0, copies) := copy_processes h processes in
  let sorted := sort_by (arrival h0) copies in
  finish (while has_remaining sjf_p_body fuel (init_state h0 sorted)).

(** ** priority_scheduling *)

Definition priority_body (preemptive : bool) (s : state) : state :=
  let h := st_heap s in
  match filter (arrived h (current_time s)) (remaining_processes s) with
  | [] => idle_until_next_arrival s
  | first :: others =>
      let best := min_by (fun p => priority (cell h p)) first others in
      let selected :=
        match current_process s with
        | Some c =>
            if negb preemptive && existsb (Nat.eqb c) (first :: others)
            then c else best
        | None => best
        end in
      let h1 := if same_process (current_process s) selected then h
                else mark_start h selected (current_time s) in
      let execution_time :=
        if preemptive then preemptive_slice h1 s selected
        else remaining_time (cell h1 selected) in
      run_selected s h1 selected execution_time
  end.

Definition priority_scheduling (fuel : nat) (h : heap) (processes : list ref)
           (preemptive : bool) : outcome result :=
  let (h0, copies) := copy_processes h processes in
  let sorted := sort_by (arrival h0) copies in
  finish (while has_remaining (priority_body preemptive) fuel (init_state h0 sorted)).

(** ** round_robin *)

(** [while remaining and remaining[0].arrival_time <= current_time:
    ready_queue.append(remaining.pop(0))] *)
Fixpoint enqueue_arrived (h : heap) (now : Z) (remaining queue : list ref)
  : list ref * list ref :=
  match remaining with
  | [] => ([], queue)
  | r :: rest =>
      if arrival h r <=? now then enqueue_arrived h now rest (queue ++ [r])
      else (remaining, queue)
  end.

Definition rr_body (time_quantum : Z) (s : state) : state :=
  let h := st_heap s in
  let (remaining, queue) :=
    enqueue_arrived h (current_time s) (remaining_processes s) (ready_queue s) in
  match queue with
  | [] =>
      match remaining with
      | r :: _ =>
          let next_arrival := arrival h r in
          mkState h next_arrival
                  (if current_time s <? next_arrival
                   then timeline s ++ [idle_segment (current_time s) next_arrival]
                   else timeline s)
                  remaining [] (completed_processes s) (current_process s)
      | [] =>
          mkState h (current_time s) (timeline s) [] []
                  (completed_processes s) (current_process s)
      end
  | process :: queue1 =>
      let h1 := mark_start h process (current_time s) in
      let execution_time := Z.min time_quantum (remaining_time (cell h1 process)) in
      let h2 := modify h1 process
                  (fun p => set_remaining_time (remaining_time p - execution_time) p) in
      let tl := timeline s ++
                [run_segment (pid (cell h2 process)) (current_time s) execution_time] in
      let now := current_time s + execution_time in
      let (remaining2, queue2) := enqueue_arrived h2 now remaining queue1 in
      if remaining_time (cell h2 process) >? 0 then
        mkState h2 now tl remaining2 (queue2 ++ [process])
                (completed_processes s) (current_process s)
      else
        mkState (modify h2 process (finalize now)) now tl remaining2 queue2
                (completed_processes s ++ [process]) (current_process s)
  end.

Definition rr_pending (s : state) : bool :=
  negb (is_empty (remaining_processes s)) || negb (is_empty (ready_queue s)).

Definition rr_init (h : heap) (sorted : list ref) : state :=
  mkState h (match sorted with r :: _ => arrival h r | [] => 0 end)
          [] sorted [] [] None.

Definition round_robin (fuel : nat) (h : heap) (processes : list ref)
           (time_quantum : Z) : outcome result :=
  let (h0, copies) := copy_processes h processes in
  let sorted := sort_by (arrival h0) copies in
  finish (while rr_pending (rr_body time_quantum) fuel (rr_init h0 sorted)).

(** ** The five entry points as one family *)

Inductive algorithm : Type :=
| FCFS
| SJF_NP
| SJF_P
| PRIORITY (preemptive : bool)
| RR (time_quantum : Z).

Definition schedule (alg : algorithm) (fuel : nat) (h : heap)
           (processes : list ref) : outcome result :=
  match alg with
  | FCFS => fcfs h processes
  | SJF_NP => sjf_non_preemptive fuel h processes
  | SJF_P => sjf_preemptive fuel h processes
  | PRIORITY preemptive => priority_scheduling fuel h processes preemptive
  | RR time_quantum => round_robin fuel h processes time_quantum
  end.

(** What a loop returns from its final state. *)
Definition run_of (sf : state) : result :=
  mkResult (timeline sf) (completed_processes sf) (st_heap sf).

(** ** metrics.py: [calculate_metrics] *)

(** [max(p.completion_time for p in l)] and [min(p.arrival_time for p in l)]
    as metrics.py computes them (non-empty [l]). *)
Definition max_completion (h : heap) (l : list ref) : Z :=
  match l with
  | [] => 0
  | r :: rest =>
      fold_left Z.max (map (fun x => completion_time (cell h x)) rest)
                (completion_time (cell h r))
  end.

Definition completion (h : heap) (r : ref) : Z := completion_time (cell h r).

(** The exceptions [/] between two integers can raise. *)
Inductive exception : Type := ZeroDivisionError | OverflowError.

(** A value, or the exception raised in its place. *)
Inductive raising (A : Type) : Type :=
| Value (a : A)
| Raise (e : exception).
Arguments Value {A} a.
Arguments Raise {A} e.

(** [a / b] between two integers is the exact quotient rounded to the
    nearest double, ties to even.  The largest double is 2^1024 - 2^971, so
    a quotient of magnitude 2^1024 - 2^970 or more has no double to round
    to. *)
Definition float_limit : Z := 2 ^ 1024 - 2 ^ 970.

Definition overflows (a b : Z) : bool := float_limit * Z.abs b <=? Z.abs a.

Section Metrics.

(** Python's [/] on integers and [*] of a float by an integer produce
    floats.  The results below do not depend on how floats round, so the
    float type and these operations are left abstract: [true_div a b] is
    the double [a / b] evaluates to when it raises nothing, [mul_int x k]
    is [x * k], which raises nothing (it yields an infinity when out of
    range), and [of_int] is the number an integer literal stands for. *)
Variable number : Type.
Variable of_int : Z -> number.
Variable true_div : Z -> Z -> number.
Variable mul_int : number -> Z -> number.

(** The dict [calculate_metrics] returns. *)
Record Summary : Type := mkSummary {
  avg_turnaround_time : number;
  avg_waiting_time : number;
  avg_response_time : number;
  cpu_utilization : number;
  throughput : number
}.

(** [a / b]: raises ZeroDivisionError when [b] is 0 and OverflowError when
    the quotient is too large for a float. *)
Definition py_div (a b : Z) : raising number :=
  if b =? 0 then Raise ZeroDivisionError
  else if overflows a b then Raise OverflowError
  else Value (true_div a b).

(** [sum(f(p) for p in processes)] *)
Definition py_sum (f : Process -> Z) (h : heap) (processes : list ref) : Z :=
  fold_left Z.add (map (fun r => f (cell h r)) processes) 0.

Definition bind {A B : Type} (o : raising A) (k : A -> raising B) : raising B :=
  match o with
  | Value a => k a
  | Raise e => Raise e
  end.

Definition calculate_metrics (h : heap) (processes : list ref)
  : raising Summary :=
  if is_empty processes then
    Value (mkSummary (of_int 0) (of_int 0) (of_int 0) (of_int 0) (of_int 0))
  else
    let total_turnaround_time := py_sum turnaround_time h processes in
    let total_waiting_time := py_sum waiting_time h processes in
    let total_response_time := py_sum response_time h processes in
    bind (if negb (is_empty processes) then
            let total_burst_time := py_sum burst_time h processes in
            let total_time :=
              max_completion h processes - min_arrival h processes in
            if total_time >? 0
            then bind (py_div total_burst_time total_time)
                      (fun x => Value (mul_int x 100))
            else Value (of_int 0)
          else Value (of_int 0))
      (fun cpu_utilization =>
    bind (if negb (is_empty processes) then
            let total_time :=
              max_completion h processes - min_arrival h processes in
            if total_time >? 0
            then py_div (Z.of_nat (length processes)) total_time
            else Value (of_int 0)
          else Value (of_int 0))
      (fun throughput =>
    let n := Z.of_nat (length processes) in
    bind (py_div total_turnaround_time n) (fun avg_turnaround_time =>
    bind (py_div total_waiting_time n) (fun avg_waiting_time =>
    bind (py_div total_response_time n) (fun avg_response_time =>
    Value (mkSummary avg_turnaround_time avg_waiting_time avg_response_time
                     cpu_utilization throughput)))))).

(** The quantities of the specification, written as it words them: the
    largest completion time minus the smallest arrival time, and the sum of
    the bursts. *)
Definition spec_span (h : heap) (first : ref) (others : list ref) : Z :=
  fold_right Z.max (completion h first) (map (completion h) others) -
  fold_right Z.min (arrival h first) (map (arrival h) others).

Definition spec_total_burst (h : heap) (processes : list ref) : Z :=
  fold_right (fun r acc => burst_time (cell h r) + acc) 0 processes.

Definition spec_cpu_utilization (h : heap) (first : ref) (others : list ref)
  : number :=
  if spec_span h first others <=? 0 then of_int 0
  else mul_int (true_div (spec_total_burst h (first :: others))
                         (spec_span h first others)) 100.

Definition spec_throughput (h : heap) (first : ref) (others : list ref)
  : number :=
  if spec_span h first others <=? 0 then of_int 0
  else true_div (Z.of_nat (length (first :: others))) (spec_span h first others).

(** None of the quotients [calculate_metrics] forms on a non-empty list is
    too large for a float: the three averages and, when the span is
    positive, the two ratios over it. *)
Definition quotients_fit (h : heap) (first : ref) (others : list ref) : bool :=
  let n := Z.of_nat (length (first :: others)) in
  let span := spec_span h first others in
  negb (overflows (py_sum turnaround_time h (first :: others)) n) &&
  negb (overflows (py_sum waiting_time h (first :: others)) n) &&
  negb (overflows (py_sum response_time h (first :: others)) n) &&
  ((span <=? 0) ||
   negb (overflows (spec_total_burst h (first :: others)) span) &&
   negb (overflows n span)).

End Metrics.

Arguments mkSummary {number}.
Arguments avg_turnaround_time {number}.
Arguments avg_waiting_time {number}.
Arguments avg_response_time {number}.
Arguments cpu_utilization {number}.
Arguments throughput {number}.

(** ** Observations on timelines and inputs *)

(** The sum of the durations of all entries, idle ones included. *)
Definition total_duration (tl : list Segment) : Z :=
  fold_right (fun g acc => seg_duration g + acc) 0 tl.

Definition carries (p : Z) (g : Segment) : bool :=
  match seg_pid g with
  | Some q => q =? p
  | None => false
  end.

(** The segments carrying a given process id, and the time they add up to. *)
Definition segments_of (p : Z) (tl : list Segment) : list Segment :=
  filter (carries p) tl.

Definition busy_time (p : Z) (tl : list Segment) : Z :=
  total_duration (segments_of p tl).

(** The caller's references point to allocated objects. *)
Definition allocated (h : heap) (l : list ref) : Prop :=
  Forall (fun r => (r < next_ref h)%nat) l.

(** A valid input per the data model: positive bursts, non-negative
    arrivals. *)
Definition valid_input (h : heap) (processes : list ref) : Prop :=
  Forall (fun r => 0 < burst_time (cell h r) /\ 0 <= arrival_time (cell h r))
         processes.

(** Process ids are unique, as the data model requires. *)
Definition unique_pids (h : heap) (l : list ref) : Prop :=
  NoDup (map (fun r => pid (cell h r)) l).

(** Round Robin is given a positive quantum. *)
Definition quantum_ok (alg : algorithm) : Prop :=
  match alg with
  | RR time_quantum => 0 < time_quantum
  | _ => True
  end.

(** The algorithms that run a dispatched process to completion. *)
Definition non_preemptive (alg : algorithm) : bool :=
  match alg with
  | FCFS | SJF_NP | PRIORITY false => true
  | _ => false
  end.

(** Iterations that suffice for any loop on the given input. *)
Definition fuel_for (h : heap) (processes : list ref) : nat :=
  let w := list_sum (map (fun r => Z.to_nat (Z.max 1 (burst_time (cell h r))))
                         processes) in
  (w * (w + 1) + length processes)%nat.

(** The instant a timeline starts at, read off the finalized list: the
    smallest arrival for [fcfs] and [round_robin], 0 for the other loops. *)
Definition clock_origin (alg : algorithm) (h : heap) (l : list ref) : Z :=
  match alg with
  | FCFS | RR _ => min_arrival h l
  | _ => 0
  end.

(** A call that is still running after any number of iterations. *)
Definition never_returns (call : nat -> outcome result) : Prop :=
  forall fuel, call fuel = OutOfFuel.

(** ** One step of a simulation, abstractly *)

(** The processes not yet finalized, wherever the loop keeps them. *)
Definition pending (s : state) : list ref :=
  remaining_processes s ++ ready_queue s.

(** The four caller-supplied attributes, which no algorithm writes. *)
Definition static_eq (p q : Process) : Prop :=
  pid p = pid q /\ arrival_time p = arrival_time q /\
  burst_time p = burst_time q /\ priority p = priority q.

(** Every iteration of every loop is an idle gap up to the arrival of a
    pending process [r], or a dispatch of one pending process [r] for [e] time
    units.  With [np] set only dispatches to completion are allowed. *)
Inductive astep (np : bool) (s s' : state) : Prop :=
| astep_idle (r : ref) :
    st_heap s' = st_heap s ->
    In r (pending s) ->
    current_time s' = arrival (st_heap s) r ->
    current_time s < current_time s' ->
    timeline s' =
      timeline s ++ [idle_segment (current_time s) (current_time s')] ->
    Permutation (pending s) (pending s') ->
    completed_processes s' = completed_processes s ->
    astep np s s'
| astep_run (r : ref) (e : Z) :
    In r (pending s) ->
    (e = remaining_time (cell (st_heap s) r) \/
     (np = false /\ 0 < e < remaining_time (cell (st_heap s) r))) ->
    static_eq (cell (st_heap s) r) (cell (st_heap s') r) ->
    remaining_time (cell (st_heap s') r) =
      remaining_time (cell (st_heap s) r) - e ->
    (forall a, a <> r -> cell (st_heap s') a = cell (st_heap s) a) ->
    next_ref (st_heap s') = next_ref (st_heap s) ->
    timeline s' =
      timeline s ++ [run_segment (pid (cell (st_heap s) r)) (current_time s) e] ->
    current_time s' = current_time s + e ->
    (if remaining_time (cell (st_heap s') r) =? 0
     then completion (st_heap s') r = current_time s' /\
          Permutation (pending s) (r :: pending s') /\
          completed_processes s' = completed_processes s ++ [r]
     else Permutation (pending s) (pending s') /\
          completed_processes s' = completed_processes s) ->
    astep np s s'.

Inductive steps (np : bool) (s0 : state) : state -> Prop :=
| steps_refl : steps np s0 s0
| steps_snoc s s' : steps np s0 s -> astep np s s' -> steps np s0 s'.

(** Facts about a reachable state that hold for every input. *)
Record wf (s0 s : state) : Prop := mkWf {
  wf_nodup : NoDup (pending s ++ completed_processes s);
  wf_perm : Permutation (pending s ++ completed_processes s) (pending s0);
  wf_static : forall a, static_eq (cell (st_heap s0) a) (cell (st_heap s) a);
  wf_frame : forall a, ~ In a (pending s0) ->
                       cell (st_heap s) a = cell (st_heap s0) a;
  wf_next : next_ref (st_heap s) = next_ref (st_heap s0)
}.

(** Facts that need every pending process to have work left. *)
Record sound (s0 s : state) : Prop := mkSound {
  snd_pos : forall r, In r (pending s) -> 0 < remaining_time (cell (st_heap s) r);
  snd_clock : total_duration (timeline s) = current_time s - current_time s0;
  snd_done : forall r, In r (completed_processes s) ->
                       remaining_time (cell (st_heap s) r) = 0 /\
                       completion (st_heap s) r <= current_time s;
  snd_sorted : StronglySorted Z.le
                 (map (completion (st_heap s)) (completed_processes s));
  snd_last : pending s = [] -> forall l r, completed_processes s = l ++ [r] ->
                       completion (st_heap s) r = current_time s
}.

(** Every unit of a process's burst is either still remaining or on the
    timeline under its id. *)
Definition accounted (s : state) : Prop :=
  forall r, In r (pending s ++ completed_processes s) ->
    busy_time (pid (cell (st_heap s) r)) (timeline s) +
    remaining_time (cell (st_heap s) r) = burst_time (cell (st_heap s) r).

(** A pending process has no segment yet and a finalized one has exactly one,
    as long as its burst. *)
Definition dispatched_once (s : state) : Prop :=
  (forall r, In r (pending s) ->
     segments_of (pid (cell (st_heap s) r)) (timeline s) = []) /\
  (forall r, In r (completed_processes s) ->
     exists g, segments_of (pid (cell (st_heap s) r)) (timeline s) = [g] /\
               seg_duration g = burst_time (cell (st_heap s) r)).

(** The loop only holds references to objects allocated at or after [base],
    and the objects below [base] are those of the heap [h]. *)
Definition private (base : nat) (h : heap) (s : state) : Prop :=
  (forall r, In r (pending s) -> (base <= r)%nat) /\
  (forall a, (a < base)%nat -> cell (st_heap s) a = cell h a) /\
  (base <= next_ref (st_heap s))%nat.

(** ** The progress measure *)

(** An upper bound on the dispatches a process still needs. *)
Definition weight (h : heap) (r : ref) : nat :=
  Z.to_nat (Z.max 1 (remaining_time (cell h r))).

Definition work (h : heap) (l : list ref) : nat := list_sum (map (weight h) l).

Definition unarrived (h : heap) (now : Z) (l : list ref) : nat :=
  length (filter (fun r => now <? arrival h r) l).

Definition measure (s : state) : nat :=
  let w := work (st_heap s) (pending s) in
  (w * (w + 1) + unarrived (st_heap s) (current_time s) (pending s))%nat.

(** ** The start of a run *)

Definition key_le (key : ref -> Z) (x y : ref) : Prop := key x <= key y.

(** What the first two statements of every algorithm establish. *)
Record prepared (h : heap) (processes : list ref) (h0 : heap)
       (sorted : list ref) : Prop := mkPrepared {
  prep_nodup : NoDup sorted;
  prep_fresh : forall r, In r sorted -> (next_ref h <= r)%nat;
  prep_keep : forall a, (a < next_ref h)%nat -> cell h0 a = cell h a;
  prep_next : next_ref h0 = (next_ref h + length processes)%nat;
  prep_sorted : StronglySorted (key_le (arrival h0)) sorted;
  prep_records : allocated h processes ->
                 Permutation (records h0 sorted)
                             (map (fun r => fresh_copy (cell h r)) processes)
}.

(** The instant the first timeline entry starts at: [fcfs] skips the gap
    before the first arrival and [round_robin] starts its clock there; the
    other loops start at 0. *)
Definition origin (alg : algorithm) (h0 : heap) (sorted : list ref) : Z :=
  match alg with
  | FCFS | RR _ => match sorted with r :: _ => arrival h0 r | [] => 0 end
  | _ => 0
  end.

Definition start_state (alg : algorithm) (h0 : heap) (sorted : list ref) : state :=
  mkState h0 (origin alg h0 sorted) [] sorted [] [] None.

(** ** The decision points of [sjf_preemptive] *)

(** The state the loop of [sjf_preemptive] starts from. *)
Definition sjf_p_start (h : heap) (processes : list ref) : state :=
  let (h0, copies) := copy_processes h processes in
  init_state h0 (sort_by (arrival h0) copies).

(** The states the loop of [sjf_preemptive] goes through: each is a decision
    point when a process is available. *)
Inductive sjf_p_reachable (s0 : state) : state -> Prop :=
| reach_start : sjf_p_reachable s0 s0
| reach_iter s :
    sjf_p_reachable s0 s -> has_remaining s = true ->
    sjf_p_reachable s0 (sjf_p_body s).

(** What the loop maintains about the order of the waiting processes and
    about the process that was running up to the current instant: it arrived
    earlier, and it has strictly less work left than every other process that
    arrived before now. *)
Record srtf_inv (s : state) : Prop := mkSrtfInv {
  srtf_sorted :
    StronglySorted (key_le (arrival (st_heap s))) (remaining_processes s);
  srtf_current : forall c, current_process s = Some c ->
    In c (remaining_processes s) /\
    arrival (st_heap s) c < current_time s /\
    forall x, In x (remaining_processes s) -> x <> c ->
              arrival (st_heap s) x < current_time s ->
              remaining_time (cell (st_heap s) c) < remaining_time (cell (st_heap s) x)
}.

(** ** Runs compared up to the addresses of their copies *)

(** Two runs on equal inputs allocate their copies at different addresses.
    They are compared up to an injective renaming [rho] of the references of
    the first run into those of the second; [D] holds of the references the
    first run uses. *)
Definition agree (rho : ref -> ref) (D : ref -> Prop) (h1 h2 : heap) : Prop :=
  forall r, D r -> cell h2 (rho r) = cell h1 r.

Definition within (D : ref -> Prop) (l : list ref) : Prop :=
  forall r, In r l -> D r.

(** Two loop states that differ only by the renaming. *)
Record related (rho : ref -> ref) (D : ref -> Prop) (s1 s2 : state) : Prop :=
  mkRelated {
  rel_heap : agree rho D (st_heap s1) (st_heap s2);
  rel_time : current_time s2 = current_time s1;
  rel_timeline : timeline s2 = timeline s1;
  rel_remaining : remaining_processes s2 = map rho (remaining_processes s1);
  rel_queue : ready_queue s2 = map rho (ready_queue s1);
  rel_completed : completed_processes s2 = map rho (completed_processes s1);
  rel_current : current_process s2 = option_map rho (current_process s1);
  rel_within : within D (remaining_processes s1 ++ ready_queue s1 ++
                         completed_processes s1)
}.

(** Two outcomes a caller cannot tell apart: the same timeline and the same
    finalized records, or no result in both. *)
Definition same_outcome (o1 o2 : outcome result) : Prop :=
  match o1, o2 with
  | Returned r1, Returned r2 =>
      res_timeline r1 = res_timeline r2 /\
      records (res_heap r1) (res_processes r1) =
      records (res_heap r2) (res_processes r2)
  | Raised e1, Raised e2 => e1 = e2
  | OutOfFuel, OutOfFuel => True
  | _, _ => False
  end.

(** ** Example inputs *)

(** A caller's heap holding the given records at addresses 0, 1, ... *)
Definition heap_of (l : list Process) : heap :=
  mkHeap (length l) (fun a => nth a l (new_Process 0 0 0 0)).

(** The two processes of the Round Robin example of the specification. *)
Definition P1 : Process := new_Process 1 0 5 0.
Definition P2 : Process := new_Process 2 1 3 0.
Definition two_processes : heap := heap_of [P1; P2].

(** A single process that arrives at time 1. *)
Definition late_process : heap := heap_of [new_Process 1 1 1 0].

(** Inputs on which each of the five functions returns the processes in an
    order other than the caller's: the second process arrives first. *)
Definition late_first : heap := heap_of [new_Process 1 1 1 0; new_Process 2 0 1 0].

Definition reorders (alg : algorithm) : Prop :=
  exists r,
    schedule alg 10 late_first [0; 1]%nat = Returned r /\
    map pid (records (res_heap r) (res_processes r)) = [2; 1] /\
    map pid (records late_first [0; 1]%nat) = [1; 2].

(** A process with burst 0, and one that arrives at time -3. *)
Definition zero_burst : heap := heap_of [new_Process 1 0 0 0].
Definition early_process : heap := heap_of [new_Process 1 (-3) 2 0].

(** One process with one unit of work, arriving at time 0. *)
Definition unit_process : heap := heap_of [new_Process 1 0 1 0].

(** One process whose burst is 2^1024 time units. *)
Definition huge_burst : heap := heap_of [new_Process 1 0 (2 ^ 1024) 0].

(** The states Round Robin cycles through on [unit_process] with quantum 0:
    the copy, at address 1, is waiting or queued, with its unit of work
    left. *)
Definition spinning (s : state) : Prop :=
  current_time s = 0 /\
  remaining_time (cell (st_heap s) 1%nat) = 1 /\
  arrival (st_heap s) 1%nat = 0 /\
  ((remaining_processes s = [1%nat] /\ ready_queue s = []) \/
   (remaining_processes s = [] /\ ready_queue s = [1%nat])).

(** The state of [sjf_preemptive] on the two example processes after its
    first iteration: P1 has run from 0 to 1, when P2 arrives. *)
Definition after_first_slice : state :=
  sjf_p_body (sjf_p_start two_processes [0; 1]%nat).

Definition work_left_then (p : ref) : Z :=
  remaining_time (cell (st_heap after_first_slice) p).

(** The two example processes again, in a heap that already holds three
    other objects and with their lifecycle fields overwritten. *)
Definition two_processes_later : heap :=
  heap_of [new_Process 7 3 3 3; new_Process 8 4 4 4; new_Process 9 5 5 5;
           set_remaining_time 0 (set_start_time 4 P1);
           set_completion_time 9 P2].

(** Exact rational arithmetic as one reading of the float operations
    [calculate_metrics] is parameterized by. *)
Definition rational_div (a b : Z) : Q := Qred (inject_Z a / inject_Z b).
Definition rational_mul (x : Q) (k : Z) : Q := Qred (x * inject_Z k).

(** ** One step of a simulation, with its bookkeeping *)

(** The three attributes every algorithm derives when a process finishes,
    as the assignments after [completion_time] relate them. *)
Definition derived (p : Process) : Prop :=
  turnaround_time p = completion_time p - arrival_time p /\
  waiting_time p = turnaround_time p - burst_time p /\
  response_time p = start_time p - arrival_time p.

(** A finer view of one iteration than [astep]: an idle gap is only recorded
    when no pending process has arrived and it ends at the earliest pending
    arrival; a dispatch takes a process that has arrived, stamps [start_time]
    when it is still -1, and on completion writes the derived attributes. *)
Inductive tstep (s s' : state) : Prop :=
| tstep_idle (r : ref) :
    st_heap s' = st_heap s ->
    In r (pending s) ->
    current_time s' = arrival (st_heap s) r ->
    current_time s < current_time s' ->
    (forall x, In x (pending s) -> current_time s' <= arrival (st_heap s) x) ->
    timeline s' =
      timeline s ++ [idle_segment (current_time s) (current_time s')] ->
    Permutation (pending s) (pending s') ->
    completed_processes s' = completed_processes s ->
    (forall c, current_process s' = Some c -> current_process s = Some c) ->
    tstep s s'
| tstep_run (r : ref) (e : Z) :
    In r (pending s) ->
    arrival (st_heap s) r <= current_time s ->
    (e = remaining_time (cell (st_heap s) r) \/
     0 < e < remaining_time (cell (st_heap s) r)) ->
    static_eq (cell (st_heap s) r) (cell (st_heap s') r) ->
    remaining_time (cell (st_heap s') r) =
      remaining_time (cell (st_heap s) r) - e ->
    start_time (cell (st_heap s') r) =
      (if start_time (cell (st_heap s) r) =? -1 then current_time s
       else start_time (cell (st_heap s) r)) ->
    (forall a, a <> r -> cell (st_heap s') a = cell (st_heap s) a) ->
    next_ref (st_heap s') = next_ref (st_heap s) ->
    timeline s' =
      timeline s ++ [run_segment (pid (cell (st_heap s) r)) (current_time s) e] ->
    current_time s' = current_time s + e ->
    (if remaining_time (cell (st_heap s') r) =? 0
     then derived (cell (st_heap s') r) /\
          completion (st_heap s') r = current_time s' /\
          Permutation (pending s) (r :: pending s') /\
          completed_processes s' = completed_processes s ++ [r]
     else Permutation (pending s) (pending s') /\
          completed_processes s' = completed_processes s) ->
    (forall c, current_process s' = Some c ->
               c = r \/ current_process s = Some c) ->
    tstep s s'.

Inductive tsteps (s0 : state) : state -> Prop :=
| tsteps_refl : tsteps s0 s0
| tsteps_snoc s s' : tsteps s0 s -> tstep s s' -> tsteps s0 s'.

(** What the loops keep true of their own variables between iterations: the
    clock is not negative and the process recorded as running has been
    stamped. *)
Record tidy (s : state) : Prop := mkTidy {
  tidy_clock : 0 <= current_time s;
  tidy_current : forall c, current_process s = Some c ->
                           start_time (cell (st_heap s) c) <> -1
}.

(** What Round Robin keeps true of its two lists: the processes still to be
    admitted are in arrival order and those in the ready queue have
    arrived. *)
Record rr_lists (s : state) : Prop := mkRrLists {
  rr_sorted : StronglySorted (key_le (arrival (st_heap s)))
                             (remaining_processes s);
  rr_queue : forall x, In x (ready_queue s) ->
                       arrival (st_heap s) x <= current_time s
}.

(** The life of each process as the clock sees it: a pending process is
    either untouched or was first dispatched at [start_time], after its
    arrival, and has since received no more than the time that has passed;
    a finalized one carries consistent derived attributes and got its whole
    burst between [start_time] and [completion_time]. *)
Record timed (s : state) : Prop := mkTimed {
  timed_pending : forall r, In r (pending s) ->
    let p := cell (st_heap s) r in
    (start_time p = -1 /\ remaining_time p = burst_time p) \/
    (start_time p <> -1 /\ arrival_time p <= start_time p /\
     remaining_time p <= burst_time p /\
     start_time p + (burst_time p - remaining_time p) <= current_time s);
  timed_done : forall r, In r (completed_processes s) ->
    let p := cell (st_heap s) r in
    derived p /\ remaining_time p = 0 /\ start_time p <> -1 /\
    arrival_time p <= start_time p /\
    start_time p + burst_time p <= completion_time p
}.

(** ** Observations on a timeline and the records it belongs to *)

(** A timeline that tiles the interval between two instants: every entry
    starts where the previous one ended, lasts a positive time, and ends
    [duration] after it starts. *)
Fixpoint tiles (from : Z) (tl : list Segment) (to : Z) : Prop :=
  match tl with
  | [] => from = to
  | g :: rest =>
      seg_start_time g = from /\ 0 < seg_duration g /\
      seg_end_time g = seg_start_time g + seg_duration g /\
      tiles (seg_end_time g) rest to
  end.

(** [g] is an entry of the process [p] that lies in the window from the
    first dispatch of [p] to its completion, which opens no earlier than [p]
    arrives. *)
Definition within_window (p : Process) (g : Segment) : Prop :=
  seg_pid g = Some (pid p) /\
  arrival_time p <= start_time p /\
  start_time p <= seg_start_time g /\
  seg_end_time g <= completion_time p.

(** Some entry of [p] starts at its [start_time], and some entry of [p]
    ends at its [completion_time]. *)
Definition window_on (tl : list Segment) (p : Process) : Prop :=
  (exists g, In g tl /\ seg_pid g = Some (pid p) /\
             seg_start_time g = start_time p) /\
  (exists g, In g tl /\ seg_pid g = Some (pid p) /\
             seg_end_time g = completion_time p).

(** During the idle entry [g] the process [p] is not waiting: it completed
    before the gap or arrives no earlier than its end. *)
Definition not_waiting (g : Segment) (p : Process) : Prop :=
  completion_time p <= seg_start_time g \/ seg_end_time g <= arrival_time p.

(** The same three observations on a state of a loop, where some processes
    are still pending. *)
Definition placed (s : state) : Prop :=
  forall g, In g (timeline s) ->
    seg_end_time g <= current_time s /\
    forall p, seg_pid g = Some p ->
      exists r, In r (pending s ++ completed_processes s) /\
                pid (cell (st_heap s) r) = p /\
                start_time (cell (st_heap s) r) <> -1 /\
                start_time (cell (st_heap s) r) <= seg_start_time g /\
                (In r (completed_processes s) ->
                 seg_end_time g <= completion (st_heap s) r).

Definition stamped (s : state) : Prop :=
  (forall r, In r (pending s ++ completed_processes s) ->
     start_time (cell (st_heap s) r) <> -1 ->
     exists g, In g (timeline s) /\
               seg_pid g = Some (pid (cell (st_heap s) r)) /\
               seg_start_time g = start_time (cell (st_heap s) r)) /\
  (forall r, In r (completed_processes s) ->
     exists g, In g (timeline s) /\
               seg_pid g = Some (pid (cell (st_heap s) r)) /\
               seg_end_time g = completion (st_heap s) r).

Definition conserving (s : state) : Prop :=
  forall g, In g (timeline s) -> seg_pid g = None ->
  forall r, In r (pending s ++ completed_processes s) ->
    seg_end_time g <= arrival (st_heap s) r \/
    (In r (completed_processes s) /\
     completion (st_heap s) r <= seg_start_time g).

(** The time the listed processes have received so far. *)
Definition executed_time (h : heap) (l : list ref) : Z :=
  fold_right (fun r acc =>
                burst_time (cell h r) - remaining_time (cell h r) + acc) 0 l.

(** ** process.py: [is_completed] and [reset] *)

(** [Process.is_completed] *)
Definition is_completed (p : Process) : bool := remaining_time p <=? 0.

(** [Process.reset]: the six assignments, in the order of the source. *)
Definition reset (p : Process) : Process :=
  let p1 := set_remaining_time (burst_time p) p in
  let p2 := set_start_time (-1) p1 in
  let p3 := set_completion_time (-1) p2 in
  let p4 := set_waiting_time (-1) p3 in
  let p5 := set_turnaround_time (-1) p4 in
  set_response_time (-1) p5.

(** ** app.py: [run_algorithm] *)

Section Dispatcher.

Variable number : Type.
Variable of_int : Z -> number.
Variable true_div : Z -> Z -> number.
Variable mul_int : number -> Z -> number.

(** The dict [run_algorithm] returns, with the heap it leaves behind. *)
Record Report : Type := mkReport {
  rep_timeline : list Segment;
  rep_processes : list ref;
  rep_metrics : Summary number;
  rep_heap : heap
}.

(** [run_algorithm(algorithm, processes, time_quantum=None)]: copies the
    processes, dispatches on the name of the algorithm (a name it does not
    know leaves the timeline and the list empty), and computes the metrics
    of what the algorithm returned; an exception in [calculate_metrics]
    propagates. *)
Definition run_algorithm (algorithm : string) (fuel : nat) (h : heap)
           (processes : list ref) (time_quantum : option Z)
  : outcome (raising Report) :=
  let (h1, process_copies) := copy_processes h processes in
  let scheduled :=
    if (algorithm =? "FCFS")%string then
      fcfs h1 process_copies
    else if (algorithm =? "SJF (Non-preemptive)")%string then
      sjf_non_preemptive fuel h1 process_copies
    else if (algorithm =? "SJF (Preemptive)")%string then
      sjf_preemptive fuel h1 process_copies
    else if (algorithm =? "Priority (Non-preemptive)")%string then
      priority_scheduling fuel h1 process_copies false
    else if (algorithm =? "Priority (Preemptive)")%string then
      priority_scheduling fuel h1 process_copies true
    else if (algorithm =? "Round Robin")%string then
      let rr_time_quantum :=
        match time_quantum with None => 2 | Some q => q end in
      round_robin fuel h1 process_copies rr_time_quantum
    else Returned (mkResult [] [] h1) in
  match scheduled with
  | Returned r =>
      Returned
        (bind (calculate_metrics number of_int true_div mul_int
                                 (res_heap r) (res_processes r))
              (fun metrics =>
                 Value (mkReport (res_timeline r) (res_processes r) metrics
                                 (res_heap r))))
  | Raised e => Raised e
  | OutOfFuel => OutOfFuel
  end.

(** What [run_algorithm] reports, next to what a direct call of the
    algorithm returns: the same timeline and records, and the metrics of
    those records, or the exception [calculate_metrics] raises on them. *)
Definition reports (o : outcome (raising Report)) (direct : outcome result)
  : Prop :=
  match o, direct with
  | Returned (Value rep), Returned r =>
      rep_timeline rep = res_timeline r /\
      records (rep_heap rep) (rep_processes rep) =
        records (res_heap r) (res_processes r) /\
      calculate_metrics number of_int true_div mul_int
                        (res_heap r) (res_processes r) =
        Value (rep_metrics rep)
  | Returned (Raise e), Returned r =>
      calculate_metrics number of_int true_div mul_int
                        (res_heap r) (res_processes r) = Raise e
  | Raised e1, Raised e2 => e1 = e2
  | OutOfFuel, OutOfFuel => True
  | _, _ => False
  end.

End Dispatcher.

Arguments mkReport {number}.
Arguments rep_timeline {number}.
Arguments rep_processes {number}.
Arguments rep_metrics {number}.
Arguments rep_heap {number}.

(** The algorithm a name and an optional quantum stand for: the six names
    the form offers, and 2 as the quantum of Round Robin when none is
    given. *)
Definition algorithm_of (name : string) (time_quantum : option Z)
  : option algorithm :=
  if (name =? "FCFS")%string then Some FCFS
  else if (name =? "SJF (Non-preemptive)")%string then Some SJF_NP
  else if (name =? "SJF (Preemptive)")%string then Some SJF_P
  else if (name =? "Priority (Non-preemptive)")%string then Some (PRIORITY false)
  else if (name =? "Priority (Preemptive)")%string then Some (PRIORITY true)
  else if (name =? "Round Robin")%string then
    Some (RR (match time_quantum with None => 2 | Some q => q end))
  else None.

(** ** Observations on the dispatches of [round_robin] *)

(** Every busy entry lasts a positive time no longer than the quantum, and
    one shorter than the quantum ends with the completion of its process. *)
Definition sliced (q : Z) (s : state) : Prop :=
  forall g p, In g (timeline s) -> seg_pid g = Some p ->
    0 < seg_duration g <= q /\
    (seg_duration g < q ->
     exists x, In x (completed_processes s) /\
               pid (cell (st_heap s) x) = p /\
               completion (st_heap s) x = seg_end_time g).

(** ** Observations on the choices of the selection loops *)

(** The attribute a selection loop minimizes when it picks among the
    processes that have arrived: the burst time for [sjf_non_preemptive] and
    the priority value for [priority_scheduling]. *)
Definition policy_key (alg : algorithm) : option (Process -> Z) :=
  match alg with
  | SJF_NP => Some burst_time
  | PRIORITY _ => Some priority
  | _ => None
  end.

(** When the busy entry [g] starts, the process [y] does not compete with
    the one holding [key] value [k]: its key is no smaller, or it has not
    arrived yet, or it had completed by then. *)
Definition no_better (key : Process -> Z) (k : Z) (g : Segment) (y : Process)
  : Prop :=
  k <= key y \/ seg_start_time g < arrival_time y \/
  completion_time y <= seg_start_time g.

(** One iteration appends entries whose process has the least key among
    the waiting processes that have arrived. *)
Definition picks (key : Process -> Z) (s s' : state) : Prop :=
  exists tail,
    timeline s' = timeline s ++ tail /\
    forall g p, In g tail -> seg_pid g = Some p ->
      seg_start_time g = current_time s /\
      exists r, In r (remaining_processes s) /\
                pid (cell (st_heap s) r) = p /\
                forall x, In x (remaining_processes s) ->
                          arrival (st_heap s) x <= current_time s ->
                          key (cell (st_heap s) r) <= key (cell (st_heap s) x).

(** The same observation on the whole timeline of a state. *)
Definition chosen_by (key : Process -> Z) (s0 s : state) : Prop :=
  forall g p, In g (timeline s) -> seg_pid g = Some p ->
    exists r, In r (pending s0) /\ pid (cell (st_heap s) r) = p /\
      forall x, In x (pending s0) ->
        key (cell (st_heap s) r) <= key (cell (st_heap s) x) \/
        seg_start_time g < arrival (st_heap s) x \/
        (In x (completed_processes s) /\
         completion (st_heap s) x <= seg_start_time g).

(** Two processes of which the second, arriving at time 1, has the more
    urgent priority and the shorter burst. *)
Definition urgent_second : heap :=
  heap_of [new_Process 1 0 4 2; new_Process 2 1 2 1].

(** ** Observations on the order of [fcfs] *)

(** The process ids of the busy entries of a timeline, in order. *)
Definition dispatched_pids (tl : list Segment) : list Z :=
  flat_map (fun g => match seg_pid g with Some p => [p] | None => [] end) tl.

(** The records that arrive at the instant [k], in the order of the list. *)
Definition arriving_at (k : Z) (l : list Process) : list Process :=
  filter (fun p => arrival_time p =? k) l.

(** ** visualization.py: [display_summary_metrics] *)

Section SummaryTable.

Variable number : Type.
Variable of_int : Z -> number.
Variable true_div : Z -> Z -> number.
Variable mul_int : number -> Z -> number.

(** The HTML is a fixed template around six values: the three averages,
    the number of processes, the CPU utilization and the throughput.  The
    template and the formatting of the values raise nothing and are left
    abstract. *)
Variable render : number -> number -> number -> Z -> number -> number -> string.

(** [display_summary_metrics(processes)]: the three averages are computed
    first, then the arguments of the last [format] call, left to right.
    Unlike [calculate_metrics] it has no case for the empty list, divides by
    the largest completion time rather than by the span from the smallest
    arrival, and only guards the division of the throughput. *)
Definition display_summary_metrics (h : heap) (processes : list ref)
  : raising string :=
  let n := Z.of_nat (length processes) in
  bind (py_div number true_div (py_sum turnaround_time h processes) n)
       (fun avg_turnaround_time =>
  bind (py_div number true_div (py_sum waiting_time h processes) n)
       (fun avg_waiting_time =>
  bind (py_div number true_div (py_sum response_time h processes) n)
       (fun avg_response_time =>
  bind (py_div number true_div (py_sum burst_time h processes)
                               (max_completion h processes))
       (fun x =>
  bind (if max_completion h processes >? 0
        then py_div number true_div n (max_completion h processes)
        else Value (of_int 0))
       (fun throughput =>
  Value (render avg_turnaround_time avg_waiting_time avg_response_time
                n (mul_int x 100) throughput)))))).

End SummaryTable.

(** * Lemmas *)

(** ** Lemmas: heap *)

Lemma cell_store_same h r p : cell (store h r p) r = p.
Proof. simpl. now rewrite Nat.eqb_refl. Qed.

Lemma cell_store_other h r p a : a <> r -> cell (store h r p) a = cell h a.
Proof. intros Hne. simpl. apply Nat.eqb_neq in Hne. now rewrite Hne. Qed.

Lemma cell_modify_same h r f : cell (modify h r f) r = f (cell h r).
Proof. apply cell_store_same. Qed.

Lemma cell_modify_other h r f a : a <> r -> cell (modify h r f) a = cell h a.
Proof. apply cell_store_other. Qed.

Lemma next_ref_modify h r f : next_ref (modify h r f) = next_ref h.
Proof. reflexivity. Qed.

(** From here on heap updates are reasoned about through the lemmas above. *)
Arguments store : simpl never.
Arguments modify : simpl never.
Arguments mark_start : simpl never.

Lemma static_eq_refl p : static_eq p p.
Proof. repeat split. Qed.

Lemma static_eq_trans p q r : static_eq p q -> static_eq q r -> static_eq p r.
Proof. unfold static_eq. intuition congruence. Qed.

Lemma static_eq_sym p q : static_eq p q -> static_eq q p.
Proof. unfold static_eq. intuition congruence. Qed.

(** ** Lemmas: the abstract step preserves the invariants *)

Lemma wf_init s0 : NoDup (pending s0) -> completed_processes s0 = [] -> wf s0 s0.
Proof.
  intros Hnd Hc. constructor; rewrite ?Hc, ?app_nil_r; auto.
  intros a. apply static_eq_refl.
Qed.

Lemma wf_step np s0 s s' : wf s0 s -> astep np s s' -> wf s0 s'.
Proof.
  intros [Hnd Hperm Hst Hfr Hnx] Hstep.
  destruct Hstep as [r0 Hh Hr0 Har Ht Htl Hp Hc | r e Hin He Hse Hrem Hoth Hnext Htl Ht Hfin].
  - constructor; rewrite ?Hh, ?Hc; auto.
    + eapply Permutation_NoDup; [|exact Hnd]. now apply Permutation_app_tail.
    + etransitivity; [|exact Hperm]. apply Permutation_app_tail. now symmetry.
  - assert (Hmove : Permutation (pending s ++ completed_processes s)
                                (pending s' ++ completed_processes s')).
    { destruct (remaining_time (cell (st_heap s') r) =? 0).
      - destruct Hfin as (_ & Hp & ->).
        rewrite Hp. simpl. rewrite app_assoc.
        etransitivity; [apply Permutation_cons_append|].
        now rewrite <- !app_assoc.
      - destruct Hfin as (Hp & ->). now apply Permutation_app_tail. }
    constructor.
    + eapply Permutation_NoDup; eauto.
    + etransitivity; [symmetry; exact Hmove | exact Hperm].
    + intros a. destruct (Nat.eq_dec a r) as [-> | Hne].
      * eapply static_eq_trans; eauto.
      * rewrite (Hoth a Hne). apply Hst.
    + intros a Ha. rewrite Hoth; auto.
      intros ->. apply Ha.
      eapply Permutation_in; [exact Hperm|]. apply in_or_app. now left.
    + congruence.
Qed.

Lemma wf_steps np s0 s :
  NoDup (pending s0) -> completed_processes s0 = [] -> steps np s0 s -> wf s0 s.
Proof.
  intros Hnd Hc Hs. induction Hs.
  - now apply wf_init.
  - eapply wf_step; eauto.
Qed.

Lemma total_duration_app tl1 tl2 :
  total_duration (tl1 ++ tl2) = total_duration tl1 + total_duration tl2.
Proof. induction tl1; simpl; lia. Qed.

Lemma NoDup_app_disjoint {A : Type} (l1 l2 : list A) (x : A) :
  NoDup (l1 ++ l2) -> In x l1 -> In x l2 -> False.
Proof.
  induction l1 as [|y l1 IH]; simpl; intros Hnd H1 H2; [easy|].
  inversion Hnd as [|? ? Hnotin Hnd']; subst.
  destruct H1 as [-> | H1]; [|now apply IH].
  apply Hnotin, in_or_app. now right.
Qed.

Lemma NoDup_app_left {A : Type} (l1 l2 : list A) : NoDup (l1 ++ l2) -> NoDup l1.
Proof.
  induction l1 as [|y l1 IH]; simpl; intros Hnd; [constructor|].
  inversion Hnd as [|? ? Hnotin Hnd']; subst. constructor; auto.
  intros Hin. apply Hnotin, in_or_app. now left.
Qed.

Lemma StronglySorted_snoc (l : list Z) (x : Z) :
  StronglySorted Z.le l -> Forall (fun y => y <= x) l ->
  StronglySorted Z.le (l ++ [x]).
Proof.
  induction 1 as [|y l Hs IH Hall]; simpl; intros Hle.
  - repeat constructor.
  - inversion Hle; subst. constructor; auto.
    apply Forall_app. split; auto.
Qed.

(** Consequences of a dispatch on a state with distinct processes. *)
Lemma pending_after_finish (s s' : state) (r x : ref) :
  NoDup (pending s) -> Permutation (pending s) (r :: pending s') ->
  In x (pending s') -> x <> r /\ In x (pending s).
Proof.
  intros Hnd Hp Hx. split.
  - intros ->. apply (Permutation_NoDup Hp) in Hnd.
    inversion Hnd; subst. contradiction.
  - eapply Permutation_in; [symmetry; exact Hp|]. now right.
Qed.

Lemma sound_init s0 :
  (forall r, In r (pending s0) -> 0 < remaining_time (cell (st_heap s0) r)) ->
  timeline s0 = [] -> completed_processes s0 = [] ->
  sound s0 s0.
Proof.
  intros Hpos Htl Hc. constructor; rewrite ?Htl, ?Hc; simpl; auto.
  - lia.
  - easy.
  - constructor.
  - intros _ l r Heq. now destruct l.
Qed.

Lemma sound_step np s0 s s' :
  wf s0 s -> sound s0 s -> astep np s s' -> sound s0 s'.
Proof.
  intros Hwf [Hpos Hclock Hdone Hsorted Hlast] Hstep.
  pose proof (wf_nodup _ _ Hwf) as Hnd.
  pose proof (NoDup_app_left _ _ Hnd) as Hndp.
  destruct Hstep as [r0 Hh Hr0 Har Ht Htl Hp Hc | r e Hin He Hse Hrem Hoth Hnext Htl Ht Hfin].
  - constructor; rewrite ?Hh, ?Hc, ?Htl.
    + intros r Hr. apply Hpos. eapply Permutation_in; [symmetry|]; eauto.
    + rewrite total_duration_app. simpl. lia.
    + intros r Hr. destruct (Hdone r Hr). split; auto. lia.
    + assumption.
    + intros Hnil. rewrite Hnil in Hp. apply Permutation_sym, Permutation_nil in Hp.
      rewrite Hp in Hr0. contradiction.
  - assert (He0 : 0 < e) by (specialize (Hpos r Hin); lia).
    assert (Hold : forall x, In x (completed_processes s) ->
                     cell (st_heap s') x = cell (st_heap s) x).
    { intros x Hx. apply Hoth. intros ->.
      eapply (NoDup_app_disjoint _ _ _ Hnd); eassumption. }
    assert (Hmap : map (completion (st_heap s')) (completed_processes s) =
                   map (completion (st_heap s)) (completed_processes s)).
    { apply map_ext_in. intros x Hx. unfold completion. now rewrite Hold. }
    destruct (remaining_time (cell (st_heap s') r) =? 0) eqn:Hz.
    + destruct Hfin as (Hcompl & Hp & Hc).
      apply Z.eqb_eq in Hz.
      constructor; rewrite ?Hc, ?Htl.
      * intros x Hx. destruct (pending_after_finish s s' r x Hndp Hp Hx) as [Hxr Hxs].
        rewrite Hoth; auto.
      * rewrite total_duration_app. simpl. lia.
      * intros x Hx. apply in_app_or in Hx. destruct Hx as [Hx | [<- | []]].
        -- unfold completion. rewrite (Hold x Hx).
           destruct (Hdone x Hx) as [? Hle]. unfold completion in Hle. split; auto. lia.
        -- split; auto. lia.
      * rewrite map_app, Hmap. simpl. apply StronglySorted_snoc; auto.
        apply Forall_forall. intros y Hy. apply in_map_iff in Hy.
        destruct Hy as (x & <- & Hx). destruct (Hdone x Hx). lia.
      * intros _ l r0 Heq. apply app_inj_tail in Heq. destruct Heq as [_ <-]. assumption.
    + destruct Hfin as (Hp & Hc).
      apply Z.eqb_neq in Hz.
      constructor; rewrite ?Hc, ?Htl.
      * intros x Hx. destruct (Nat.eq_dec x r) as [-> | Hxr].
        -- lia.
        -- rewrite Hoth; auto. apply Hpos.
           eapply Permutation_in; [symmetry|]; eauto.
      * rewrite total_duration_app. simpl. lia.
      * intros x Hx. unfold completion. rewrite (Hold x Hx).
        destruct (Hdone x Hx) as [? Hle]. unfold completion in Hle. split; auto. lia.
      * now rewrite Hmap.
      * intros Hnil. rewrite Hnil in Hp. apply Permutation_sym, Permutation_nil in Hp.
        rewrite Hp in Hin. contradiction.
Qed.

Lemma sound_steps np s0 s :
  NoDup (pending s0) ->
  (forall r, In r (pending s0) -> 0 < remaining_time (cell (st_heap s0) r)) ->
  timeline s0 = [] -> completed_processes s0 = [] ->
  steps np s0 s -> sound s0 s.
Proof.
  intros Hnd Hpos Htl Hc Hs. induction Hs.
  - now apply sound_init.
  - eapply sound_step; eauto. eapply wf_steps; eauto.
Qed.

Lemma astep_members np s s' :
  astep np s s' ->
  Permutation (pending s ++ completed_processes s)
              (pending s' ++ completed_processes s').
Proof.
  intros [r0 Hh Hr0 Har Ht Htl Hp Hc | r e Hin He Hse Hrem Hoth Hnext Htl Ht Hfin].
  - rewrite Hc. now apply Permutation_app_tail.
  - destruct (remaining_time (cell (st_heap s') r) =? 0).
    + destruct Hfin as (_ & Hp & ->).
      rewrite Hp. simpl. rewrite app_assoc.
      etransitivity; [apply Permutation_cons_append|].
      now rewrite <- !app_assoc.
    + destruct Hfin as (Hp & ->). now apply Permutation_app_tail.
Qed.

Lemma segments_of_app p tl1 tl2 :
  segments_of p (tl1 ++ tl2) = segments_of p tl1 ++ segments_of p tl2.
Proof. apply filter_app. Qed.

Lemma segments_of_idle p tl from to :
  segments_of p (tl ++ [idle_segment from to]) = segments_of p tl.
Proof. rewrite segments_of_app. simpl. apply app_nil_r. Qed.

Lemma segments_of_run_same p tl from len :
  segments_of p (tl ++ [run_segment p from len]) =
  segments_of p tl ++ [run_segment p from len].
Proof.
  rewrite segments_of_app. simpl. unfold carries. simpl. now rewrite Z.eqb_refl.
Qed.

Lemma segments_of_run_other p q tl from len :
  q <> p -> segments_of p (tl ++ [run_segment q from len]) = segments_of p tl.
Proof.
  intros Hne. rewrite segments_of_app. simpl. unfold carries. simpl.
  apply Z.eqb_neq in Hne. rewrite Hne. apply app_nil_r.
Qed.

Lemma NoDup_map_neq {A B : Type} (f : A -> B) (l : list A) (x y : A) :
  NoDup (map f l) -> In x l -> In y l -> x <> y -> f x <> f y.
Proof.
  induction l as [|z l IH]; simpl; intros Hnd Hx Hy Hne; [easy|].
  inversion Hnd as [|? ? Hnotin Hnd']; subst.
  destruct Hx as [-> | Hx], Hy as [-> | Hy].
  - congruence.
  - intros Heq. apply Hnotin. rewrite Heq. now apply in_map.
  - intros Heq. apply Hnotin. rewrite <- Heq. now apply in_map.
  - now apply IH.
Qed.

Lemma unique_pids_wf s0 s :
  wf s0 s -> unique_pids (st_heap s0) (pending s0) ->
  unique_pids (st_heap s) (pending s ++ completed_processes s).
Proof.
  intros Hwf Hu. unfold unique_pids in *.
  rewrite (map_ext (fun r => pid (cell (st_heap s) r))
                   (fun r => pid (cell (st_heap s0) r))).
  - eapply Permutation_NoDup; [|exact Hu].
    apply Permutation_map. symmetry. apply (wf_perm _ _ Hwf).
  - intros a. destruct (wf_static _ _ Hwf a) as (Hp & _). now rewrite Hp.
Qed.

Lemma accounted_step np s0 s s' :
  wf s0 s -> unique_pids (st_heap s0) (pending s0) ->
  accounted s -> astep np s s' -> accounted s'.
Proof.
  intros Hwf Hu Hacc Hstep.
  pose proof (unique_pids_wf _ _ Hwf Hu) as Hus.
  pose proof (astep_members _ _ _ Hstep) as Hmem.
  intros x Hx.
  assert (Hxs : In x (pending s ++ completed_processes s))
    by (eapply Permutation_in; [symmetry|]; eauto).
  specialize (Hacc x Hxs).
  destruct Hstep as [r0 Hh Hr0 Har Ht Htl Hp Hc | r e Hin He Hse Hrem Hoth Hnext Htl Ht Hfin].
  - rewrite Hh, Htl. unfold busy_time in *. now rewrite segments_of_idle.
  - rewrite Htl. unfold busy_time in *.
    destruct (Nat.eq_dec x r) as [-> | Hxr].
    + destruct Hse as (Hpid & _ & Hb & _). rewrite <- Hpid, <- Hb, Hrem.
      rewrite segments_of_run_same, total_duration_app. simpl. lia.
    + rewrite (Hoth x Hxr). rewrite segments_of_run_other; auto.
      apply (NoDup_map_neq (fun r => pid (cell (st_heap s) r)) _ r x Hus); auto.
      apply in_or_app. now left.
Qed.

Lemma accounted_steps np s0 s :
  NoDup (pending s0) -> unique_pids (st_heap s0) (pending s0) ->
  (forall r, In r (pending s0) ->
     remaining_time (cell (st_heap s0) r) = burst_time (cell (st_heap s0) r)) ->
  timeline s0 = [] -> completed_processes s0 = [] ->
  steps np s0 s -> accounted s.
Proof.
  intros Hnd Hu Hfresh Htl Hc Hs. induction Hs.
  - intros r Hr. rewrite Hc, app_nil_r in Hr. rewrite Htl.
    unfold busy_time. simpl. now apply Hfresh.
  - eapply accounted_step; eauto. eapply wf_steps; eauto.
Qed.

Lemma dispatched_once_step s0 s s' :
  wf s0 s -> unique_pids (st_heap s0) (pending s0) ->
  accounted s -> dispatched_once s -> astep true s s' -> dispatched_once s'.
Proof.
  intros Hwf Hu Hacc [Hnone Hone] Hstep.
  pose proof (unique_pids_wf _ _ Hwf Hu) as Hus.
  pose proof (wf_nodup _ _ Hwf) as Hnd.
  pose proof (NoDup_app_left _ _ Hnd) as Hndp.
  destruct Hstep as [r0 Hh Hr0 Har Ht Htl Hp Hc | r e Hin He Hse Hrem Hoth Hnext Htl Ht Hfin].
  - unfold dispatched_once. rewrite Hh, Htl, Hc. split.
    + intros r Hr. rewrite segments_of_idle. apply Hnone.
      eapply Permutation_in; [symmetry|]; eauto.
    + intros r Hr. rewrite segments_of_idle. now apply Hone.
  - destruct He as [He | [Hf _]]; [|discriminate].
    assert (Hz : (remaining_time (cell (st_heap s') r) =? 0) = true)
      by (apply Z.eqb_eq; lia).
    rewrite Hz in Hfin. destruct Hfin as (_ & Hp & Hc).
    assert (Hother : forall x, In x (pending s ++ completed_processes s) -> x <> r ->
              cell (st_heap s') x = cell (st_heap s) x /\
              segments_of (pid (cell (st_heap s) x)) (timeline s') =
              segments_of (pid (cell (st_heap s) x)) (timeline s)).
    { intros x Hx Hxr. split; [now apply Hoth|].
      rewrite Htl. apply segments_of_run_other.
      apply (NoDup_map_neq (fun r => pid (cell (st_heap s) r)) _ r x Hus); auto.
      apply in_or_app. now left. }
    split.
    + intros x Hx. destruct (pending_after_finish s s' r x Hndp Hp Hx) as [Hxr Hxs].
      destruct (Hother x) as [Hcell Hseg]; auto.
      { apply in_or_app. now left. }
      rewrite Hcell, Hseg. now apply Hnone.
    + intros x Hx. rewrite Hc in Hx. apply in_app_or in Hx.
      destruct Hx as [Hx | [<- | []]].
      * assert (Hxr : x <> r).
        { intros ->. eapply (NoDup_app_disjoint _ _ _ Hnd); eassumption. }
        destruct (Hother x) as [Hcell Hseg]; auto.
        { apply in_or_app. now right. }
        rewrite Hcell, Hseg. now apply Hone.
      * destruct Hse as (Hpid & _ & Hb & _). rewrite <- Hpid, <- Hb, Htl.
        rewrite segments_of_run_same, (Hnone r Hin). simpl.
        eexists. split; [reflexivity|]. simpl.
        specialize (Hacc r (in_or_app _ _ _ (or_introl Hin))).
        unfold busy_time in Hacc. rewrite (Hnone r Hin) in Hacc. simpl in Hacc. lia.
Qed.

Lemma dispatched_once_steps s0 s :
  NoDup (pending s0) -> unique_pids (st_heap s0) (pending s0) ->
  (forall r, In r (pending s0) ->
     remaining_time (cell (st_heap s0) r) = burst_time (cell (st_heap s0) r)) ->
  timeline s0 = [] -> completed_processes s0 = [] ->
  steps true s0 s -> dispatched_once s.
Proof.
  intros Hnd Hu Hfresh Htl Hc Hs. induction Hs.
  - split; rewrite ?Htl, ?Hc; simpl; [reflexivity | easy].
  - eapply dispatched_once_step; eauto.
    + eapply wf_steps; eauto.
    + eapply accounted_steps; eauto.
Qed.

(** ** Lemmas: copying and sorting *)

Lemma copy_processes_spec l : forall h h' l',
  copy_processes h l = (h', l') ->
  l' = seq (next_ref h) (length l) /\
  next_ref h' = (next_ref h + length l)%nat /\
  (forall a, (a < next_ref h)%nat -> cell h' a = cell h a) /\
  (allocated h l -> map (cell h') l' = map (fun r => fresh_copy (cell h r)) l).
Proof.
  induction l as [|p rest IH]; simpl; intros h h' l' Hc.
  - inversion Hc; subst. repeat split; auto.
  - destruct (copy_processes _ rest) as [h2 l2] eqn:Hrec.
    inversion Hc; subst. clear Hc.
    destruct (IH _ _ _ Hrec) as (Hl & Hn & Hkeep & Hval). simpl in *.
    assert (Hlow : forall a, (a < next_ref h)%nat -> cell h' a = cell h a).
    { intros a Ha. rewrite Hkeep by lia.
      destruct (Nat.eqb_spec a (next_ref h)); [lia | reflexivity]. }
    repeat split; auto.
    + now rewrite Hl.
    + lia.
    + intros Hall. inversion Hall as [|? ? Hp Hrest]; subst. f_equal.
      * rewrite Hkeep by lia. now rewrite Nat.eqb_refl.
      * rewrite Hval.
        -- apply map_ext_in. intros r Hr.
           rewrite Forall_forall in Hrest. specialize (Hrest r Hr).
           destruct (Nat.eqb_spec r (next_ref h)); [lia | reflexivity].
        -- unfold allocated. simpl. eapply Forall_impl; [|exact Hrest].
           simpl. intros; lia.
Qed.

Lemma insert_by_perm key x l : Permutation (insert_by key x l) (x :: l).
Proof.
  induction l as [|y l IH]; simpl; auto.
  destruct (key x <=? key y); auto.
  rewrite IH. apply perm_swap.
Qed.

Lemma sort_by_perm key l : Permutation (sort_by key l) l.
Proof.
  induction l as [|x l IH]; simpl; auto.
  rewrite insert_by_perm. now constructor.
Qed.

Lemma insert_by_sorted key x l :
  StronglySorted (key_le key) l -> StronglySorted (key_le key) (insert_by key x l).
Proof.
  induction 1 as [|y l Hs IH Hall]; simpl.
  - repeat constructor.
  - destruct (Z.leb_spec (key x) (key y)) as [Hle | Hgt].
    + constructor; [now constructor|]. constructor; auto.
      eapply Forall_impl; [|exact Hall]. unfold key_le. intros; lia.
    + constructor; auto.
      eapply Permutation_Forall; [symmetry; apply insert_by_perm|].
      constructor; auto. unfold key_le. lia.
Qed.

Lemma sort_by_sorted key l : StronglySorted (key_le key) (sort_by key l).
Proof.
  induction l as [|x l IH]; simpl; [constructor | now apply insert_by_sorted].
Qed.

(** ** Lemmas: every abstract step makes progress *)

Lemma work_perm h l l' : Permutation l l' -> work h l = work h l'.
Proof.
  unfold work. induction 1; simpl; try lia.
Qed.

Lemma unarrived_perm h now l l' :
  Permutation l l' -> unarrived h now l = unarrived h now l'.
Proof.
  unfold unarrived. induction 1; simpl; auto.
  - destruct (now <? arrival h x); simpl; lia.
  - destruct (now <? arrival h x), (now <? arrival h y); simpl; lia.
  - lia.
Qed.

Lemma unarrived_le_work h now l : (unarrived h now l <= work h l)%nat.
Proof.
  unfold unarrived, work. induction l as [|x l IH]; simpl; [lia|].
  assert (1 <= weight h x)%nat by (unfold weight; lia).
  destruct (now <? arrival h x); simpl; lia.
Qed.

Lemma work_ext h h' l :
  (forall r, In r l -> remaining_time (cell h' r) = remaining_time (cell h r)) ->
  work h' l = work h l.
Proof.
  intros Heq. unfold work. f_equal. apply map_ext_in.
  intros r Hr. unfold weight. now rewrite Heq.
Qed.

Lemma unarrived_mono h now now' l :
  now <= now' -> (unarrived h now' l <= unarrived h now l)%nat.
Proof.
  intros Hle. unfold unarrived. induction l as [|x l IH]; simpl; [lia|].
  destruct (Z.ltb_spec now' (arrival h x)), (Z.ltb_spec now (arrival h x));
    simpl; lia.
Qed.

Lemma unarrived_drop h now now' l r :
  now < now' -> In r l -> now < arrival h r <= now' ->
  (unarrived h now' l < unarrived h now l)%nat.
Proof.
  intros Hlt Hin Hr. induction l as [|x l IH]; simpl in *; [easy|].
  assert (Hm := unarrived_mono h now now' l (Z.lt_le_incl _ _ Hlt)).
  unfold unarrived in *. simpl.
  destruct Hin as [-> | Hin].
  - destruct (Z.ltb_spec now' (arrival h r)), (Z.ltb_spec now (arrival h r));
      simpl; lia.
  - specialize (IH Hin).
    destruct (Z.ltb_spec now' (arrival h x)), (Z.ltb_spec now (arrival h x));
      simpl; lia.
Qed.

Lemma measure_step np s0 s s' :
  wf s0 s -> astep np s s' -> (measure s' < measure s)%nat.
Proof.
  intros Hwf Hstep.
  pose proof (NoDup_app_left _ _ (wf_nodup _ _ Hwf)) as Hndp.
  unfold measure.
  destruct Hstep as [r0 Hh Hr0 Har Ht Htl Hp Hc | r e Hin He Hse Hrem Hoth Hnext Htl Ht Hfin].
  - rewrite Hh, <- (work_perm _ _ _ Hp), <- (unarrived_perm _ _ _ _ Hp).
    assert (unarrived (st_heap s) (current_time s') (pending s) <
            unarrived (st_heap s) (current_time s) (pending s))%nat.
    { apply unarrived_drop with (r := r0); auto. lia. }
    lia.
  - set (w := work (st_heap s) (pending s)).
    set (w' := work (st_heap s') (pending s')).
    assert (Hw : (w' < w)%nat).
    { subst w w'.
      destruct (remaining_time (cell (st_heap s') r) =? 0) eqn:Hz.
      - destruct Hfin as (_ & Hp & _).
        rewrite (work_perm _ _ _ Hp). unfold work at 2. simpl. fold (work (st_heap s) (pending s')).
        rewrite (work_ext (st_heap s) (st_heap s') (pending s')).
        + assert (1 <= weight (st_heap s) r)%nat by (unfold weight; lia). lia.
        + intros x Hx. destruct (pending_after_finish s s' r x Hndp Hp Hx) as [Hxr _].
          now rewrite Hoth.
      - destruct Hfin as (Hp & _). apply Z.eqb_neq in Hz.
        rewrite <- (work_perm _ _ _ Hp).
        destruct (in_split _ _ Hin) as (l1 & l2 & Hsplit).
        rewrite Hsplit in *. clear Hp.
        assert (Hnot : ~ In r (l1 ++ l2)).
        { apply NoDup_remove_2. exact Hndp. }
        unfold work. rewrite !map_app, !list_sum_app. simpl.
        fold (work (st_heap s') l1). fold (work (st_heap s') l2).
        fold (work (st_heap s) l1). fold (work (st_heap s) l2).
        rewrite (work_ext (st_heap s) (st_heap s') l1),
                (work_ext (st_heap s) (st_heap s') l2).
        + assert (weight (st_heap s') r < weight (st_heap s) r)%nat
            by (unfold weight; lia).
          lia.
        + intros x Hx. rewrite Hoth; auto. intros ->. apply Hnot, in_or_app. now right.
        + intros x Hx. rewrite Hoth; auto. intros ->. apply Hnot, in_or_app. now left. }
    pose proof (unarrived_le_work (st_heap s') (current_time s') (pending s')) as Hu.
    fold w' in Hu. nia.
Qed.

(** ** Lemmas: the loop combinator *)

Lemma while_total {St : Type} (cond : St -> bool) (body : St -> St)
      (I : St -> Prop) (m : St -> nat) :
  (forall s, I s -> cond s = true -> I (body s) /\ (m (body s) < m s)%nat) ->
  forall fuel s, I s -> (m s <= fuel)%nat ->
  exists s', while cond body fuel s = Some s' /\ I s' /\ cond s' = false.
Proof.
  intros Hstep. induction fuel as [|n IH]; intros s HI Hm; simpl.
  - destruct (cond s) eqn:Hc.
    + destruct (Hstep s HI Hc). lia.
    + eauto.
  - destruct (cond s) eqn:Hc.
    + destruct (Hstep s HI Hc) as [HI' Hlt]. apply IH; auto. lia.
    + eauto.
Qed.

Lemma while_steps np (cond : state -> bool) (body : state -> state)
      (J : state -> Prop) (s0 : state) :
  NoDup (pending s0) -> completed_processes s0 = [] -> J s0 ->
  (forall s, wf s0 s -> J s -> cond s = true ->
             astep np s (body s) /\ J (body s)) ->
  forall fuel, (measure s0 <= fuel)%nat ->
  exists s', while cond body fuel s0 = Some s' /\
             steps np s0 s' /\ J s' /\ cond s' = false.
Proof.
  intros Hnd Hc HJ Hbody fuel Hfuel.
  destruct (while_total cond body
              (fun s => steps np s0 s /\ J s /\ (measure s <= measure s0)%nat)
              measure)
    with (fuel := fuel) (s := s0) as (s' & Hw & (Hs & HJ' & _) & Hcond); auto.
  - intros s (Hs & HJs & Hle) Hcs.
    assert (Hwf : wf s0 s) by (eapply wf_steps; eauto).
    destruct (Hbody s Hwf HJs Hcs) as [Ha HJb].
    pose proof (measure_step _ _ _ _ Hwf Ha).
    repeat split; auto; try lia. econstructor; eauto.
  - repeat split; [constructor | auto | lia].
  - eauto 6.
Qed.

(** ** Lemmas: the primitives of the loops *)

Lemma min_by_in key first others : In (min_by key first others) (first :: others).
Proof.
  unfold min_by. revert first.
  induction others as [|x l IH]; simpl; intros first; [now left|].
  destruct (IH (if key x <? key first then x else first)) as [Heq | Hin].
  - rewrite <- Heq. destruct (key x <? key first); auto.
  - auto.
Qed.

Lemma fold_min_le (l : list Z) : forall a,
  fold_left Z.min l a <= a /\ (forall x, In x l -> fold_left Z.min l a <= x) /\
  (fold_left Z.min l a = a \/ In (fold_left Z.min l a) l).
Proof.
  induction l as [|y l IH]; simpl; intros a.
  - repeat split; auto; try lia; easy.
  - destruct (IH (Z.min a y)) as (H1 & H2 & H3). repeat split.
    + lia.
    + intros x [<- | Hx]; [lia | auto].
    + destruct H3 as [H3 | H3]; auto.
      rewrite H3. destruct (Z.min_spec a y) as [[_ ->] | [_ ->]]; auto.
Qed.

Lemma min_arrival_spec h l :
  l <> [] ->
  (exists r, In r l /\ arrival h r = min_arrival h l) /\
  (forall x, In x l -> min_arrival h l <= arrival h x).
Proof.
  destruct l as [|r rest]; [easy|]. intros _. unfold min_arrival.
  fold (arrival h r).
  destruct (fold_min_le (map (fun x => arrival_time (cell h x)) rest) (arrival h r))
    as (H1 & H2 & H3).
  split.
  - destruct H3 as [H3 | H3].
    + exists r. split; [now left | now rewrite H3].
    + apply in_map_iff in H3. destruct H3 as (x & Hx & Hin).
      exists x. split; [now right | exact Hx].
  - intros x [<- | Hx]; auto.
    apply H2. apply in_map_iff. now exists x.
Qed.

Lemma remove_first_perm x l : In x l -> Permutation l (x :: remove_first x l).
Proof.
  induction l as [|y l IH]; simpl; intros Hin; [easy|].
  destruct (Nat.eqb_spec y x) as [-> | Hne]; auto.
  destruct Hin as [-> | Hin]; [congruence|].
  rewrite (IH Hin) at 1. apply perm_swap.
Qed.

Lemma filter_nil_none {A : Type} (f : A -> bool) (l : list A) :
  filter f l = [] -> forall x, In x l -> f x = false.
Proof.
  intros Hnil x Hx. destruct (f x) eqn:Hf; auto.
  assert (In x (filter f l)) by (apply filter_In; auto).
  rewrite Hnil in *. contradiction.
Qed.

Lemma cell_mark_start_other h r now a :
  a <> r -> cell (mark_start h r now) a = cell h a.
Proof.
  intros Hne. unfold mark_start. destruct (_ =? _); auto.
  now apply cell_modify_other.
Qed.

Lemma mark_start_same h r now :
  static_eq (cell h r) (cell (mark_start h r now) r) /\
  remaining_time (cell (mark_start h r now) r) = remaining_time (cell h r) /\
  next_ref (mark_start h r now) = next_ref h.
Proof.
  unfold mark_start. destruct (_ =? _).
  - rewrite cell_modify_same. repeat split.
  - repeat split.
Qed.

Lemma arrival_mark_start h r now a :
  arrival (mark_start h r now) a = arrival h a.
Proof.
  unfold arrival. destruct (Nat.eq_dec a r) as [-> | Hne].
  - destruct (mark_start_same h r now) as ((_ & Ha & _) & _). now rewrite Ha.
  - now rewrite cell_mark_start_other.
Qed.

Lemma idle_until_next_arrival_astep np s :
  remaining_processes s <> [] ->
  filter (arrived (st_heap s) (current_time s)) (remaining_processes s) = [] ->
  astep np s (idle_until_next_arrival s).
Proof.
  intros Hne Hnil.
  destruct (min_arrival_spec (st_heap s) _ Hne) as ((r & Hr & Har) & _).
  pose proof (filter_nil_none _ _ Hnil r Hr) as Hlate.
  unfold arrived in Hlate. apply Z.leb_gt in Hlate.
  assert (Hlt : (current_time s <? min_arrival (st_heap s) (remaining_processes s)) = true)
    by (apply Z.ltb_lt; lia).
  apply astep_idle with (r := r); unfold idle_until_next_arrival; simpl; auto.
  - unfold pending. apply in_or_app. now left.
  - lia.
  - now rewrite Hlt.
Qed.

(** ** Lemmas: every loop body is an abstract step *)

Lemma run_selected_astep np s h1 selected e :
  In selected (remaining_processes s) ->
  (forall a, a <> selected -> cell h1 a = cell (st_heap s) a) ->
  static_eq (cell (st_heap s) selected) (cell h1 selected) ->
  remaining_time (cell h1 selected) = remaining_time (cell (st_heap s) selected) ->
  next_ref h1 = next_ref (st_heap s) ->
  (e = remaining_time (cell (st_heap s) selected) \/
   (np = false /\ 0 < e < remaining_time (cell (st_heap s) selected))) ->
  astep np s (run_selected s h1 selected e).
Proof.
  intros Hin Hoth Hst Hrem Hnext He.
  assert (Hpend : In selected (pending s)) by (apply in_or_app; now left).
  destruct Hst as (Hpid & Harr & Hburst & Hprio).
  unfold run_selected. rewrite cell_modify_same. cbn.
  destruct (remaining_time (cell h1 selected) - e =? 0) eqn:Hz.
  - apply astep_run with (r := selected) (e := e); cbn; auto;
      rewrite ?cell_modify_same; cbn; auto.
    + repeat split; cbn; auto.
    + lia.
    + intros a Ha. rewrite !cell_modify_other by auto. now apply Hoth.
    + now rewrite Hpid.
    + rewrite Hz. unfold completion. rewrite cell_modify_same. cbn.
      repeat split; auto.
      unfold pending. cbn.
      apply (Permutation_app_tail (ready_queue s)
               (remove_first_perm selected (remaining_processes s) Hin)).
  - apply astep_run with (r := selected) (e := e); cbn; auto;
      rewrite ?cell_modify_same; cbn; auto.
    + repeat split; cbn; auto.
    + lia.
    + intros a Ha. rewrite !cell_modify_other by auto. now apply Hoth.
    + now rewrite Hpid.
    + rewrite Hz. split; auto.
Qed.

Lemma available_in h now l x :
  In x (filter (arrived h now) l) -> In x l /\ arrival h x <= now.
Proof.
  intros Hx. apply filter_In in Hx. destruct Hx as [Hin Ha].
  unfold arrived in Ha. apply Z.leb_le in Ha. auto.
Qed.

Lemma sjf_np_body_astep np s :
  has_remaining s = true -> astep np s (sjf_np_body s).
Proof.
  intros Hc. unfold has_remaining in Hc. unfold sjf_np_body.
  destruct (filter _ (remaining_processes s)) as [|first others] eqn:Hav.
  - apply idle_until_next_arrival_astep; auto.
    intros Hnil. rewrite Hnil in Hc. discriminate.
  - set (selected := min_by _ first others).
    assert (Hin : In selected (remaining_processes s)).
    { pose proof (min_by_in (fun p => burst_time (cell (st_heap s) p)) first others) as Hm.
      fold selected in Hm. rewrite <- Hav in Hm.
      now apply available_in in Hm. }
    destruct (mark_start_same (st_heap s) selected (current_time s))
      as ((Hpid & Harr & Hburst & Hprio) & Hrem & Hnext).
    unfold execute. cbn.
    apply astep_run with (r := selected)
                         (e := remaining_time (cell (st_heap s) selected));
      cbn; rewrite ?cell_modify_same; cbn; auto.
    + apply in_or_app. now left.
    + repeat split; cbn; auto.
    + lia.
    + intros a Ha. rewrite !cell_modify_other by auto.
      now apply cell_mark_start_other.
    + now rewrite Hpid, Hrem.
    + now rewrite Hrem.
    + unfold completion. rewrite cell_modify_same. cbn.
      rewrite Hrem. repeat split; auto.
      unfold pending. cbn.
      apply (Permutation_app_tail (ready_queue s)
               (remove_first_perm selected (remaining_processes s) Hin)).
Qed.

Lemma next_event_later h now l :
  match next_event h now l with Some n => now < n | None => True end.
Proof.
  unfold next_event.
  assert (Hgen : forall acc,
            match acc with Some n => now < n | None => True end ->
            match fold_left
                    (fun next_event_time p =>
                       let a := arrival_time (cell h p) in
                       if (a >? now) &&
                          match next_event_time with
                          | None => true
                          | Some n => a <? n
                          end
                       then Some a else next_event_time) l acc
            with Some n => now < n | None => True end).
  { induction l as [|x l IH]; cbn; intros acc Hacc; auto.
    apply IH.
    destruct (Z.gtb_spec (arrival_time (cell h x)) now); cbn; auto.
    destruct acc; auto. destruct (_ <? _); auto. }
  now apply Hgen.
Qed.

Lemma preemptive_slice_cases h s selected :
  preemptive_slice h s selected = remaining_time (cell h selected) \/
  0 < preemptive_slice h s selected < remaining_time (cell h selected).
Proof.
  unfold preemptive_slice.
  pose proof (next_event_later h (current_time s) (remaining_processes s)) as Hn.
  destruct (next_event _ _ _) as [n|]; auto. lia.
Qed.

(** The heap a dispatch starts from: [mark_start] applied or not. *)
Lemma dispatch_heap h selected now (b : bool) :
  let h1 := if b then h else mark_start h selected now in
  (forall a, a <> selected -> cell h1 a = cell h a) /\
  static_eq (cell h selected) (cell h1 selected) /\
  remaining_time (cell h1 selected) = remaining_time (cell h selected) /\
  next_ref h1 = next_ref h.
Proof.
  destruct b; cbn.
  - repeat split.
  - destruct (mark_start_same h selected now) as (H1 & H2 & H3).
    repeat split; auto; try apply H1.
    intros a Ha. now apply cell_mark_start_other.
Qed.

Lemma sjf_p_body_astep s :
  has_remaining s = true -> astep false s (sjf_p_body s).
Proof.
  intros Hc. unfold has_remaining in Hc. unfold sjf_p_body.
  destruct (filter _ (remaining_processes s)) as [|first others] eqn:Hav.
  - apply idle_until_next_arrival_astep; auto.
    intros Hnil. rewrite Hnil in Hc. discriminate.
  - set (selected := min_by _ first others).
    assert (Hin : In selected (remaining_processes s)).
    { pose proof (min_by_in (fun p => remaining_time (cell (st_heap s) p)) first others) as Hm.
      fold selected in Hm. rewrite <- Hav in Hm.
      now apply available_in in Hm. }
    destruct (dispatch_heap (st_heap s) selected (current_time s)
                (same_process (current_process s) selected))
      as (Hoth & Hst & Hrem & Hnext).
    apply run_selected_astep; auto.
    rewrite <- Hrem.
    destruct (preemptive_slice_cases
                (if same_process (current_process s) selected
                 then st_heap s
                 else mark_start (st_heap s) selected (current_time s))
                s selected) as [He | He]; auto.
Qed.

Lemma priority_body_astep preemptive s :
  has_remaining s = true ->
  astep (negb preemptive) s (priority_body preemptive s).
Proof.
  intros Hc. unfold has_remaining in Hc. unfold priority_body.
  destruct (filter _ (remaining_processes s)) as [|first others] eqn:Hav.
  - apply idle_until_next_arrival_astep; auto.
    intros Hnil. rewrite Hnil in Hc. discriminate.
  - set (best := min_by _ first others).
    set (selected := match current_process s with
                     | Some c => if negb preemptive && existsb (Nat.eqb c) (first :: others)
                                 then c else best
                     | None => best
                     end).
    assert (Hbest : In best (first :: others)) by apply min_by_in.
    assert (Hsel : In selected (first :: others)).
    { subst selected. destruct (current_process s) as [c|]; auto.
      destruct (negb preemptive); cbn [andb]; auto.
      destruct (existsb (Nat.eqb c) (first :: others)) eqn:Hex; auto.
      apply existsb_exists in Hex. destruct Hex as (x & Hx & Hcx).
      apply Nat.eqb_eq in Hcx. now subst. }
    assert (Hin : In selected (remaining_processes s)).
    { rewrite <- Hav in Hsel. now apply available_in in Hsel. }
    destruct (dispatch_heap (st_heap s) selected (current_time s)
                (same_process (current_process s) selected))
      as (Hoth & Hst & Hrem & Hnext).
    apply run_selected_astep; auto.
    rewrite <- Hrem.
    destruct preemptive; cbn; auto.
    destruct (preemptive_slice_cases
                (if same_process (current_process s) selected
                 then st_heap s
                 else mark_start (st_heap s) selected (current_time s))
                s selected) as [He | He]; auto.
Qed.

Lemma enqueue_arrived_spec h now remaining : forall queue remaining' queue',
  enqueue_arrived h now remaining queue = (remaining', queue') ->
  exists moved,
    remaining = moved ++ remaining' /\ queue' = queue ++ moved /\
    Forall (fun r => arrival h r <= now) moved /\
    match remaining' with r :: _ => now < arrival h r | [] => True end.
Proof.
  induction remaining as [|r rest IH]; cbn; intros queue remaining' queue' Ha.
  - inversion Ha; subst. exists []. rewrite !app_nil_r. repeat split; auto.
  - destruct (Z.leb_spec (arrival h r) now) as [Hle | Hgt].
    + destruct (IH _ _ _ Ha) as (moved & -> & -> & Hall & Hhd).
      exists (r :: moved). rewrite <- app_assoc. repeat split; auto.
    + inversion Ha; subst. exists []. rewrite !app_nil_r. repeat split; auto.
Qed.

Lemma enqueue_arrived_perm h now remaining queue remaining' queue' :
  enqueue_arrived h now remaining queue = (remaining', queue') ->
  Permutation (remaining ++ queue) (remaining' ++ queue').
Proof.
  intros Ha. destruct (enqueue_arrived_spec _ _ _ _ _ _ Ha) as (moved & -> & -> & _).
  rewrite <- app_assoc, (app_assoc remaining').
  apply Permutation_app_comm.
Qed.

Lemma rr_body_astep q s :
  0 < q -> rr_pending s = true -> astep false s (rr_body q s).
Proof.
  intros Hq Hc. unfold rr_body.
  destruct (enqueue_arrived (st_heap s) (current_time s) (remaining_processes s) (ready_queue s))
    as [remaining queue] eqn:Ha.
  pose proof (enqueue_arrived_perm _ _ _ _ _ _ Ha) as Hperm.
  destruct (enqueue_arrived_spec _ _ _ _ _ _ Ha) as (moved & Hrem & Hqueue & _ & Hhd).
  destruct queue as [|process queue1].
  - assert (ready_queue s = [] /\ moved = []) as [Hq0 ->].
    { destruct (ready_queue s); [|discriminate].
      destruct moved; [auto | discriminate]. }
    cbn in Hrem.
    destruct remaining as [|r rest].
    + unfold rr_pending in Hc. rewrite Hq0, Hrem in Hc. discriminate.
    + assert (Hlt : (current_time s <? arrival (st_heap s) r) = true)
        by now apply Z.ltb_lt.
      apply astep_idle with (r := r); cbn; auto.
      all: try (unfold pending; cbn; rewrite ?Hlt, ?Hrem, ?Hq0; cbn; now auto).
  - set (h := st_heap s) in *.
    set (h1 := mark_start h process (current_time s)).
    destruct (dispatch_heap h process (current_time s) false)
      as (Hoth & (Hpid & Harr & Hburst & Hprio) & Hrm & Hnext).
    fold h1 in Hoth, Hpid, Harr, Hburst, Hprio, Hrm, Hnext.
    set (e := Z.min q (remaining_time (cell h1 process))).
    rewrite cell_modify_same. cbn.
    destruct (enqueue_arrived (modify h1 process _) (current_time s + e) remaining queue1)
      as [remaining2 queue2] eqn:Ha2.
    pose proof (enqueue_arrived_perm _ _ _ _ _ _ Ha2) as Hperm2.
    assert (Hin : In process (pending s)).
    { unfold pending. eapply Permutation_in; [symmetry; exact Hperm|].
      apply in_or_app. right. now left. }
    assert (Hp : Permutation (pending s) (process :: remaining2 ++ queue2)).
    { unfold pending. rewrite Hperm. rewrite <- Hperm2.
      symmetry. apply Permutation_middle. }
    destruct (Z.gtb_spec (remaining_time (cell h1 process) - e) 0) as [Hpos | Hzero].
    + apply astep_run with (r := process) (e := e); cbn; auto;
        rewrite ?cell_modify_same; cbn; auto.
      * fold h. rewrite <- Hrm. right. split; auto. unfold e in *. lia.
      * repeat split; cbn; auto.
      * fold h. lia.
      * intros a Hne. rewrite cell_modify_other by auto. now apply Hoth.
      * fold h. now rewrite Hpid.
      * destruct (Z.eqb_spec (remaining_time (cell h1 process) - e) 0); [lia|].
        split; auto.
        rewrite Hp, app_assoc. apply Permutation_cons_append.
    + assert (Hz : remaining_time (cell h1 process) - e = 0) by (unfold e in *; lia).
      apply astep_run with (r := process) (e := e); cbn; auto;
        rewrite ?cell_modify_same; cbn; auto.
      * fold h. left. lia.
      * repeat split; cbn; auto.
      * fold h. lia.
      * intros a Hne. rewrite !cell_modify_other by auto. now apply Hoth.
      * fold h. now rewrite Hpid.
      * rewrite Hz. cbn. unfold completion. rewrite cell_modify_same. cbn.
        repeat split; auto.
Qed.

(** One iteration of the [for] loop of [fcfs], when the gap before the
    process (if any) is one the loop records. *)
Lemma fcfs_step_steps np s0 h now tl r l comp :
  steps np s0 (mkState h now tl (r :: l) [] comp None) ->
  0 < now \/ arrival h r <= now ->
  exists h' tl',
    fcfs_step (h, now, tl) r =
      (h', Z.max now (arrival h r) + remaining_time (cell h r), tl') /\
    steps np s0 (mkState h' (Z.max now (arrival h r) + remaining_time (cell h r))
                         tl' l [] (comp ++ [r]) None) /\
    (forall a, a <> r -> cell h' a = cell h a).
Proof.
  intros Hs Hgap. unfold fcfs_step.
  set (a := arrival h r).
  set (now1 := if now <? a then a else now).
  set (tl1 := if now <? a then (if now >? 0 then tl ++ [idle_segment now a] else tl)
              else tl).
  assert (Hnow1 : now1 = Z.max now a).
  { subst now1. destruct (Z.ltb_spec now a); lia. }
  assert (Hmid : steps np s0 (mkState h now1 tl1 (r :: l) [] comp None)).
  { subst now1 tl1. destruct (Z.ltb_spec now a) as [Hlt | Hge]; auto.
    destruct (Z.gtb_spec now 0) as [Hpos | Hnp]; [|lia].
    eapply steps_snoc; [exact Hs|].
    apply astep_idle with (r := r); cbn; auto; now left. }
  destruct (mark_start_same h r now1)
    as ((Hpid & Harr & Hburst & Hprio) & Hrem & Hnext).
  unfold execute. cbn. rewrite cell_modify_same. cbn.
  rewrite Hrem, <- Hnow1. fold now1.
  eexists _, _. split; [reflexivity|]. split.
  - eapply steps_snoc; [exact Hmid|].
    apply astep_run with (r := r) (e := remaining_time (cell h r));
      cbn; rewrite ?cell_modify_same; cbn; auto.
    + repeat split; cbn; auto.
    + lia.
    + intros x Hx. rewrite !cell_modify_other by auto.
      now apply cell_mark_start_other.
    + now rewrite Hpid.
    + unfold completion. rewrite cell_modify_same. cbn. repeat split; auto.
  - intros x Hx. rewrite !cell_modify_other by auto.
    now apply cell_mark_start_other.
Qed.

Lemma fcfs_fold_steps np s0 l : forall h now tl comp,
  NoDup l ->
  (forall r, In r l -> 0 < remaining_time (cell h r) /\ 0 <= arrival h r) ->
  match l with r :: _ => 0 < now \/ arrival h r <= now | [] => True end ->
  steps np s0 (mkState h now tl l [] comp None) ->
  exists h' now' tl',
    fold_left fcfs_step l (h, now, tl) = (h', now', tl') /\
    steps np s0 (mkState h' now' tl' [] [] (comp ++ l) None).
Proof.
  induction l as [|r l IH]; intros h now tl comp Hnd Hvalid Hgap Hs.
  - cbn. rewrite app_nil_r. eauto.
  - destruct (fcfs_step_steps _ _ _ _ _ _ _ _ Hs Hgap) as (h' & tl' & Heq & Hs' & Hoth).
    cbn [fold_left]. rewrite Heq.
    inversion Hnd as [|? ? Hnotin Hnd']; subst.
    destruct (Hvalid r (or_introl eq_refl)) as [Hrpos Hrarr].
    assert (Hkeep : forall x, In x l -> cell h' x = cell h x).
    { intros x Hx. apply Hoth. intros ->. contradiction. }
    destruct (IH h' (Z.max now (arrival h r) + remaining_time (cell h r)) tl'
                 (comp ++ [r]) Hnd') as (h2 & now2 & tl2 & Hfold & Hs2); auto.
    + intros x Hx. unfold arrival. rewrite (Hkeep x Hx). apply Hvalid. now right.
    + destruct l; auto. left. lia.
    + rewrite <- app_assoc in Hs2. cbn in Hs2. eauto.
Qed.

(** ** The runs of the five algorithms *)

Lemma prepare h processes h0 copies :
  copy_processes h processes = (h0, copies) ->
  prepared h processes h0 (sort_by (arrival h0) copies).
Proof.
  intros Hc.
  destruct (copy_processes_spec _ _ _ _ Hc) as (Hl & Hn & Hkeep & Hval).
  pose proof (sort_by_perm (arrival h0) copies) as Hperm.
  constructor; auto.
  - eapply Permutation_NoDup; [symmetry; exact Hperm|].
    rewrite Hl. apply seq_NoDup.
  - intros r Hr. eapply Permutation_in in Hr; [|exact Hperm].
    rewrite Hl in Hr. apply in_seq in Hr. lia.
  - apply sort_by_sorted.
  - intros Hall. rewrite <- (Hval Hall). unfold records.
    now apply Permutation_map.
Qed.

Lemma prepared_source h processes h0 sorted :
  prepared h processes h0 sorted -> allocated h processes ->
  forall r, In r sorted ->
  exists p, In p processes /\ cell h0 r = fresh_copy (cell h p).
Proof.
  intros Hp Hall r Hr.
  assert (Hin : In (cell h0 r) (records h0 sorted)) by now apply in_map.
  eapply Permutation_in in Hin; [|apply (prep_records _ _ _ _ Hp Hall)].
  apply in_map_iff in Hin. destruct Hin as (p & Heq & Hp'). eauto.
Qed.

Lemma prepared_length h processes h0 sorted :
  prepared h processes h0 sorted -> allocated h processes ->
  length sorted = length processes.
Proof.
  intros Hp Hall.
  pose proof (Permutation_length (prep_records _ _ _ _ Hp Hall)) as Hlen.
  unfold records in Hlen. now rewrite !length_map in Hlen.
Qed.

Lemma prepared_work h processes h0 sorted :
  prepared h processes h0 sorted -> allocated h processes ->
  work h0 sorted =
  list_sum (map (fun r => Z.to_nat (Z.max 1 (burst_time (cell h r)))) processes).
Proof.
  intros Hp Hall. unfold work.
  assert (Hw : map (weight h0) sorted =
               map (fun p => Z.to_nat (Z.max 1 (remaining_time p))) (records h0 sorted)).
  { unfold records. now rewrite map_map. }
  rewrite Hw.
  assert (Hperm := Permutation_map (fun p => Z.to_nat (Z.max 1 (remaining_time p)))
                     (prep_records _ _ _ _ Hp Hall)).
  rewrite map_map in Hperm. cbn in Hperm.
  clear Hw. revert Hperm.
  generalize (map (fun p => Z.to_nat (Z.max 1 (remaining_time p))) (records h0 sorted)).
  generalize (map (fun r => Z.to_nat (Z.max 1 (burst_time (cell h r)))) processes).
  intros l1 l2 Hperm. induction Hperm; simpl; lia.
Qed.

Lemma pending_start alg h0 sorted : pending (start_state alg h0 sorted) = sorted.
Proof. unfold pending, start_state. cbn. apply app_nil_r. Qed.

Lemma measure_start alg h processes h0 sorted :
  prepared h processes h0 sorted -> allocated h processes ->
  (measure (start_state alg h0 sorted) <= fuel_for h processes)%nat.
Proof.
  intros Hp Hall. unfold measure, fuel_for. rewrite pending_start.
  change (st_heap (start_state alg h0 sorted)) with h0.
  rewrite (prepared_work _ _ _ _ Hp Hall).
  rewrite <- (prepared_length _ _ _ _ Hp Hall).
  assert (unarrived h0 (current_time (start_state alg h0 sorted)) sorted
          <= length sorted)%nat
    by apply filter_length_le.
  lia.
Qed.

Lemma ready_queue_idle s : ready_queue (idle_until_next_arrival s) = ready_queue s.
Proof. reflexivity. Qed.

Lemma ready_queue_run_selected s h selected e :
  ready_queue (run_selected s h selected e) = ready_queue s.
Proof. unfold run_selected. now destruct (_ =? 0). Qed.

Lemma ready_queue_sjf_np s : ready_queue (sjf_np_body s) = ready_queue s.
Proof. unfold sjf_np_body. now destruct (filter _ _). Qed.

Lemma ready_queue_sjf_p s : ready_queue (sjf_p_body s) = ready_queue s.
Proof.
  unfold sjf_p_body. destruct (filter _ _); auto using ready_queue_run_selected.
Qed.

Lemma ready_queue_priority b s : ready_queue (priority_body b s) = ready_queue s.
Proof.
  unfold priority_body. destruct (filter _ _); auto using ready_queue_run_selected.
Qed.

Lemma has_remaining_false s :
  has_remaining s = false -> ready_queue s = [] -> pending s = [].
Proof.
  unfold has_remaining, pending. destruct (remaining_processes s); [|discriminate].
  now intros _ ->.
Qed.

Lemma rr_pending_false s : rr_pending s = false -> pending s = [].
Proof.
  unfold rr_pending, pending.
  destruct (remaining_processes s), (ready_queue s); now try discriminate.
Qed.

(** Every loop-based algorithm returns, on any input, once it is given the
    fuel [fuel_for] computes, and its run is a sequence of abstract steps. *)
Lemma loops_run alg h processes h0 copies fuel :
  alg <> FCFS ->
  copy_processes h processes = (h0, copies) ->
  allocated h processes -> quantum_ok alg ->
  (fuel_for h processes <= fuel)%nat ->
  exists sf,
    schedule alg fuel h processes = Returned (run_of sf) /\
    steps (non_preemptive alg)
          (start_state alg h0 (sort_by (arrival h0) copies)) sf /\
    pending sf = [].
Proof.
  intros Hnf Hc Hall Hq Hfuel.
  pose proof (prepare _ _ _ _ Hc) as Hp.
  set (sorted := sort_by (arrival h0) copies) in *.
  assert (Hm := measure_start alg _ _ _ _ Hp Hall).
  assert (Hnd : NoDup (pending (start_state alg h0 sorted)))
    by (rewrite pending_start; apply (prep_nodup _ _ _ _ Hp)).
  destruct alg as [| | |b|q]; [congruence| | | |]; unfold schedule.
  - unfold sjf_non_preemptive. rewrite Hc. fold sorted.
    destruct (while_steps true has_remaining sjf_np_body
                (fun s => ready_queue s = []) (start_state SJF_NP h0 sorted))
      with (fuel := fuel) as (sf & Hw & Hs & HJ & Hcond); auto; try lia.
    + intros s _ HJ Hcs. split; [now apply sjf_np_body_astep|].
      now rewrite ready_queue_sjf_np.
    + exists sf. change (init_state h0 sorted) with (start_state SJF_NP h0 sorted).
      rewrite Hw. repeat split; auto. now apply has_remaining_false.
  - unfold sjf_preemptive. rewrite Hc. fold sorted.
    destruct (while_steps false has_remaining sjf_p_body
                (fun s => ready_queue s = []) (start_state SJF_P h0 sorted))
      with (fuel := fuel) as (sf & Hw & Hs & HJ & Hcond); auto; try lia.
    + intros s _ HJ Hcs. split; [now apply sjf_p_body_astep|].
      now rewrite ready_queue_sjf_p.
    + exists sf. change (init_state h0 sorted) with (start_state SJF_P h0 sorted).
      rewrite Hw. repeat split; auto. now apply has_remaining_false.
  - unfold priority_scheduling. rewrite Hc. fold sorted.
    destruct (while_steps (negb b) has_remaining (priority_body b)
                (fun s => ready_queue s = []) (start_state (PRIORITY b) h0 sorted))
      with (fuel := fuel) as (sf & Hw & Hs & HJ & Hcond); auto; try lia.
    + intros s _ HJ Hcs. split; [now apply priority_body_astep|].
      now rewrite ready_queue_priority.
    + exists sf. change (init_state h0 sorted) with (start_state (PRIORITY b) h0 sorted).
      rewrite Hw. repeat split; auto. now apply has_remaining_false.
  - unfold round_robin. rewrite Hc. fold sorted.
    destruct (while_steps false rr_pending (rr_body q)
                (fun _ => True) (start_state (RR q) h0 sorted))
      with (fuel := fuel) as (sf & Hw & Hs & _ & Hcond); auto; try lia.
    + intros s _ _ Hcs. split; [now apply rr_body_astep | exact I].
    + exists sf. change (rr_init h0 sorted) with (start_state (RR q) h0 sorted).
      rewrite Hw. repeat split; auto. now apply rr_pending_false.
Qed.

Lemma fcfs_step_origin h tl r :
  0 <= arrival h r -> fcfs_step (h, 0, tl) r = fcfs_step (h, arrival h r, tl) r.
Proof.
  intros Ha. unfold fcfs_step.
  rewrite (Z.ltb_irrefl (arrival h r)). cbn [Z.gtb Z.compare].
  destruct (Z.ltb_spec 0 (arrival h r)) as [Hlt | Hle]; auto.
  replace (arrival h r) with 0 by lia. reflexivity.
Qed.

Lemma fcfs_run h processes h0 copies fuel :
  copy_processes h processes = (h0, copies) ->
  allocated h processes -> valid_input h processes ->
  exists sf,
    schedule FCFS fuel h processes = Returned (run_of sf) /\
    steps true (start_state FCFS h0 (sort_by (arrival h0) copies)) sf /\
    pending sf = [].
Proof.
  intros Hc Hall Hvalid.
  pose proof (prepare _ _ _ _ Hc) as Hp.
  set (sorted := sort_by (arrival h0) copies) in *.
  assert (Hv0 : forall r, In r sorted ->
                  0 < remaining_time (cell h0 r) /\ 0 <= arrival h0 r).
  { intros r Hr.
    destruct (prepared_source _ _ _ _ Hp Hall r Hr) as (p & Hin & Heq).
    unfold valid_input in Hvalid. rewrite Forall_forall in Hvalid.
    unfold arrival. rewrite Heq. cbn. now apply Hvalid. }
  unfold schedule, fcfs. rewrite Hc. fold sorted.
  destruct (fcfs_fold_steps true (start_state FCFS h0 sorted) sorted h0
              (origin FCFS h0 sorted) [] [])
    as (h' & now' & tl' & Hfold & Hs); auto.
  - apply (prep_nodup _ _ _ _ Hp).
  - cbn. destruct sorted; auto. right. lia.
  - constructor.
  - assert (Hsame : fold_left fcfs_step sorted (h0, 0, []) = (h', now', tl')).
    { rewrite <- Hfold. cbn. destruct sorted as [|r l] eqn:Hsorted; auto.
      cbn [fold_left]. rewrite fcfs_step_origin; auto.
      apply Hv0. now left. }
    rewrite Hsame. eexists. split; [|split; [exact Hs|]]; reflexivity.
Qed.

(** On a valid input every algorithm returns, and its run is a sequence of
    abstract steps that empties the pending list. *)
Lemma schedule_run alg h processes h0 copies fuel :
  copy_processes h processes = (h0, copies) ->
  allocated h processes -> valid_input h processes -> quantum_ok alg ->
  (fuel_for h processes <= fuel)%nat ->
  exists sf,
    schedule alg fuel h processes = Returned (run_of sf) /\
    steps (non_preemptive alg)
          (start_state alg h0 (sort_by (arrival h0) copies)) sf /\
    pending sf = [].
Proof.
  intros Hc Hall Hvalid Hq Hfuel.
  destruct alg as [| | |b|q] eqn:Ha;
    try (apply loops_run; auto; discriminate).
  now apply fcfs_run.
Qed.

Lemma valid_run alg h processes fuel :
  allocated h processes -> valid_input h processes -> quantum_ok alg ->
  (fuel_for h processes <= fuel)%nat ->
  exists h0 copies sorted sf,
    copy_processes h processes = (h0, copies) /\
    sorted = sort_by (arrival h0) copies /\
    prepared h processes h0 sorted /\
    schedule alg fuel h processes = Returned (run_of sf) /\
    steps (non_preemptive alg) (start_state alg h0 sorted) sf /\
    pending sf = [] /\
    wf (start_state alg h0 sorted) sf /\
    sound (start_state alg h0 sorted) sf.
Proof.
  intros Hall Hvalid Hq Hfuel.
  destruct (copy_processes h processes) as [h0 copies] eqn:Hc.
  pose proof (prepare _ _ _ _ Hc) as Hp.
  destruct (schedule_run alg _ _ _ _ fuel Hc Hall Hvalid Hq Hfuel)
    as (sf & Hret & Hs & Hpend).
  set (sorted := sort_by (arrival h0) copies) in *.
  assert (Hnd : NoDup (pending (start_state alg h0 sorted)))
    by (rewrite pending_start; apply (prep_nodup _ _ _ _ Hp)).
  assert (Hwf : wf (start_state alg h0 sorted) sf) by (eapply wf_steps; eauto).
  assert (Hsound : sound (start_state alg h0 sorted) sf).
  { eapply sound_steps; eauto.
    rewrite pending_start. intros r Hr.
    destruct (prepared_source _ _ _ _ Hp Hall r Hr) as (p & Hin & Heq).
    unfold valid_input in Hvalid. rewrite Forall_forall in Hvalid.
    change (st_heap (start_state alg h0 sorted)) with h0.
    rewrite Heq. cbn. now apply Hvalid. }
  exists h0, copies, sorted, sf.
  split; [reflexivity|]. split; [reflexivity|].
  exact (conj Hp (conj Hret (conj Hs (conj Hpend (conj Hwf Hsound))))).
Qed.

Lemma fold_max_ge (l : list Z) : forall a,
  a <= fold_left Z.max l a /\ (forall x, In x l -> x <= fold_left Z.max l a) /\
  (fold_left Z.max l a = a \/ In (fold_left Z.max l a) l).
Proof.
  induction l as [|y l IH]; simpl; intros a.
  - repeat split; auto; try lia; easy.
  - destruct (IH (Z.max a y)) as (H1 & H2 & H3). repeat split.
    + lia.
    + intros x [<- | Hx]; [lia | auto].
    + destruct H3 as [H3 | H3]; auto.
      rewrite H3. destruct (Z.max_spec a y) as [[_ ->] | [_ ->]]; auto.
Qed.

Lemma max_completion_eq h l t :
  (forall x, In x l -> completion h x <= t) ->
  (exists x, In x l /\ completion h x = t) ->
  max_completion h l = t.
Proof.
  intros Hle (x0 & Hx0 & Hx0t).
  destruct l as [|r rest]; [easy|]. unfold max_completion.
  fold (completion h r).
  destruct (fold_max_ge (map (fun x => completion_time (cell h x)) rest) (completion h r))
    as (H1 & H2 & H3).
  set (m := fold_left Z.max _ _) in *.
  assert (Hm : m <= t).
  { destruct H3 as [-> | H3]; [apply Hle; now left|].
    apply in_map_iff in H3. destruct H3 as (x & <- & Hx).
    apply (Hle x). now right. }
  assert (t <= m); [|lia].
  destruct Hx0 as [<- | Hx0]; [lia|].
  rewrite <- Hx0t. apply H2. apply in_map_iff. now exists x0.
Qed.

Lemma min_arrival_eq h l m :
  (exists r, In r l /\ arrival h r = m) ->
  (forall x, In x l -> m <= arrival h x) ->
  min_arrival h l = m.
Proof.
  intros (r & Hr & Hrm) Hle.
  assert (Hne : l <> []) by (intros ->; contradiction).
  destruct (min_arrival_spec h l Hne) as ((r' & Hr' & Hm') & Hlow).
  specialize (Hlow r Hr). specialize (Hle r' Hr'). lia.
Qed.

Lemma origin_is_min alg h0 sorted hf l :
  StronglySorted (key_le (arrival h0)) sorted ->
  Permutation l sorted -> sorted <> [] ->
  (forall a, arrival hf a = arrival h0 a) ->
  clock_origin alg hf l = origin alg h0 sorted.
Proof.
  intros Hs Hperm Hne Harr.
  assert (Hmin : min_arrival hf l =
                 match sorted with r :: _ => arrival h0 r | [] => 0 end).
  { destruct sorted as [|r rest]; [easy|].
    inversion Hs as [|? ? _ Hall]; subst.
    apply min_arrival_eq.
    - exists r. split; [|apply Harr].
      eapply Permutation_in; [symmetry; exact Hperm|]. now left.
    - intros x Hx. rewrite !Harr.
      eapply Permutation_in in Hx; [|exact Hperm].
      destruct Hx as [<- | Hx]; [lia|].
      rewrite Forall_forall in Hall. apply (Hall x Hx). }
  destruct alg; cbn; auto.
Qed.

Lemma wf_arrival s0 s : wf s0 s ->
  forall a, arrival (st_heap s) a = arrival (st_heap s0) a.
Proof.
  intros Hwf a. destruct (wf_static _ _ Hwf a) as (_ & Ha & _).
  unfold arrival. now rewrite Ha.
Qed.

(** * The claims *)

(** ** C1: the span of the timeline *)

(** C1, counterexample: [sjf_non_preemptive] on one process arriving at
    time 1 with burst 1 emits an idle entry from 0 to 1 before the process, so
    the durations add up to 2 while max completion minus min arrival is 1. *)
Lemma C1_counterexample :
  valid_input late_process [0%nat] /\
  exists r,
    sjf_non_preemptive 2 late_process [0%nat] = Returned r /\
    res_timeline r = [idle_segment 0 1; run_segment 1 1 1] /\
    total_duration (res_timeline r) = 2 /\
    max_completion (res_heap r) (res_processes r) -
      min_arrival (res_heap r) (res_processes r) = 1.
Proof.
  split.
  - repeat (constructor; cbn; try lia).
  - eexists. split; [reflexivity|]. now vm_compute.
Qed.

(** C1, as the code has it: on every non-empty valid input every algorithm returns, and
    the durations of all timeline entries, idle ones included, add up to the
    largest completion time minus the instant the timeline starts at: the
    smallest arrival time for [fcfs] and [round_robin], and 0 for
    [sjf_non_preemptive], [sjf_preemptive] and [priority_scheduling]. *)
Theorem C1_timeline_span alg h processes fuel :
  processes <> [] ->
  allocated h processes -> valid_input h processes -> quantum_ok alg ->
  (fuel_for h processes <= fuel)%nat ->
  exists r,
    schedule alg fuel h processes = Returned r /\
    total_duration (res_timeline r) =
      max_completion (res_heap r) (res_processes r) -
      clock_origin alg (res_heap r) (res_processes r).
Proof.
  intros Hne Hall Hvalid Hq Hfuel.
  destruct (valid_run alg h processes fuel Hall Hvalid Hq Hfuel)
    as (h0 & copies & sorted & sf & Hc & Hsorted & Hp & Hret & Hs & Hpend & Hwf & Hsound).
  exists (run_of sf). split; [exact Hret|]. cbn.
  pose proof (wf_perm _ _ Hwf) as Hperm.
  rewrite Hpend, pending_start in Hperm. cbn in Hperm.
  assert (Hsne : sorted <> []).
  { intros Hnil. pose proof (prepared_length _ _ _ _ Hp Hall) as Hlen.
    rewrite Hnil in Hlen. destruct processes; [congruence | discriminate]. }
  assert (Hcne : completed_processes sf <> []).
  { intros Hnil. rewrite Hnil in Hperm. apply Permutation_nil in Hperm. congruence. }
  destruct (exists_last Hcne) as (l & r & Hlast).
  rewrite (max_completion_eq (st_heap sf) (completed_processes sf) (current_time sf)).
  - rewrite (origin_is_min alg h0 sorted); auto.
    + apply (snd_clock _ _ Hsound).
    + apply (prep_sorted _ _ _ _ Hp).
    + apply (wf_arrival _ _ Hwf).
  - intros x Hx. now apply (snd_done _ _ Hsound).
  - exists r. split.
    + rewrite Hlast. apply in_or_app. right. now left.
    + eapply (snd_last _ _ Hsound); eauto.
Qed.

Lemma C1_timeline_span_witness :
  exists r,
    schedule SJF_P 74 two_processes [0; 1]%nat = Returned r /\
    total_duration (res_timeline r) =
      max_completion (res_heap r) (res_processes r) -
      clock_origin SJF_P (res_heap r) (res_processes r).
Proof.
  apply (C1_timeline_span SJF_P two_processes [0; 1]%nat 74).
  - discriminate.
  - repeat constructor.
  - repeat (constructor; cbn; try lia).
  - exact I.
  - vm_compute. apply le_n.
Defined.

(** ** C6: every burst is on the timeline *)

Lemma prepared_target h processes h0 sorted :
  prepared h processes h0 sorted -> allocated h processes ->
  forall p, In p processes ->
  exists r, In r sorted /\ cell h0 r = fresh_copy (cell h p).
Proof.
  intros Hp Hall p Hin.
  assert (Hin' : In (fresh_copy (cell h p))
                    (map (fun r => fresh_copy (cell h r)) processes)).
  { apply in_map_iff. now exists p. }
  eapply Permutation_in in Hin'; [|symmetry; apply (prep_records _ _ _ _ Hp Hall)].
  apply in_map_iff in Hin'. destruct Hin' as (r & Heq & Hr). eauto.
Qed.

Lemma prepared_unique_pids h processes h0 sorted :
  prepared h processes h0 sorted -> allocated h processes ->
  unique_pids h processes -> unique_pids h0 sorted.
Proof.
  intros Hp Hall Hu. unfold unique_pids in *.
  pose proof (Permutation_map pid (prep_records _ _ _ _ Hp Hall)) as Hperm.
  unfold records in Hperm. rewrite !map_map in Hperm. cbn in Hperm.
  eapply Permutation_NoDup; [symmetry; exact Hperm | exact Hu].
Qed.

Lemma prepared_fresh_remaining h processes h0 sorted :
  prepared h processes h0 sorted -> allocated h processes ->
  forall r, In r sorted ->
  remaining_time (cell h0 r) = burst_time (cell h0 r).
Proof.
  intros Hp Hall r Hr.
  destruct (prepared_source _ _ _ _ Hp Hall r Hr) as (p & _ & ->). reflexivity.
Qed.

(** C6: on every valid input with distinct process ids every algorithm
    returns, and for each process the durations of the timeline entries
    carrying its id add up to its [burst_time]; under [fcfs],
    [sjf_non_preemptive] and non-preemptive [priority_scheduling] there is
    exactly one such entry, as long as the burst. *)
Theorem C6_burst_on_timeline alg h processes fuel :
  allocated h processes -> valid_input h processes ->
  unique_pids h processes -> quantum_ok alg ->
  (fuel_for h processes <= fuel)%nat ->
  exists r,
    schedule alg fuel h processes = Returned r /\
    forall p, In p processes ->
      busy_time (pid (cell h p)) (res_timeline r) = burst_time (cell h p) /\
      (non_preemptive alg = true ->
       exists g, segments_of (pid (cell h p)) (res_timeline r) = [g] /\
                 seg_duration g = burst_time (cell h p)).
Proof.
  intros Hall Hvalid Hu Hq Hfuel.
  destruct (valid_run alg h processes fuel Hall Hvalid Hq Hfuel)
    as (h0 & copies & sorted & sf & Hc & Hsorted & Hp & Hret & Hs & Hpend & Hwf & Hsound).
  exists (run_of sf). split; [exact Hret|]. cbn.
  set (s0 := start_state alg h0 sorted) in *.
  assert (Hnd : NoDup (pending s0))
    by (unfold s0; rewrite pending_start; apply (prep_nodup _ _ _ _ Hp)).
  assert (Hu0 : unique_pids (st_heap s0) (pending s0))
    by (unfold s0; rewrite pending_start; eapply prepared_unique_pids; eauto).
  assert (Hfresh : forall r, In r (pending s0) ->
            remaining_time (cell (st_heap s0) r) = burst_time (cell (st_heap s0) r)).
  { unfold s0. rewrite pending_start. now apply (prepared_fresh_remaining h processes). }
  pose proof (wf_perm _ _ Hwf) as Hperm.
  rewrite Hpend in Hperm. unfold s0 in Hperm. rewrite pending_start in Hperm.
  cbn in Hperm.
  intros p Hin.
  destruct (prepared_target _ _ _ _ Hp Hall p Hin) as (r & Hr & Hcell).
  assert (Hrc : In r (completed_processes sf))
    by (eapply Permutation_in; [symmetry; exact Hperm | exact Hr]).
  destruct (wf_static _ _ Hwf r) as (Hpid & _ & Hburst & _).
  change (st_heap s0) with h0 in Hpid, Hburst.
  rewrite Hcell in Hpid, Hburst. cbn in Hpid, Hburst.
  rewrite Hpid, Hburst. split.
  - pose proof (accounted_steps _ _ _ Hnd Hu0 Hfresh eq_refl eq_refl Hs) as Hacc.
    specialize (Hacc r). rewrite Hpend in Hacc. specialize (Hacc Hrc).
    destruct (snd_done _ _ Hsound r Hrc) as [Hzero _].
    unfold busy_time, total_duration, segments_of in *. lia.
  - intros Hnp. rewrite Hnp in Hs.
    destruct (dispatched_once_steps _ _ Hnd Hu0 Hfresh eq_refl eq_refl Hs) as [_ Hone].
    now apply Hone.
Qed.

Lemma C6_burst_on_timeline_witness :
  exists r,
    schedule (RR 2) 74 two_processes [0; 1]%nat = Returned r /\
    forall p, In p [0; 1]%nat ->
      busy_time (pid (cell two_processes p)) (res_timeline r) =
        burst_time (cell two_processes p) /\
      (non_preemptive (RR 2) = true ->
       exists g, segments_of (pid (cell two_processes p)) (res_timeline r) = [g] /\
                 seg_duration g = burst_time (cell two_processes p)).
Proof.
  apply (C6_burst_on_timeline (RR 2) two_processes [0; 1]%nat 74).
  - repeat constructor.
  - repeat (constructor; cbn; try lia).
  - unfold unique_pids. cbn. repeat constructor; cbn; intuition discriminate.
  - cbn. lia.
  - vm_compute. apply le_n.
Defined.

(** ** C10: the order of the finalized list *)

Lemma sorted_by_arrival_records h l :
  StronglySorted (key_le (arrival h)) l ->
  StronglySorted Z.le (map arrival_time (records h l)).
Proof.
  induction 1 as [|x l Hs IH Hall]; cbn; constructor; auto.
  unfold records. rewrite map_map. apply Forall_map.
  eapply Forall_impl; [|exact Hall]. intros y Hy. exact Hy.
Qed.

(** C10: on every valid input every algorithm returns a list holding exactly
    the input's process ids, ordered by [completion_time]; the list [fcfs]
    returns is also ordered by [arrival_time]; and each of the five functions
    has inputs on which that order is not the caller's. *)
Theorem C10_finalized_order alg h processes fuel :
  allocated h processes -> valid_input h processes -> quantum_ok alg ->
  (fuel_for h processes <= fuel)%nat ->
  (exists r,
     schedule alg fuel h processes = Returned r /\
     Permutation (map pid (records (res_heap r) (res_processes r)))
                 (map pid (records h processes)) /\
     StronglySorted Z.le
       (map completion_time (records (res_heap r) (res_processes r))) /\
     (alg = FCFS ->
      StronglySorted Z.le
        (map arrival_time (records (res_heap r) (res_processes r))))) /\
  Forall reorders [FCFS; SJF_NP; SJF_P; PRIORITY false; PRIORITY true; RR 2].
Proof.
  intros Hall Hvalid Hq Hfuel. split.
  - destruct (valid_run alg h processes fuel Hall Hvalid Hq Hfuel)
      as (h0 & copies & sorted & sf & Hc & Hsorted & Hp & Hret & Hs & Hpend & Hwf & Hsound).
    exists (run_of sf). split; [exact Hret|]. cbn [run_of res_heap res_processes].
    pose proof (wf_perm _ _ Hwf) as Hperm.
    rewrite Hpend, pending_start in Hperm. cbn in Hperm.
    assert (Hpids : map pid (records (st_heap sf) (completed_processes sf)) =
                    map pid (records h0 (completed_processes sf))).
    { unfold records. rewrite !map_map. apply map_ext. intros a.
      destruct (wf_static _ _ Hwf a) as (Hpid & _). now rewrite <- Hpid. }
    split; [|split].
    + rewrite Hpids.
      transitivity (map pid (records h0 sorted)).
      * unfold records. now do 2 apply Permutation_map.
      * rewrite (prep_records _ _ _ _ Hp Hall).
        unfold records. rewrite !map_map. apply Permutation_refl.
    + pose proof (snd_sorted _ _ Hsound) as Hcs.
      unfold records. now rewrite map_map.
    + intros ->. cbn in Hret. unfold fcfs in Hret. rewrite Hc in Hret.
      destruct (fold_left fcfs_step _ _) as [[h1 t1] tl1].
      inversion Hret as [[Htl Hcompl Hheap]].
      assert (Harr : map arrival_time (records (st_heap sf) (sort_by (arrival h0) copies)) =
                     map arrival_time (records h0 (sort_by (arrival h0) copies))).
      { unfold records. rewrite !map_map. apply map_ext. intros a.
        destruct (wf_static _ _ Hwf a) as (_ & Ha & _). now rewrite <- Ha. }
      rewrite Harr. apply sorted_by_arrival_records. apply sort_by_sorted.
  - repeat constructor; eexists; (split; [reflexivity|]); now vm_compute.
Qed.

Lemma C10_finalized_order_witness :
  (exists r,
     schedule SJF_NP 74 two_processes [0; 1]%nat = Returned r /\
     Permutation (map pid (records (res_heap r) (res_processes r)))
                 (map pid (records two_processes [0; 1]%nat)) /\
     StronglySorted Z.le
       (map completion_time (records (res_heap r) (res_processes r))) /\
     (SJF_NP = FCFS ->
      StronglySorted Z.le
        (map arrival_time (records (res_heap r) (res_processes r))))) /\
  Forall reorders [FCFS; SJF_NP; SJF_P; PRIORITY false; PRIORITY true; RR 2].
Proof.
  apply (C10_finalized_order SJF_NP two_processes [0; 1]%nat 74).
  - repeat constructor.
  - repeat (constructor; cbn; try lia).
  - exact I.
  - vm_compute. apply le_n.
Defined.

(** ** C7: the caller's objects *)

Lemma while_invariant {St : Type} (cond : St -> bool) (body : St -> St)
      (I : St -> Prop) :
  (forall s, I s -> cond s = true -> I (body s)) ->
  forall fuel s s', I s -> while cond body fuel s = Some s' -> I s'.
Proof.
  intros Hstep. induction fuel as [|n IH]; intros s s' HI Hw; simpl in Hw.
  - destruct (cond s); [discriminate|]. now inversion Hw; subst.
  - destruct (cond s) eqn:Hc.
    + eapply IH; [|exact Hw]. now apply Hstep.
    + now inversion Hw; subst.
Qed.

Lemma astep_private np base h s s' :
  private base h s -> astep np s s' -> private base h s'.
Proof.
  intros (Hfresh & Hkeep & Hnext) Hstep.
  assert (Hsub : forall x, In x (pending s') -> In x (pending s)).
  { intros x Hx.
    destruct Hstep as [r0 Hh Hr0 Har Ht Htl Hp Hc | r e Hin He Hse Hrem Hoth Hnx Htl Ht Hfin].
    - eapply Permutation_in; [symmetry|]; eauto.
    - destruct (remaining_time (cell (st_heap s') r) =? 0).
      + destruct Hfin as (_ & Hp & _).
        eapply Permutation_in; [symmetry; exact Hp|]. now right.
      + destruct Hfin as (Hp & _). eapply Permutation_in; [symmetry|]; eauto. }
  destruct Hstep as [r0 Hh Hr0 Har Ht Htl Hp Hc | r e Hin He Hse Hrem Hoth Hnx Htl Ht Hfin].
  - unfold private. rewrite Hh. repeat split; auto.
  - unfold private. repeat split; auto.
    + intros a Ha. rewrite Hoth; auto.
      specialize (Hfresh r Hin). lia.
    + lia.
Qed.

Lemma rr_body_private q base h s :
  private base h s -> private base h (rr_body q s).
Proof.
  intros (Hfresh & Hkeep & Hnext). unfold rr_body.
  destruct (enqueue_arrived (st_heap s) (current_time s)
              (remaining_processes s) (ready_queue s))
    as [remaining queue] eqn:Ha.
  pose proof (enqueue_arrived_perm _ _ _ _ _ _ Ha) as Hperm.
  fold (pending s) in Hperm.
  assert (Hf1 : forall x, In x (remaining ++ queue) -> (base <= x)%nat).
  { intros x Hx. apply Hfresh. eapply Permutation_in; [symmetry|]; eauto. }
  destruct queue as [|process queue1].
  - destruct remaining as [|r rest]; unfold private, pending; cbn; repeat split; auto.
  - assert (Hproc : (base <= process)%nat).
    { apply Hf1. apply in_or_app. right. now left. }
    set (h1 := mark_start (st_heap s) process (current_time s)).
    set (e := Z.min q (remaining_time (cell h1 process))).
    destruct (enqueue_arrived (modify h1 process _) (current_time s + e) remaining queue1)
      as [remaining2 queue2] eqn:Ha2.
    pose proof (enqueue_arrived_perm _ _ _ _ _ _ Ha2) as Hperm2.
    assert (Hf2 : forall x, In x (remaining2 ++ queue2) -> (base <= x)%nat).
    { intros x Hx. apply Hf1.
      eapply Permutation_in in Hx; [|symmetry; exact Hperm2].
      apply in_app_or in Hx. apply in_or_app.
      destruct Hx; [now left | right; now right]. }
    assert (Hk : forall a, (a < base)%nat -> cell h1 a = cell h a).
    { intros a Hlt. unfold h1. rewrite cell_mark_start_other by lia. now apply Hkeep. }
    assert (Hn1 : next_ref h1 = next_ref (st_heap s))
      by apply (mark_start_same (st_heap s) process (current_time s)).
    destruct (_ >? 0); unfold private, pending; cbn [st_heap remaining_processes ready_queue].
    + split; [|split].
      * intros x Hx. rewrite app_assoc in Hx. apply in_app_or in Hx.
        destruct Hx as [Hx | [<- | []]]; auto.
      * intros a Hlt. rewrite cell_modify_other by lia. now apply Hk.
      * rewrite next_ref_modify. lia.
    + split; [|split]; auto.
      * intros a Hlt. rewrite !cell_modify_other by lia. now apply Hk.
      * rewrite !next_ref_modify. lia.
Qed.

Lemma fcfs_step_other h now tl r h' now' tl' :
  fcfs_step (h, now, tl) r = (h', now', tl') ->
  (forall a, a <> r -> cell h' a = cell h a) /\ next_ref h' = next_ref h.
Proof.
  unfold fcfs_step, execute. cbn. intros Heq. inversion Heq; subst. split.
  - intros a Ha. rewrite !cell_modify_other by auto. now apply cell_mark_start_other.
  - rewrite !next_ref_modify. apply mark_start_same.
Qed.

Lemma fcfs_fold_other l : forall h now tl h' now' tl',
  fold_left fcfs_step l (h, now, tl) = (h', now', tl') ->
  (forall a, ~ In a l -> cell h' a = cell h a) /\ next_ref h' = next_ref h.
Proof.
  induction l as [|r l IH]; intros h now tl h' now' tl' Hfold.
  - inversion Hfold; subst. auto.
  - cbn [fold_left] in Hfold.
    destruct (fcfs_step (h, now, tl) r) as [[h1 now1] tl1] eqn:Hstep.
    destruct (fcfs_step_other _ _ _ _ _ _ _ Hstep) as [Hoth Hn1].
    destruct (IH _ _ _ _ _ _ Hfold) as [Hrest Hn2]. split; [|congruence].
    intros a Ha. rewrite Hrest, Hoth; auto.
    + intros ->. apply Ha. now left.
    + intros Hin. apply Ha. now right.
Qed.

Lemma finish_returned o r :
  finish o = Returned r ->
  exists sf, o = Some sf /\ r = run_of sf.
Proof.
  destruct o as [sf|]; cbn; intros Heq; inversion Heq. eauto.
Qed.

(** Whatever the input and the fuel, a run that returns leaves every object
    that existed before the call as it was. *)
Lemma schedule_frame alg fuel h processes r :
  schedule alg fuel h processes = Returned r ->
  (forall a, (a < next_ref h)%nat -> cell (res_heap r) a = cell h a) /\
  (next_ref h <= next_ref (res_heap r))%nat.
Proof.
  intros Hret.
  destruct (copy_processes h processes) as [h0 copies] eqn:Hc.
  pose proof (prepare _ _ _ _ Hc) as Hp.
  set (sorted := sort_by (arrival h0) copies) in *.
  assert (Hstart : forall alg', private (next_ref h) h (start_state alg' h0 sorted)).
  { intros alg'. unfold private. rewrite pending_start. cbn. repeat split.
    - apply (prep_fresh _ _ _ _ Hp).
    - apply (prep_keep _ _ _ _ Hp).
    - rewrite (prep_next _ _ _ _ Hp). lia. }
  assert (Hloop : forall alg' np cond body sf,
            (forall s, cond s = true -> astep np s (body s)) ->
            while cond body fuel (start_state alg' h0 sorted) = Some sf ->
            private (next_ref h) h sf).
  { intros alg' np cond body sf Hbody Hw.
    eapply (while_invariant cond body (private (next_ref h) h)); [|apply Hstart|exact Hw].
    intros s Hs Hcs. eapply astep_private; eauto. }
  destruct alg as [| | |b|q]; cbn in Hret.
  - unfold fcfs in Hret. rewrite Hc in Hret. fold sorted in Hret.
    destruct (fold_left fcfs_step sorted (h0, 0, [])) as [[h1 t1] tl1] eqn:Hfold.
    inversion Hret; subst. cbn.
    destruct (fcfs_fold_other _ _ _ _ _ _ _ Hfold) as [Hoth Hn]. split.
    + intros a Ha. rewrite Hoth; [now apply (prep_keep _ _ _ _ Hp)|].
      intros Hin. apply (prep_fresh _ _ _ _ Hp) in Hin. lia.
    + rewrite Hn, (prep_next _ _ _ _ Hp). lia.
  - unfold sjf_non_preemptive in Hret. rewrite Hc in Hret.
    apply finish_returned in Hret. destruct Hret as (sf & Hw & ->).
    destruct (Hloop SJF_NP true _ _ sf (sjf_np_body_astep true) Hw) as (_ & ? & ?). auto.
  - unfold sjf_preemptive in Hret. rewrite Hc in Hret.
    apply finish_returned in Hret. destruct Hret as (sf & Hw & ->).
    destruct (Hloop SJF_P false _ _ sf sjf_p_body_astep Hw) as (_ & ? & ?). auto.
  - unfold priority_scheduling in Hret. rewrite Hc in Hret.
    apply finish_returned in Hret. destruct Hret as (sf & Hw & ->).
    destruct (Hloop (PRIORITY b) (negb b) _ _ sf (priority_body_astep b) Hw)
      as (_ & ? & ?). auto.
  - unfold round_robin in Hret. rewrite Hc in Hret.
    apply finish_returned in Hret. destruct Hret as (sf & Hw & ->).
    destruct (while_invariant rr_pending (rr_body q) (private (next_ref h) h))
      with (fuel := fuel) (s := start_state (RR q) h0 sorted) (s' := sf)
      as (_ & ? & ?); auto.
    intros s Hs _. now apply rr_body_private.
Qed.

(** Every algorithm returns on every input, valid or not, given enough fuel
    (and a positive quantum for Round Robin). *)
Lemma schedule_total alg h processes fuel :
  allocated h processes -> quantum_ok alg ->
  (fuel_for h processes <= fuel)%nat ->
  exists r, schedule alg fuel h processes = Returned r.
Proof.
  intros Hall Hq Hfuel.
  destruct (copy_processes h processes) as [h0 copies] eqn:Hc.
  destruct alg as [| | |b|q] eqn:Ha.
  - cbn. unfold fcfs. rewrite Hc.
    destruct (fold_left fcfs_step _ _) as [[h1 t1] tl1]. eauto.
  - destruct (loops_run SJF_NP h processes h0 copies fuel) as (sf & Hret & _);
      auto; [discriminate | eauto].
  - destruct (loops_run SJF_P h processes h0 copies fuel) as (sf & Hret & _);
      auto; [discriminate | eauto].
  - destruct (loops_run (PRIORITY b) h processes h0 copies fuel) as (sf & Hret & _);
      auto; [discriminate | eauto].
  - destruct (loops_run (RR q) h processes h0 copies fuel) as (sf & Hret & _);
      auto; [discriminate | eauto].
Qed.

Lemma finish_never_raises o e : finish o <> Raised e.
Proof. destruct o; discriminate. Qed.

Lemma schedule_never_raises alg fuel h processes e :
  schedule alg fuel h processes <> Raised e.
Proof.
  destruct alg; cbn.
  - unfold fcfs. destruct (copy_processes h processes).
    destruct (fold_left fcfs_step _ _) as [[h1 t1] tl1]. discriminate.
  - unfold sjf_non_preemptive. destruct (copy_processes h processes).
    apply finish_never_raises.
  - unfold sjf_preemptive. destruct (copy_processes h processes).
    apply finish_never_raises.
  - unfold priority_scheduling. destruct (copy_processes h processes).
    apply finish_never_raises.
  - unfold round_robin. destruct (copy_processes h processes).
    apply finish_never_raises.
Qed.

(** C7: no algorithm writes to an object of the caller.  Whatever the fuel, a
    call that returns leaves every object allocated before the call, and so
    every record of the caller's list, with the field values it had; the
    list can be passed to another algorithm; and the call does return,
    given enough fuel (and a positive quantum for Round Robin). *)
Theorem C7_caller_objects_untouched alg fuel h processes :
  allocated h processes ->
  (forall r, schedule alg fuel h processes = Returned r ->
     (forall a, (a < next_ref h)%nat -> cell (res_heap r) a = cell h a) /\
     records (res_heap r) processes = records h processes /\
     allocated (res_heap r) processes) /\
  (quantum_ok alg -> (fuel_for h processes <= fuel)%nat ->
   exists r, schedule alg fuel h processes = Returned r).
Proof.
  intros Hall. split.
  - intros r Hret. destruct (schedule_frame _ _ _ _ _ Hret) as [Hkeep Hnext].
    split; [exact Hkeep|]. split.
    + unfold records. apply map_ext_in. intros a Ha. apply Hkeep.
      unfold allocated in Hall. rewrite Forall_forall in Hall. now apply Hall.
    + unfold allocated in *. eapply Forall_impl; [|exact Hall].
      cbn. intros; lia.
  - intros Hq Hfuel. now apply schedule_total.
Qed.

Lemma C7_caller_objects_untouched_witness :
  (forall r, schedule (PRIORITY true) 74 two_processes [0; 1]%nat = Returned r ->
     (forall a, (a < next_ref two_processes)%nat ->
                cell (res_heap r) a = cell two_processes a) /\
     records (res_heap r) [0; 1]%nat = records two_processes [0; 1]%nat /\
     allocated (res_heap r) [0; 1]%nat) /\
  (quantum_ok (PRIORITY true) ->
   (fuel_for two_processes [0; 1]%nat <= 74)%nat ->
   exists r, schedule (PRIORITY true) 74 two_processes [0; 1]%nat = Returned r).
Proof.
  apply (C7_caller_objects_untouched (PRIORITY true) 74 two_processes [0; 1]%nat).
  repeat constructor.
Defined.

(** ** C2: invalid processes *)

(** C2, counterexample: [fcfs] accepts a process with burst 0 and one with
    a negative arrival time, and returns a timeline and a finalized record
    for each. *)
Lemma C2_counterexample :
  ~ valid_input zero_burst [0%nat] /\
  (exists r, fcfs zero_burst [0%nat] = Returned r /\
             res_timeline r = [run_segment 1 0 0] /\
             map completion_time (records (res_heap r) (res_processes r)) = [0]) /\
  ~ valid_input early_process [0%nat] /\
  (exists r, fcfs early_process [0%nat] = Returned r /\
             res_timeline r = [run_segment 1 0 2] /\
             map completion_time (records (res_heap r) (res_processes r)) = [2]).
Proof.
  repeat split.
  - intros Hv. inversion Hv as [|? ? [Hb _] _]; subst. cbn in Hb. lia.
  - eexists. split; [reflexivity|]. now vm_compute.
  - intros Hv. inversion Hv as [|? ? [_ Ha] _]; subst. cbn in Ha. lia.
  - eexists. split; [reflexivity|]. now vm_compute.
Qed.

(** C2, as the code has it: no algorithm validates its input.  On every input, with or
    without a process of non-positive burst or negative arrival, every
    algorithm returns a timeline and a finalized list (Round Robin for a
    positive quantum), and no call ever raises an error. *)
Theorem C2_no_input_validation alg h processes fuel :
  allocated h processes -> quantum_ok alg ->
  (fuel_for h processes <= fuel)%nat ->
  (exists r, schedule alg fuel h processes = Returned r) /\
  (forall fuel' e, schedule alg fuel' h processes <> Raised e).
Proof.
  intros Hall Hq Hfuel. split.
  - now apply schedule_total.
  - intros fuel' e. apply schedule_never_raises.
Qed.

Lemma C2_no_input_validation_witness :
  (exists r, schedule SJF_P 3 zero_burst [0%nat] = Returned r) /\
  (forall fuel' e, schedule SJF_P fuel' zero_burst [0%nat] <> Raised e).
Proof.
  apply (C2_no_input_validation SJF_P zero_burst [0%nat] 3).
  - repeat constructor.
  - exact I.
  - vm_compute. apply le_n.
Defined.

(** ** C3: the time quantum *)

Lemma while_diverges {St : Type} (cond : St -> bool) (body : St -> St)
      (I : St -> Prop) :
  (forall s, I s -> cond s = true /\ I (body s)) ->
  forall fuel s, I s -> while cond body fuel s = None.
Proof.
  intros Hstep. induction fuel as [|n IH]; intros s HI; simpl;
    destruct (Hstep s HI) as [-> HI']; auto.
Qed.

Lemma spinning_body s :
  spinning s -> rr_pending s = true /\ spinning (rr_body 0 s).
Proof.
  intros (Ht & Hrem & Harr & Hwhere).
  assert (Hq : enqueue_arrived (st_heap s) (current_time s)
                 (remaining_processes s) (ready_queue s) = ([], [1%nat])).
  { destruct Hwhere as [[-> ->] | [-> ->]]; cbn; auto.
    rewrite Harr, Ht. reflexivity. }
  split.
  - unfold rr_pending. destruct Hwhere as [[-> ->] | [-> ->]]; reflexivity.
  - unfold rr_body. rewrite Hq.
    set (h1 := mark_start (st_heap s) 1%nat (current_time s)).
    destruct (mark_start_same (st_heap s) 1%nat (current_time s)) as (_ & Hrem1 & _).
    fold h1 in Hrem1.
    rewrite Hrem1, Hrem. cbn [Z.min Z.compare].
    rewrite cell_modify_same. cbn [enqueue_arrived]. cbn.
    rewrite Hrem1, Hrem. cbn.
    unfold spinning. cbn. rewrite cell_modify_same. cbn.
    rewrite Hrem1, Hrem. repeat split; auto; try lia.
    unfold arrival. rewrite cell_modify_same. cbn.
    fold (arrival h1 1%nat). unfold h1. now rewrite arrival_mark_start.
Qed.

(** C3, counterexample: with quantum 0 on a process with work left,
    [round_robin] raises nothing; it dispatches the process for 0 time units
    for ever: after 100 iterations, and after any number of them, it has
    neither returned nor raised. *)
Lemma C3_counterexample :
  round_robin 100 unit_process [0%nat] 0 = OutOfFuel /\
  never_returns (fun fuel => round_robin fuel unit_process [0%nat] 0).
Proof.
  split; [now vm_compute|].
  intros fuel. unfold round_robin.
  destruct (copy_processes unit_process [0%nat]) as [h0 copies] eqn:Hc.
  cbn in Hc. inversion Hc; subst. clear Hc.
  rewrite (while_diverges rr_pending (rr_body 0) spinning); auto.
  - intros s Hs. now apply spinning_body.
  - unfold spinning. cbn. repeat split; auto.
Qed.

(** C3, as the code has it: [round_robin] does not check its quantum and
    never raises.  With a positive quantum it returns a timeline and a
    finalized list on every input. *)
Theorem C3_quantum_unchecked h processes time_quantum fuel :
  allocated h processes -> 0 < time_quantum ->
  (fuel_for h processes <= fuel)%nat ->
  (exists r, round_robin fuel h processes time_quantum = Returned r) /\
  (forall fuel' q e, round_robin fuel' h processes q <> Raised e).
Proof.
  intros Hall Hq Hfuel. split.
  - apply (schedule_total (RR time_quantum)); auto.
  - intros fuel' q e. apply (schedule_never_raises (RR q)).
Qed.

Lemma C3_quantum_unchecked_witness :
  (exists r, round_robin 74 two_processes [0; 1]%nat 2 = Returned r) /\
  (forall fuel' q e, round_robin fuel' two_processes [0; 1]%nat q <> Raised e).
Proof.
  apply (C3_quantum_unchecked two_processes [0; 1]%nat 2 74).
  - repeat constructor.
  - lia.
  - vm_compute. apply le_n.
Defined.

(** ** C5: the Round Robin example *)

Lemma while_more_fuel {St : Type} (cond : St -> bool) (body : St -> St) :
  forall n m s s',
    while cond body n s = Some s' -> (n <= m)%nat ->
    while cond body m s = Some s'.
Proof.
  induction n as [|n IH]; intros m s s' Hw Hle; simpl in Hw.
  - destruct m; simpl; destruct (cond s); auto; discriminate.
  - destruct m as [|m]; [lia|]. simpl.
    destruct (cond s); auto. apply IH; auto. lia.
Qed.

Lemma round_robin_more_fuel n m h processes q r :
  round_robin n h processes q = Returned r -> (n <= m)%nat ->
  round_robin m h processes q = Returned r.
Proof.
  unfold round_robin. destruct (copy_processes h processes) as [h0 copies].
  intros Hret Hle. apply finish_returned in Hret.
  destruct Hret as (sf & Hw & ->).
  now rewrite (while_more_fuel _ _ _ _ _ _ Hw Hle).
Qed.

(** C5: with quantum 2 on P1 (arrival 0, burst 5) and P2 (arrival 1,
    burst 3), [round_robin] returns, after five iterations, the timeline
    P1 0-2, P2 2-4, P1 4-6, P2 6-7, P1 7-8, with P2 completed at 7 and P1
    at 8. *)
Theorem C5_round_robin_example fuel :
  (5 <= fuel)%nat ->
  exists r,
    round_robin fuel two_processes [0; 1]%nat 2 = Returned r /\
    res_timeline r =
      [mkSegment (Some 1) 0 2 2; mkSegment (Some 2) 2 4 2;
       mkSegment (Some 1) 4 6 2; mkSegment (Some 2) 6 7 1;
       mkSegment (Some 1) 7 8 1] /\
    map (fun p => (pid p, completion_time p))
        (records (res_heap r) (res_processes r)) = [(2, 7); (1, 8)].
Proof.
  intros Hfuel.
  destruct (round_robin 5 two_processes [0; 1]%nat 2) as [r| |] eqn:H5;
    try (vm_compute in H5; discriminate).
  exists r. split; [now apply (round_robin_more_fuel 5)|].
  vm_compute in H5. inversion H5; subst. now vm_compute.
Qed.

Lemma C5_round_robin_example_witness :
  exists r,
    round_robin 5 two_processes [0; 1]%nat 2 = Returned r /\
    res_timeline r =
      [mkSegment (Some 1) 0 2 2; mkSegment (Some 2) 2 4 2;
       mkSegment (Some 1) 4 6 2; mkSegment (Some 2) 6 7 1;
       mkSegment (Some 1) 7 8 1] /\
    map (fun p => (pid p, completion_time p))
        (records (res_heap r) (res_processes r)) = [(2, 7); (1, 8)].
Proof.
  apply (C5_round_robin_example 5). apply le_n.
Defined.

(** ** C9: the metrics *)

Lemma fold_left_max_right (l : list Z) (a : Z) :
  fold_left Z.max l a = fold_right Z.max a l.
Proof.
  apply fold_symmetric; intros; lia.
Qed.

Lemma fold_left_min_right (l : list Z) (a : Z) :
  fold_left Z.min l a = fold_right Z.min a l.
Proof.
  apply fold_symmetric; intros; lia.
Qed.

Lemma span_spec h first others :
  max_completion h (first :: others) - min_arrival h (first :: others) =
  spec_span h first others.
Proof.
  unfold max_completion, min_arrival, spec_span.
  now rewrite fold_left_max_right, fold_left_min_right.
Qed.

Lemma py_sum_burst h processes :
  py_sum burst_time h processes = spec_total_burst h processes.
Proof.
  unfold py_sum, spec_total_burst.
  rewrite fold_symmetric by (intros; lia).
  induction processes as [|r l IH]; simpl; auto. now rewrite IH.
Qed.

(** C9, counterexample: [fcfs] on one process with a burst of 2^1024 time
    units returns it with [completion_time] 2^1024, so the span is positive
    and the formulas of the specification define every metric, but
    [calculate_metrics] raises OverflowError on the returned list: the
    average turnaround time, 2^1024 / 1, is too large for a float. *)
Lemma C9_counterexample :
  valid_input huge_burst [0%nat] /\
  exists r,
    fcfs huge_burst [0%nat] = Returned r /\
    max_completion (res_heap r) (res_processes r) -
      min_arrival (res_heap r) (res_processes r) = 2 ^ 1024 /\
    calculate_metrics Q inject_Z rational_div rational_mul
                      (res_heap r) (res_processes r) = Raise OverflowError.
Proof.
  split.
  - repeat (constructor; cbn; try lia).
  - eexists. split; [reflexivity|]. split; now vm_compute.
Qed.

(** C9, as the code has it: on an empty list [calculate_metrics] raises
    nothing and returns the all-zero summary.  On a non-empty list it never
    raises ZeroDivisionError.  When none of the quotients it forms is too
    large for a float it returns a summary whose [cpu_utilization] is the
    sum of the bursts divided by (largest completion minus smallest
    arrival) times 100 and whose [throughput] is the number of processes
    divided by the same span, each 0 when that span is not positive;
    otherwise it raises OverflowError and returns no metrics. *)
Theorem C9_metrics (number : Type) (of_int : Z -> number)
        (true_div : Z -> Z -> number) (mul_int : number -> Z -> number)
        h first others :
  calculate_metrics number of_int true_div mul_int h [] =
    Value (mkSummary (of_int 0) (of_int 0) (of_int 0) (of_int 0) (of_int 0)) /\
  if quotients_fit h first others
  then exists m,
    calculate_metrics number of_int true_div mul_int h (first :: others) = Value m /\
    cpu_utilization m = spec_cpu_utilization number of_int true_div mul_int h first others /\
    throughput m = spec_throughput number of_int true_div h first others
  else
    calculate_metrics number of_int true_div mul_int h (first :: others) =
      Raise OverflowError.
Proof.
  split; [reflexivity|].
  unfold calculate_metrics, spec_cpu_utilization, spec_throughput, quotients_fit.
  cbn [is_empty negb]. rewrite span_spec, py_sum_burst.
  set (n := Z.of_nat (length (first :: others))).
  set (span := spec_span h first others).
  assert (Hn : (n =? 0) = false) by (apply Z.eqb_neq; subst n; cbn; lia).
  unfold py_div. rewrite Hn.
  destruct (overflows (py_sum turnaround_time h (first :: others)) n),
           (overflows (py_sum waiting_time h (first :: others)) n),
           (overflows (py_sum response_time h (first :: others)) n);
    cbn [negb andb];
    (destruct (Z.gtb_spec span 0) as [Hpos | Hnp];
     [ assert (Hz : (span =? 0) = false) by (apply Z.eqb_neq; lia);
       assert (Hle : (span <=? 0) = false) by (apply Z.leb_gt; lia);
       rewrite ?Hz, ?Hle;
       destruct (overflows (spec_total_burst h (first :: others)) span),
                (overflows n span); cbn; eauto
     | assert (Hle : (span <=? 0) = true) by (apply Z.leb_le; lia);
       rewrite ?Hle; cbn; eauto ]).
Qed.

(** The metrics of the Round Robin example, in exact arithmetic: average
    turnaround 7, waiting 3, response 1/2, utilization 100, throughput
    1/4. *)
Example metrics_of_round_robin_example :
  exists r,
    round_robin 5 two_processes [0; 1]%nat 2 = Returned r /\
    calculate_metrics Q inject_Z rational_div rational_mul
                      (res_heap r) (res_processes r) =
    Value (mkSummary (7 # 1)%Q (3 # 1)%Q (1 # 2)%Q (100 # 1)%Q (1 # 4)%Q).
Proof.
  eexists. split; [reflexivity|]. now vm_compute.
Qed.

(** ** C4: the selection of [sjf_preemptive] *)

(** [min_by] returns the first element of minimal key: everything before it
    has a strictly larger key. *)
Lemma min_by_first_min key first others :
  exists l1 l2,
    first :: others = l1 ++ min_by key first others :: l2 /\
    (forall x, In x l1 -> key (min_by key first others) < key x) /\
    (forall x, In x l2 -> key (min_by key first others) <= key x).
Proof.
  unfold min_by.
  assert (Hgen : forall rest best p1 p2,
            (forall x, In x p1 -> key best < key x) ->
            (forall x, In x p2 -> key best <= key x) ->
            exists l1 l2,
              p1 ++ best :: p2 ++ rest =
                l1 ++ fold_left (fun b x => if key x <? key b then x else b) rest best :: l2 /\
              (forall x, In x l1 ->
                 key (fold_left (fun b x => if key x <? key b then x else b) rest best) < key x) /\
              (forall x, In x l2 ->
                 key (fold_left (fun b x => if key x <? key b then x else b) rest best) <= key x)).
  { induction rest as [|y rest IH]; intros best p1 p2 H1 H2; cbn [fold_left].
    - exists p1, p2. rewrite app_nil_r. auto.
    - destruct (Z.ltb_spec (key y) (key best)) as [Hlt | Hge].
      + destruct (IH y (p1 ++ best :: p2) []) as (l1 & l2 & Heq & Hl1 & Hl2).
        * intros x Hx. apply in_app_or in Hx.
          destruct Hx as [Hx | [<- | Hx]]; [specialize (H1 x Hx) | | specialize (H2 x Hx)]; lia.
        * intros x [].
        * exists l1, l2. split; auto. rewrite <- Heq.
          cbn. now rewrite <- app_assoc.
      + destruct (IH best p1 (p2 ++ [y])) as (l1 & l2 & Heq & Hl1 & Hl2); auto.
        * intros x Hx. apply in_app_or in Hx.
          destruct Hx as [Hx | [<- | []]]; auto.
        * exists l1, l2. split; auto. rewrite <- Heq.
          now rewrite <- app_assoc. }
  destruct (Hgen others first [] []) as (l1 & l2 & Heq & H1 & H2); try easy.
  exists l1, l2. auto.
Qed.

Lemma filter_split {A : Type} (f : A -> bool) (l : list A) : forall l1 x l2,
  filter f l = l1 ++ x :: l2 ->
  exists L1 L2, l = L1 ++ x :: L2 /\ filter f L1 = l1 /\ filter f L2 = l2.
Proof.
  induction l as [|y l IH]; intros l1 x l2 Heq; cbn in Heq.
  - destruct l1; discriminate.
  - destruct (f y) eqn:Hfy.
    + destruct l1 as [|z l1]; cbn in Heq; inversion Heq; subst.
      * exists [], l. cbn. auto.
      * destruct (IH _ _ _ H1) as (L1 & L2 & -> & HL1 & HL2).
        exists (z :: L1), L2. cbn. rewrite Hfy, HL1. auto.
    + destruct (IH _ _ _ Heq) as (L1 & L2 & -> & HL1 & HL2).
      exists (y :: L1), L2. cbn. rewrite Hfy. auto.
Qed.

Lemma next_event_min h now l :
  match next_event h now l with
  | Some n => forall x, In x l -> now < arrival h x -> n <= arrival h x
  | None => forall x, In x l -> arrival h x <= now
  end.
Proof.
  unfold next_event.
  assert (Hgen : forall acc seen,
            match acc with
            | Some n => forall x, In x seen -> now < arrival h x -> n <= arrival h x
            | None => forall x, In x seen -> arrival h x <= now
            end ->
            match fold_left
                    (fun next_event_time p =>
                       let a := arrival_time (cell h p) in
                       if (a >? now) &&
                          match next_event_time with
                          | None => true
                          | Some n => a <? n
                          end
                       then Some a else next_event_time) l acc
            with
            | Some n => forall x, In x (seen ++ l) -> now < arrival h x -> n <= arrival h x
            | None => forall x, In x (seen ++ l) -> arrival h x <= now
            end).
  { induction l as [|y l IH]; intros acc seen Hacc; cbn [fold_left].
    - rewrite app_nil_r. exact Hacc.
    - replace (seen ++ y :: l) with ((seen ++ [y]) ++ l)
        by now rewrite <- app_assoc.
      apply IH. cbn. fold (arrival h y).
      destruct (Z.gtb_spec (arrival h y) now) as [Hgt | Hle]; cbn.
      + destruct acc as [n|].
        * destruct (Z.ltb_spec (arrival h y) n) as [Hlt | Hge].
          -- intros x Hx Hnow. apply in_app_or in Hx.
             destruct Hx as [Hx | [<- | []]]; [specialize (Hacc x Hx Hnow)|]; lia.
          -- intros x Hx Hnow. apply in_app_or in Hx.
             destruct Hx as [Hx | [<- | []]]; [now apply Hacc | lia].
        * intros x Hx Hnow. apply in_app_or in Hx.
          destruct Hx as [Hx | [<- | []]]; [specialize (Hacc x Hx)|]; lia.
      + destruct acc as [n|].
        * intros x Hx Hnow. apply in_app_or in Hx.
          destruct Hx as [Hx | [<- | []]]; [now apply Hacc | lia].
        * intros x Hx. apply in_app_or in Hx.
          destruct Hx as [Hx | [<- | []]]; [now apply Hacc | lia]. }
  apply (Hgen None []). intros x [].
Qed.

Lemma remove_first_sorted key x l :
  StronglySorted (key_le key) l -> StronglySorted (key_le key) (remove_first x l).
Proof.
  induction 1 as [|y l Hs IH Hall]; cbn; [constructor|].
  destruct (Nat.eqb y x); auto.
  constructor; auto.
  apply Forall_forall. intros z Hz. rewrite Forall_forall in Hall. apply Hall.
  clear - Hz. induction l as [|w l IH]; cbn in *; [easy|].
  destruct (Nat.eqb w x); [now right|].
  destruct Hz as [-> | Hz]; auto.
Qed.

(** In a list sorted by key, an element of strictly smaller key comes
    before. *)
Lemma sorted_before key l1 x l2 c :
  StronglySorted (key_le key) (l1 ++ x :: l2) ->
  In c (l1 ++ x :: l2) -> key c < key x -> In c l1.
Proof.
  induction l1 as [|y l1 IH]; cbn; intros Hs Hc Hlt.
  - inversion Hs as [|? ? _ Hall]; subst.
    destruct Hc as [-> | Hc]; [lia|].
    rewrite Forall_forall in Hall. specialize (Hall c Hc). unfold key_le in Hall. lia.
  - inversion Hs; subst. destruct Hc as [-> | Hc]; auto.
Qed.

Lemma min_by_le key first others x :
  In x (first :: others) -> key (min_by key first others) <= key x.
Proof.
  intros Hx. destruct (min_by_first_min key first others) as (l1 & l2 & Heq & H1 & H2).
  rewrite Heq in Hx. apply in_app_or in Hx.
  destruct Hx as [Hx | [<- | Hx]]; [specialize (H1 x Hx) | | specialize (H2 x Hx)]; lia.
Qed.

Lemma sorted_key_ext key1 key2 l :
  (forall a, key1 a = key2 a) ->
  StronglySorted (key_le key1) l -> StronglySorted (key_le key2) l.
Proof.
  intros Hext. induction 1 as [|x l Hs IH Hall]; constructor; auto.
  eapply Forall_impl; [|exact Hall]. unfold key_le. intros a. now rewrite !Hext.
Qed.

Lemma arrival_dispatch_heap h selected now (b : bool) a :
  arrival (if b then h else mark_start h selected now) a = arrival h a.
Proof. destruct b; auto using arrival_mark_start. Qed.

Lemma arrival_modify h r f a :
  (forall p, arrival_time (f p) = arrival_time p) ->
  arrival (modify h r f) a = arrival h a.
Proof.
  intros Hf. unfold arrival. destruct (Nat.eq_dec a r) as [-> | Hne].
  - now rewrite cell_modify_same.
  - now rewrite cell_modify_other.
Qed.

Lemma next_event_ext h h' now l :
  (forall a, arrival h' a = arrival h a) ->
  next_event h' now l = next_event h now l.
Proof.
  intros Hext. unfold next_event.
  generalize (@None Z). induction l as [|x l IH]; intros acc; cbn; auto.
  fold (arrival h' x). fold (arrival h x). rewrite Hext. apply IH.
Qed.

Lemma srtf_inv_body s : srtf_inv s -> srtf_inv (sjf_p_body s).
Proof.
  intros [Hsorted Hcur]. unfold sjf_p_body.
  destruct (filter _ (remaining_processes s)) as [|first others] eqn:Hav.
  - constructor; cbn; auto. discriminate.
  - set (h := st_heap s) in *.
    set (selected := min_by (fun p => remaining_time (cell h p)) first others).
    set (h1 := if same_process (current_process s) selected then h
               else mark_start h selected (current_time s)).
    destruct (dispatch_heap h selected (current_time s)
                (same_process (current_process s) selected))
      as (Hoth & Hst & Hrem & Hnext).
    fold h1 in Hoth, Hst, Hrem, Hnext.
    assert (Harr1 : forall a, arrival h1 a = arrival h a)
      by (intros a; apply arrival_dispatch_heap).
    assert (Hsel : In selected (first :: others)) by apply min_by_in.
    rewrite <- Hav in Hsel. apply available_in in Hsel. destruct Hsel as [Hin Harrived].
    set (e := preemptive_slice h1 s selected).
    assert (Harr2 : forall a,
              arrival (modify h1 selected
                         (fun p => set_remaining_time (remaining_time p - e) p)) a =
              arrival h a).
    { intros a. rewrite arrival_modify; auto. }
    unfold run_selected. rewrite cell_modify_same. cbn.
    destruct (remaining_time (cell h1 selected) - e =? 0) eqn:Hz.
    + constructor; cbn; [|discriminate].
      apply remove_first_sorted.
      eapply sorted_key_ext; [|exact Hsorted].
      intros a. rewrite arrival_modify; auto.
    + apply Z.eqb_neq in Hz.
      assert (Hslice : exists n,
                next_event h (current_time s) (remaining_processes s) = Some n /\
                e = n - current_time s /\ 0 < e < remaining_time (cell h selected)).
      { subst e. unfold preemptive_slice in *.
        rewrite (next_event_ext h h1) in * by auto.
        pose proof (next_event_later h (current_time s) (remaining_processes s)) as Hl.
        destruct (next_event h (current_time s) (remaining_processes s)) as [n|];
          [|lia].
        exists n. split; auto. lia. }
      destruct Hslice as (n & Hn & He & Hrange).
      constructor; cbn.
      * eapply sorted_key_ext; [|exact Hsorted]. intros a. now rewrite Harr2.
      * intros c Hc. inversion Hc; subst c. clear Hc.
        rewrite Harr2. split; [exact Hin|]. split; [lia|].
        intros x Hx Hne Hax. rewrite Harr2 in Hax.
        rewrite cell_modify_same, cell_modify_other by auto. cbn.
        rewrite (Hoth x Hne), Hrem.
        pose proof (next_event_min h (current_time s) (remaining_processes s)) as Hmin.
        rewrite Hn in Hmin. specialize (Hmin x Hx).
        assert (Hxa : arrival h x <= current_time s) by lia.
        assert (Hxav : In x (first :: others)).
        { rewrite <- Hav. apply filter_In. split; auto.
          unfold arrived. now apply Z.leb_le. }
        pose proof (min_by_le (fun p => remaining_time (cell h p)) first others x Hxav)
          as Hle.
        fold selected in Hle. cbn in Hle. lia.
Qed.

Lemma srtf_inv_reachable h processes s :
  sjf_p_reachable (sjf_p_start h processes) s -> srtf_inv s.
Proof.
  induction 1 as [|s Hr IH Hc].
  - unfold sjf_p_start.
    destruct (copy_processes h processes) as [h0 copies] eqn:Hcopy.
    constructor; cbn; [apply sort_by_sorted | discriminate].
  - now apply srtf_inv_body.
Qed.

(** [sjf_preemptive] runs its loop from [sjf_p_start]. *)
Lemma sjf_preemptive_from_start fuel h processes :
  sjf_preemptive fuel h processes =
  finish (while has_remaining sjf_p_body fuel (sjf_p_start h processes)).
Proof.
  unfold sjf_preemptive, sjf_p_start.
  now destruct (copy_processes h processes).
Qed.

(** The loop of [sjf_preemptive] only passes through reachable states. *)
Lemma sjf_p_while_reachable s0 fuel : forall s sf,
  sjf_p_reachable s0 s ->
  while has_remaining sjf_p_body fuel s = Some sf -> sjf_p_reachable s0 sf.
Proof.
  induction fuel as [|n IH]; intros s sf Hr Hw; simpl in Hw.
  - destruct (has_remaining s); [discriminate|]. now inversion Hw; subst.
  - destruct (has_remaining s) eqn:Hc.
    + eapply IH; [|exact Hw]. now constructor.
    + now inversion Hw; subst.
Qed.

(** C4: at every decision point of [sjf_preemptive], that is in every state
    its loop reaches in which some process is available, the loop
    dispatches the process [selected], which is waiting and has arrived,
    whose [remaining_time] is the smallest among the waiting processes that
    have arrived; if the process that was running is tied with it, it is
    that process; and in any case every arrived process ahead of it in
    arrival order has strictly more work left. *)
Theorem C4_srtf_selection h processes s first others :
  sjf_p_reachable (sjf_p_start h processes) s ->
  filter (arrived (st_heap s) (current_time s)) (remaining_processes s) =
    first :: others ->
  let work_left := fun p => remaining_time (cell (st_heap s) p) in
  let selected := min_by work_left first others in
  (exists h1 e, sjf_p_body s = run_selected s h1 selected e) /\
  In selected (remaining_processes s) /\
  arrival (st_heap s) selected <= current_time s /\
  (forall x, In x (remaining_processes s) ->
             arrival (st_heap s) x <= current_time s ->
             work_left selected <= work_left x) /\
  (forall c, current_process s = Some c ->
             In c (first :: others) /\
             (work_left c = work_left selected -> selected = c)) /\
  StronglySorted (key_le (arrival (st_heap s))) (remaining_processes s) /\
  (exists ahead behind,
     remaining_processes s = ahead ++ selected :: behind /\
     forall x, In x ahead -> arrival (st_heap s) x <= current_time s ->
               work_left selected < work_left x).
Proof.
  intros Hreach Hav work_left selected.
  destruct (srtf_inv_reachable _ _ _ Hreach) as [Hsorted Hcur].
  assert (Hsel : In selected (first :: others)) by apply min_by_in.
  assert (Hsel' := Hsel). rewrite <- Hav in Hsel'.
  apply available_in in Hsel'. destruct Hsel' as [Hin Harrived].
  destruct (min_by_first_min work_left first others) as (l1 & l2 & Heq & Hl1 & Hl2).
  fold selected in Heq, Hl1, Hl2.
  assert (Hsplit := Hav). rewrite Heq in Hsplit.
  destruct (filter_split _ _ _ _ _ Hsplit) as (ahead & behind & Hrem & Hahead & Hbehind).
  assert (Hfirst : forall x, In x ahead -> arrival (st_heap s) x <= current_time s ->
                             work_left selected < work_left x).
  { intros x Hx Hxa. apply Hl1. rewrite <- Hahead. apply filter_In. split; auto.
    unfold arrived. now apply Z.leb_le. }
  split; [|split; [|split; [|split; [|split; [|split]]]]]; auto.
  - unfold sjf_p_body. rewrite Hav. eauto.
  - intros x Hx Hxa. apply min_by_le. rewrite <- Hav. apply filter_In. split; auto.
    unfold arrived. now apply Z.leb_le.
  - intros c Hc. destruct (Hcur c Hc) as (Hcin & Hcarr & Hless). split.
    + rewrite <- Hav. apply filter_In. split; auto.
      unfold arrived. apply Z.leb_le. lia.
    + intros Htie. destruct (Nat.eq_dec selected c) as [|Hne]; auto. exfalso.
      destruct (Z.lt_ge_cases (arrival (st_heap s) selected) (current_time s))
        as [Hlt | Hge].
      * specialize (Hless selected Hin Hne Hlt). unfold work_left in Htie. lia.
      * assert (Hbefore : In c ahead).
        { apply (sorted_before (arrival (st_heap s)) ahead selected behind); try lia.
          - now rewrite <- Hrem.
          - now rewrite <- Hrem. }
        assert (Hca : arrival (st_heap s) c <= current_time s) by lia.
        specialize (Hfirst c Hbefore Hca). lia.
  - exists ahead, behind. auto.
Qed.

Lemma C4_srtf_selection_witness :
  (exists h1 e,
     sjf_p_body after_first_slice =
     run_selected after_first_slice h1 (min_by work_left_then 2%nat [3%nat]) e) /\
  In (min_by work_left_then 2%nat [3%nat]) (remaining_processes after_first_slice) /\
  arrival (st_heap after_first_slice) (min_by work_left_then 2%nat [3%nat])
    <= current_time after_first_slice /\
  (forall x, In x (remaining_processes after_first_slice) ->
             arrival (st_heap after_first_slice) x <= current_time after_first_slice ->
             work_left_then (min_by work_left_then 2%nat [3%nat]) <= work_left_then x) /\
  (forall c, current_process after_first_slice = Some c ->
             In c [2%nat; 3%nat] /\
             (work_left_then c = work_left_then (min_by work_left_then 2%nat [3%nat]) ->
              min_by work_left_then 2%nat [3%nat] = c)) /\
  StronglySorted (key_le (arrival (st_heap after_first_slice)))
                 (remaining_processes after_first_slice) /\
  (exists ahead behind,
     remaining_processes after_first_slice =
       ahead ++ min_by work_left_then 2%nat [3%nat] :: behind /\
     forall x, In x ahead ->
               arrival (st_heap after_first_slice) x <= current_time after_first_slice ->
               work_left_then (min_by work_left_then 2%nat [3%nat]) < work_left_then x).
Proof.
  apply (C4_srtf_selection two_processes [0; 1]%nat after_first_slice 2%nat [3%nat]).
  - apply reach_iter; [apply reach_start | reflexivity].
  - reflexivity.
Defined.

(** ** C8: determinism *)

(** ** C8: determinism *)

Section Renaming.

Variable rho : ref -> ref.
Hypothesis rho_inj : forall x y, rho x = rho y -> x = y.
Variable D : ref -> Prop.

Local Abbreviation agree := (agree rho D).
Local Abbreviation within := (within D).
Local Abbreviation related := (related rho D).

Lemma rho_eqb x y : Nat.eqb (rho x) (rho y) = Nat.eqb x y.
Proof.
  destruct (Nat.eqb_spec x y) as [-> | Hne].
  - apply Nat.eqb_refl.
  - apply Nat.eqb_neq. intros Heq. now apply Hne, rho_inj.
Qed.

Lemma filter_rename h1 h2 now l :
  agree h1 h2 -> within l ->
  filter (arrived h2 now) (map rho l) = map rho (filter (arrived h1 now) l).
Proof.
  intros Hag. induction l as [|x l IH]; intros Hin; cbn; auto.
  assert (Hx : arrived h2 now (rho x) = arrived h1 now x).
  { unfold arrived, arrival. rewrite Hag; auto. apply Hin. now left. }
  rewrite Hx, IH by (intros r Hr; apply Hin; now right).
  now destruct (arrived h1 now x).
Qed.

Lemma min_by_rename key1 key2 first others :
  (forall x, In x (first :: others) -> key2 (rho x) = key1 x) ->
  min_by key2 (rho first) (map rho others) = rho (min_by key1 first others).
Proof.
  unfold min_by. revert first.
  induction others as [|y l IH]; intros first Hkey; cbn; auto.
  rewrite (Hkey y), (Hkey first) by (cbn; auto).
  destruct (key1 y <? key1 first).
  - apply IH. intros x [<- | Hx]; apply Hkey; cbn; auto.
  - apply IH. intros x [<- | Hx]; apply Hkey; cbn; auto.
Qed.

Lemma arrival_rename h1 h2 l :
  agree h1 h2 -> within l ->
  map (fun x => arrival_time (cell h2 x)) (map rho l) =
  map (fun x => arrival_time (cell h1 x)) l.
Proof.
  intros Hag Hin. rewrite map_map. apply map_ext_in.
  intros x Hx. rewrite Hag; auto.
Qed.

Lemma min_arrival_rename h1 h2 l :
  agree h1 h2 -> within l -> min_arrival h2 (map rho l) = min_arrival h1 l.
Proof.
  intros Hag Hin. destruct l as [|r rest]; cbn; auto.
  rewrite (arrival_rename h1 h2 rest), Hag; auto.
  - apply Hin. now left.
  - intros x Hx. apply Hin. now right.
Qed.

Lemma next_event_rename h1 h2 now l :
  agree h1 h2 -> within l ->
  next_event h2 now (map rho l) = next_event h1 now l.
Proof.
  intros Hag. unfold next_event. generalize (@None Z).
  induction l as [|x l IH]; intros acc Hin; cbn; auto.
  rewrite Hag by (apply Hin; now left).
  apply IH. intros r Hr. apply Hin. now right.
Qed.

Lemma remove_first_rename x l :
  remove_first (rho x) (map rho l) = map rho (remove_first x l).
Proof.
  induction l as [|y l IH]; cbn; auto.
  rewrite rho_eqb. destruct (Nat.eqb y x); cbn; auto. now rewrite IH.
Qed.

Lemma existsb_rename c l :
  existsb (Nat.eqb (rho c)) (map rho l) = existsb (Nat.eqb c) l.
Proof.
  induction l as [|y l IH]; cbn; auto. now rewrite rho_eqb, IH.
Qed.

Lemma agree_modify h1 h2 r f :
  agree h1 h2 -> D r -> agree (modify h1 r f) (modify h2 (rho r) f).
Proof.
  intros Hag Hr x Hx. destruct (Nat.eq_dec x r) as [-> | Hne].
  - rewrite !cell_modify_same. now rewrite Hag.
  - rewrite !cell_modify_other; auto.
Qed.

Lemma agree_mark_start h1 h2 r now :
  agree h1 h2 -> D r -> agree (mark_start h1 r now) (mark_start h2 (rho r) now).
Proof.
  intros Hag Hr. unfold mark_start. rewrite (Hag r Hr).
  destruct (start_time (cell h1 r) =? -1); auto using agree_modify.
Qed.

Lemma insert_by_rename key1 key2 x l :
  (forall y, In y (x :: l) -> key2 (rho y) = key1 y) ->
  insert_by key2 (rho x) (map rho l) = map rho (insert_by key1 x l).
Proof.
  induction l as [|y l IH]; intros Hkey; cbn; auto.
  rewrite (Hkey x), (Hkey y) by (cbn; auto).
  destruct (key1 x <=? key1 y); cbn; auto.
  rewrite IH; auto. intros z [<- | Hz]; apply Hkey; cbn; auto.
Qed.

Lemma sort_by_rename key1 key2 l :
  (forall y, In y l -> key2 (rho y) = key1 y) ->
  sort_by key2 (map rho l) = map rho (sort_by key1 l).
Proof.
  induction l as [|x l IH]; intros Hkey; [reflexivity|].
  change (sort_by key2 (map rho (x :: l)))
    with (insert_by key2 (rho x) (sort_by key2 (map rho l))).
  change (sort_by key1 (x :: l)) with (insert_by key1 x (sort_by key1 l)).
  rewrite IH by (intros y Hy; apply Hkey; now right).
  apply insert_by_rename. intros y [<- | Hy]; apply Hkey; [now left | right].
  eapply Permutation_in; [apply sort_by_perm | exact Hy].
Qed.

Lemma within_remaining s1 s2 :
  related s1 s2 -> within (remaining_processes s1).
Proof.
  intros Hrel r Hr. apply (rel_within _ _ _ _ Hrel). apply in_or_app. now left.
Qed.

Lemma idle_related s1 s2 :
  related s1 s2 ->
  related (idle_until_next_arrival s1) (idle_until_next_arrival s2).
Proof.
  intros Hrel. pose proof (within_remaining _ _ Hrel) as Hw.
  destruct Hrel as [Hh Ht Htl Hr Hq Hc Hcur Hin].
  unfold idle_until_next_arrival.
  rewrite Hr, Ht, Htl, Hq, Hc, (min_arrival_rename _ _ _ Hh Hw).
  constructor; cbn; auto.
Qed.

Lemma within_remove s1 selected :
  within (remaining_processes s1 ++ ready_queue s1 ++ completed_processes s1) ->
  D selected ->
  within (remove_first selected (remaining_processes s1) ++ ready_queue s1 ++
          completed_processes s1 ++ [selected]).
Proof.
  intros Hin Hsel r Hr.
  apply in_app_or in Hr. destruct Hr as [Hr | Hr].
  - apply Hin. apply in_or_app. left.
    clear - Hr. induction (remaining_processes s1) as [|y l IH]; cbn in *; [easy|].
    destruct (Nat.eqb y selected); [now right|].
    destruct Hr as [-> | Hr]; auto.
  - apply in_app_or in Hr. destruct Hr as [Hr | Hr].
    + apply Hin. apply in_or_app. right. apply in_or_app. now left.
    + apply in_app_or in Hr. destruct Hr as [Hr | [<- | []]]; auto.
      apply Hin. apply in_or_app. right. apply in_or_app. now right.
Qed.

Lemma run_selected_related s1 s2 h1 h2 selected e :
  related s1 s2 -> agree h1 h2 -> D selected ->
  related (run_selected s1 h1 selected e) (run_selected s2 h2 (rho selected) e).
Proof.
  intros [Hh Ht Htl Hr Hq Hc Hcur Hin] Hag Hsel.
  unfold run_selected. rewrite !cell_modify_same, (Hag selected Hsel).
  rewrite Ht, Htl, Hr, Hq, Hc. cbn.
  assert (Hag' : agree (modify h1 selected
                          (fun p => set_remaining_time (remaining_time p - e) p))
                       (modify h2 (rho selected)
                          (fun p => set_remaining_time (remaining_time p - e) p)))
    by now apply agree_modify.
  destruct (remaining_time (cell h1 selected) - e =? 0).
  - constructor; cbn; auto.
    + now apply agree_modify.
    + apply remove_first_rename.
    + now rewrite map_app.
    + now apply within_remove.
  - constructor; cbn; auto.
Qed.

Lemma preemptive_slice_rename s1 s2 h1 h2 selected :
  related s1 s2 -> agree h1 h2 -> D selected ->
  preemptive_slice h2 s2 (rho selected) = preemptive_slice h1 s1 selected.
Proof.
  intros Hrel Hag Hsel. pose proof (within_remaining _ _ Hrel) as Hw.
  unfold preemptive_slice.
  rewrite (rel_remaining _ _ _ _ Hrel), (rel_time _ _ _ _ Hrel).
  rewrite (next_event_rename _ _ _ _ Hag Hw), (Hag selected Hsel).
  reflexivity.
Qed.

Lemma same_process_rename current selected :
  same_process (option_map rho current) (rho selected) =
  same_process current selected.
Proof. destruct current; cbn; auto using rho_eqb. Qed.

Lemma available_rename s1 s2 :
  related s1 s2 ->
  filter (arrived (st_heap s2) (current_time s2)) (remaining_processes s2) =
  map rho (filter (arrived (st_heap s1) (current_time s1)) (remaining_processes s1)).
Proof.
  intros Hrel. rewrite (rel_remaining _ _ _ _ Hrel), (rel_time _ _ _ _ Hrel).
  apply filter_rename; [apply (rel_heap _ _ _ _ Hrel) | eapply within_remaining; eauto].
Qed.

Lemma within_available s1 s2 first others :
  related s1 s2 ->
  filter (arrived (st_heap s1) (current_time s1)) (remaining_processes s1) =
    first :: others ->
  within (first :: others).
Proof.
  intros Hrel Hav r Hr. rewrite <- Hav in Hr. apply filter_In in Hr.
  eapply within_remaining; eauto. tauto.
Qed.

Lemma dispatch_heap_rename h1 h2 selected now (b : bool) :
  agree h1 h2 -> D selected ->
  agree (if b then h1 else mark_start h1 selected now)
        (if b then h2 else mark_start h2 (rho selected) now).
Proof. destruct b; auto using agree_mark_start. Qed.

Lemma sjf_p_body_related s1 s2 :
  related s1 s2 -> related (sjf_p_body s1) (sjf_p_body s2).
Proof.
  intros Hrel. unfold sjf_p_body. rewrite (available_rename _ _ Hrel).
  destruct (filter _ (remaining_processes s1)) as [|first others] eqn:Hav; cbn [map].
  - now apply idle_related.
  - pose proof (within_available _ _ _ _ Hrel Hav) as Hw.
    pose proof (rel_heap _ _ _ _ Hrel) as Hh.
    rewrite (min_by_rename (fun p => remaining_time (cell (st_heap s1) p)))
      by (intros x Hx; now rewrite Hh by auto).
    set (selected := min_by _ first others).
    assert (Hsel : D selected) by (apply Hw, min_by_in).
    rewrite (rel_current _ _ _ _ Hrel), same_process_rename, (rel_time _ _ _ _ Hrel).
    pose proof (dispatch_heap_rename _ _ selected (current_time s1)
                  (same_process (current_process s1) selected) Hh Hsel) as Hag.
    rewrite (preemptive_slice_rename s1 s2 _ _ selected Hrel Hag Hsel).
    now apply run_selected_related.
Qed.

Lemma priority_body_related preemptive s1 s2 :
  related s1 s2 ->
  related (priority_body preemptive s1) (priority_body preemptive s2).
Proof.
  intros Hrel. unfold priority_body. rewrite (available_rename _ _ Hrel).
  destruct (filter _ (remaining_processes s1)) as [|first others] eqn:Hav; cbn [map].
  - now apply idle_related.
  - pose proof (within_available _ _ _ _ Hrel Hav) as Hw.
    pose proof (rel_heap _ _ _ _ Hrel) as Hh.
    rewrite (min_by_rename (fun p => priority (cell (st_heap s1) p)))
      by (intros x Hx; now rewrite Hh by auto).
    set (best := min_by _ first others).
    assert (Hbest : D best) by (apply Hw, min_by_in).
    rewrite (rel_current _ _ _ _ Hrel).
    set (selected1 := match current_process s1 with
                      | Some c => if negb preemptive && existsb (Nat.eqb c) (first :: others)
                                  then c else best
                      | None => best
                      end).
    assert (Hsame : match option_map rho (current_process s1) with
                    | Some c => if negb preemptive &&
                                   existsb (Nat.eqb c) (rho first :: map rho others)
                                then c else rho best
                    | None => rho best
                    end = rho selected1).
    { subst selected1. destruct (current_process s1) as [c|]; cbn [option_map]; auto.
      change (rho first :: map rho others) with (map rho (first :: others)).
      rewrite existsb_rename. now destruct (negb preemptive && _). }
    rewrite Hsame.
    assert (Hsel : D selected1).
    { subst selected1. destruct (current_process s1) as [c|]; auto.
      destruct (negb preemptive); cbn [andb]; auto.
      destruct (existsb (Nat.eqb c) (first :: others)) eqn:Hex; auto.
      apply existsb_exists in Hex. destruct Hex as (x & Hx & Hcx).
      apply Nat.eqb_eq in Hcx. subst. now apply Hw. }
    rewrite same_process_rename, (rel_time _ _ _ _ Hrel).
    pose proof (dispatch_heap_rename _ _ selected1 (current_time s1)
                  (same_process (current_process s1) selected1) Hh Hsel) as Hag.
    rewrite (preemptive_slice_rename s1 s2 _ _ selected1 Hrel Hag Hsel).
    rewrite (Hag selected1 Hsel).
    now apply run_selected_related.
Qed.

Lemma sjf_np_body_related s1 s2 :
  related s1 s2 -> related (sjf_np_body s1) (sjf_np_body s2).
Proof.
  intros Hrel. unfold sjf_np_body. rewrite (available_rename _ _ Hrel).
  destruct (filter _ (remaining_processes s1)) as [|first others] eqn:Hav; cbn [map].
  - now apply idle_related.
  - pose proof (within_available _ _ _ _ Hrel Hav) as Hw.
    pose proof (rel_heap _ _ _ _ Hrel) as Hh.
    rewrite (min_by_rename (fun p => burst_time (cell (st_heap s1) p)))
      by (intros x Hx; now rewrite Hh by auto).
    set (selected := min_by _ first others).
    assert (Hsel : D selected) by (apply Hw, min_by_in).
    destruct Hrel as [_ Ht Htl Hr Hq Hc Hcur Hin].
    rewrite Ht, Htl, Hr, Hq, Hc, Hcur.
    pose proof (agree_mark_start _ _ selected (current_time s1) Hh Hsel) as Hag.
    unfold execute. cbn. rewrite !cell_modify_same, (Hag selected Hsel).
    constructor; cbn; auto.
    + apply agree_modify; auto. now apply agree_modify.
    + apply remove_first_rename.
    + now rewrite map_app.
    + now apply within_remove.
Qed.

Lemma enqueue_arrived_rename h1 h2 now remaining : forall queue,
  agree h1 h2 -> within remaining ->
  enqueue_arrived h2 now (map rho remaining) (map rho queue) =
  (map rho (fst (enqueue_arrived h1 now remaining queue)),
   map rho (snd (enqueue_arrived h1 now remaining queue))).
Proof.
  induction remaining as [|r rest IH]; intros queue Hag Hin; cbn; auto.
  unfold arrival. rewrite (Hag r) by (apply Hin; now left).
  destruct (arrival_time (cell h1 r) <=? now); cbn; auto.
  replace (map rho queue ++ [rho r]) with (map rho (queue ++ [r]))
    by now rewrite map_app.
  apply IH; auto. intros x Hx. apply Hin. now right.
Qed.

Lemma enqueue_arrived_within h now remaining : forall queue,
  within (remaining ++ queue) ->
  within (fst (enqueue_arrived h now remaining queue) ++
          snd (enqueue_arrived h now remaining queue)).
Proof.
  intros queue Hin r Hr. apply Hin.
  destruct (enqueue_arrived h now remaining queue) as [remaining' queue'] eqn:Ha.
  eapply Permutation_in; [symmetry; eapply enqueue_arrived_perm; eauto | exact Hr].
Qed.

Lemma within_app l1 l2 : within (l1 ++ l2) <-> within l1 /\ within l2.
Proof.
  unfold within. split.
  - intros H. split; intros r Hr; apply H, in_or_app; auto.
  - intros [H1 H2] r Hr. apply in_app_or in Hr. destruct Hr; auto.
Qed.

Lemma rr_body_related q s1 s2 :
  related s1 s2 -> related (rr_body q s1) (rr_body q s2).
Proof.
  intros [Hh Ht Htl Hr Hq Hc Hcur Hin].
  apply within_app in Hin. destruct Hin as [Hwr Hin].
  apply within_app in Hin. destruct Hin as [Hwq Hwc].
  assert (Hwp : within (remaining_processes s1 ++ ready_queue s1))
    by (apply within_app; auto).
  unfold rr_body. rewrite Hr, Hq, Ht, Htl, Hc, Hcur.
  rewrite (enqueue_arrived_rename _ _ _ _ _ Hh Hwr).
  pose proof (enqueue_arrived_within (st_heap s1) (current_time s1) _ _ Hwp) as Hw1.
  destruct (enqueue_arrived (st_heap s1) (current_time s1)
              (remaining_processes s1) (ready_queue s1))
    as [remaining queue] eqn:Ha.
  cbn [fst snd] in *.
  apply within_app in Hw1. destruct Hw1 as [Hwrem Hwqueue].
  destruct queue as [|process queue1]; cbn [map].
  - destruct remaining as [|r rest]; cbn [map].
    + constructor; cbn; auto.
    + unfold arrival. rewrite (Hh r) by (apply Hwrem; now left).
      constructor; cbn; auto.
      all: try (intros x Hx; rewrite app_comm_cons in Hx; apply in_app_or in Hx;
                destruct Hx; now auto).
  - assert (Hproc : D process) by (apply Hwqueue; now left).
    assert (Hwq1 : within queue1) by (intros x Hx; apply Hwqueue; now right).
    pose proof (agree_mark_start _ _ process (current_time s1) Hh Hproc) as Hag1.
    set (h1 := mark_start (st_heap s1) process (current_time s1)) in *.
    set (h2 := mark_start (st_heap s2) (rho process) (current_time s1)) in *.
    rewrite (Hag1 process Hproc).
    set (e := Z.min q (remaining_time (cell h1 process))).
    assert (Hag2 : agree (modify h1 process
                            (fun p => set_remaining_time (remaining_time p - e) p))
                         (modify h2 (rho process)
                            (fun p => set_remaining_time (remaining_time p - e) p)))
      by now apply agree_modify.
    rewrite !cell_modify_same, (Hag1 process Hproc).
    rewrite (enqueue_arrived_rename _ _ _ _ _ Hag2 Hwrem).
    assert (Hwp1 : within (remaining ++ queue1)) by (apply within_app; auto).
    pose proof (enqueue_arrived_within
                  (modify h1 process
                     (fun p => set_remaining_time (remaining_time p - e) p))
                  (current_time s1 + e) _ _ Hwp1) as Hw2.
    destruct (enqueue_arrived _ (current_time s1 + e) remaining queue1)
      as [remaining2 queue2] eqn:Ha2.
    cbn [fst snd] in *.
    apply within_app in Hw2. destruct Hw2 as [Hwrem2 Hwqueue2].
    cbn.
    destruct (remaining_time (cell h1 process) - e >? 0).
    + constructor; cbn; auto.
      * now rewrite map_app.
      * apply within_app. split; auto. apply within_app. split; auto.
        apply within_app. split; auto. intros x [<- | []]. exact Hproc.
    + constructor; cbn; auto.
      * now apply agree_modify.
      * now rewrite map_app.
      * apply within_app. split; auto. apply within_app. split; auto.
        apply within_app. split; auto. intros x [<- | []]. exact Hproc.
Qed.

Lemma fcfs_step_related h1 h2 now tl r :
  agree h1 h2 -> D r ->
  agree (fst (fst (fcfs_step (h1, now, tl) r)))
        (fst (fst (fcfs_step (h2, now, tl) (rho r)))) /\
  snd (fst (fcfs_step (h2, now, tl) (rho r))) =
    snd (fst (fcfs_step (h1, now, tl) r)) /\
  snd (fcfs_step (h2, now, tl) (rho r)) = snd (fcfs_step (h1, now, tl) r).
Proof.
  intros Hag Hr. unfold fcfs_step, execute, arrival. rewrite (Hag r Hr).
  set (now1 := if now <? arrival_time (cell h1 r)
               then arrival_time (cell h1 r) else now).
  pose proof (agree_mark_start _ _ r now1 Hag Hr) as Hag1.
  cbn. rewrite !cell_modify_same, (Hag1 r Hr). repeat split.
  apply agree_modify; auto. now apply agree_modify.
Qed.

Lemma fcfs_fold_related l : forall h1 h2 now tl,
  agree h1 h2 -> within l ->
  agree (fst (fst (fold_left fcfs_step l (h1, now, tl))))
        (fst (fst (fold_left fcfs_step (map rho l) (h2, now, tl)))) /\
  snd (fold_left fcfs_step (map rho l) (h2, now, tl)) =
    snd (fold_left fcfs_step l (h1, now, tl)).
Proof.
  induction l as [|r l IH]; intros h1 h2 now tl Hag Hin; cbn [map fold_left].
  - auto.
  - destruct (fcfs_step_related h1 h2 now tl r Hag) as (Hag' & Hnow & Htl).
    { apply Hin. now left. }
    destruct (fcfs_step (h1, now, tl) r) as [[h1' now1] tl1].
    destruct (fcfs_step (h2, now, tl) (rho r)) as [[h2' now2] tl2].
    cbn in Hag', Hnow, Htl. subst now2 tl2.
    apply IH; auto. intros x Hx. apply Hin. now right.
Qed.

Lemma has_remaining_related s1 s2 :
  related s1 s2 -> has_remaining s2 = has_remaining s1.
Proof.
  intros Hrel. unfold has_remaining. rewrite (rel_remaining _ _ _ _ Hrel).
  now destruct (remaining_processes s1).
Qed.

Lemma rr_pending_related s1 s2 :
  related s1 s2 -> rr_pending s2 = rr_pending s1.
Proof.
  intros Hrel. unfold rr_pending.
  rewrite (rel_remaining _ _ _ _ Hrel), (rel_queue _ _ _ _ Hrel).
  now destruct (remaining_processes s1), (ready_queue s1).
Qed.

End Renaming.

Lemma while_related {St : Type} (R : St -> St -> Prop)
      (cond : St -> bool) (body : St -> St) :
  (forall s1 s2, R s1 s2 -> cond s2 = cond s1 /\ R (body s1) (body s2)) ->
  forall fuel s1 s2, R s1 s2 ->
  match while cond body fuel s1, while cond body fuel s2 with
  | Some a, Some b => R a b
  | None, None => True
  | _, _ => False
  end.
Proof.
  intros Hstep. induction fuel as [|n IH]; intros s1 s2 HR; simpl;
    destruct (Hstep s1 s2 HR) as [-> HR']; destruct (cond s1); auto.
  now apply IH.
Qed.

Lemma same_outcome_sym o1 o2 : same_outcome o1 o2 -> same_outcome o2 o1.
Proof.
  destruct o1, o2; cbn; auto. intros [H1 H2]. auto.
Qed.

Lemma map_pointwise {A B : Type} (f g : A -> B) (l : list A) :
  map f l = map g l -> forall x, In x l -> f x = g x.
Proof.
  induction l as [|y l IH]; cbn; intros Heq x Hx; [easy|].
  inversion Heq. destruct Hx as [<- | Hx]; auto.
Qed.

Lemma map_shift_seq d b n : map (fun r => (r + d)%nat) (seq b n) = seq (b + d) n.
Proof.
  revert b. induction n as [|n IH]; intros b; cbn; auto.
  f_equal. apply (IH (S b)).
Qed.

Lemma related_finish rho D s1 s2 :
  related rho D s1 s2 ->
  same_outcome (Returned (run_of s1)) (Returned (run_of s2)).
Proof.
  intros [Hh Ht Htl Hr Hq Hc Hcur Hin]. cbn. split; auto.
  rewrite Hc. unfold records. rewrite map_map. apply map_ext_in.
  intros x Hx. symmetry. apply Hh. apply Hin.
  apply in_or_app. right. apply in_or_app. now right.
Qed.

Lemma while_same_outcome rho D cond body fuel s1 s2 :
  (forall a b, related rho D a b ->
               cond b = cond a /\ related rho D (body a) (body b)) ->
  related rho D s1 s2 ->
  same_outcome (finish (while cond body fuel s1)) (finish (while cond body fuel s2)).
Proof.
  intros Hstep Hrel.
  pose proof (while_related (related rho D) cond body Hstep fuel s1 s2 Hrel) as Hw.
  destruct (while cond body fuel s1), (while cond body fuel s2); try easy.
  eapply related_finish; eauto.
Qed.

(** Equal inputs give equal outcomes when the second heap allocates at or
    above the first. *)
Lemma schedule_shift alg fuel h1 processes1 h2 processes2 :
  allocated h1 processes1 -> allocated h2 processes2 ->
  map fresh_copy (records h1 processes1) = map fresh_copy (records h2 processes2) ->
  (next_ref h1 <= next_ref h2)%nat ->
  same_outcome (schedule alg fuel h1 processes1) (schedule alg fuel h2 processes2).
Proof.
  intros Hall1 Hall2 Heq Hle.
  destruct (copy_processes h1 processes1) as [h01 copies1] eqn:Hc1.
  destruct (copy_processes h2 processes2) as [h02 copies2] eqn:Hc2.
  destruct (copy_processes_spec _ _ _ _ Hc1) as (Hl1 & _ & _ & Hv1).
  destruct (copy_processes_spec _ _ _ _ Hc2) as (Hl2 & _ & _ & Hv2).
  specialize (Hv1 Hall1). specialize (Hv2 Hall2).
  unfold records in Heq. rewrite !map_map in Heq.
  assert (Hlen : length processes1 = length processes2).
  { apply (f_equal (@length Process)) in Heq. now rewrite !length_map in Heq. }
  set (d := (next_ref h2 - next_ref h1)%nat).
  set (rho := fun r : ref => (r + d)%nat).
  set (D := fun r : ref => In r copies1).
  assert (Hinj : forall x y, rho x = rho y -> x = y) by (unfold rho; intros; lia).
  assert (Hcopies : copies2 = map rho copies1).
  { rewrite Hl1, Hl2. unfold rho. rewrite map_shift_seq, Hlen. f_equal. unfold d. lia. }
  assert (Hag : agree rho D h01 h02).
  { intros r Hr.
    apply (map_pointwise (fun r => cell h02 (rho r)) (cell h01) copies1); auto.
    transitivity (map (cell h02) (map rho copies1)); [now rewrite map_map|].
    rewrite <- Hcopies, Hv1, Hv2. symmetry. exact Heq. }
  set (sorted1 := sort_by (arrival h01) copies1).
  assert (Hsorted : sort_by (arrival h02) copies2 = map rho sorted1).
  { rewrite Hcopies.
    apply (sort_by_rename rho Hinj (arrival h01) (arrival h02) copies1).
    intros y Hy. exact (f_equal arrival_time (Hag y Hy)). }
  assert (Hw : within D sorted1).
  { intros r Hr. unfold D. eapply Permutation_in; [apply sort_by_perm | exact Hr]. }
  assert (Hinit : forall t, related rho D (mkState h01 t [] sorted1 [] [] None)
                                    (mkState h02 t [] (map rho sorted1) [] [] None)).
  { intros t. constructor; cbn; auto. now rewrite app_nil_r. }
  destruct alg as [| | |pre|q]; cbn.
  - unfold fcfs. rewrite Hc1, Hc2, Hsorted. fold sorted1.
    set (a1 := fold_left fcfs_step sorted1 (h01, 0, [])).
    set (a2 := fold_left fcfs_step (map rho sorted1) (h02, 0, [])).
    assert (Hrel : agree rho D (fst (fst a1)) (fst (fst a2)) /\ snd a2 = snd a1)
      by (apply fcfs_fold_related; auto).
    clearbody a1 a2. destruct a1 as [[h1' t1] tl1], a2 as [[h2' t2] tl2].
    cbn in Hrel. destruct Hrel as [Hag' Htl].
    cbn. split; [now symmetry|].
    unfold records. rewrite map_map. apply map_ext_in.
    intros x Hx. symmetry. apply Hag'. now apply Hw.
  - unfold sjf_non_preemptive. rewrite Hc1, Hc2, Hsorted. fold sorted1.
    apply (while_same_outcome rho D); [|apply Hinit].
    intros a b Hab. split.
    + now apply (has_remaining_related rho D).
    + now apply sjf_np_body_related.
  - unfold sjf_preemptive. rewrite Hc1, Hc2, Hsorted. fold sorted1.
    apply (while_same_outcome rho D); [|apply Hinit].
    intros a b Hab. split.
    + now apply (has_remaining_related rho D).
    + now apply sjf_p_body_related.
  - unfold priority_scheduling. rewrite Hc1, Hc2, Hsorted. fold sorted1.
    apply (while_same_outcome rho D); [|apply Hinit].
    intros a b Hab. split.
    + now apply (has_remaining_related rho D).
    + now apply priority_body_related.
  - unfold round_robin. rewrite Hc1, Hc2, Hsorted. fold sorted1.
    apply (while_same_outcome rho D).
    + intros a b Hab. split.
      * now apply (rr_pending_related rho D).
      * now apply rr_body_related.
    + unfold rr_init. clearbody sorted1.
      destruct sorted1 as [|r l]; [apply Hinit|].
      cbn [map].
      replace (arrival h02 (rho r)) with (arrival h01 r); [apply (Hinit _)|].
      symmetry. apply (f_equal arrival_time (Hag r (Hw r (or_introl eq_refl)))).
Qed.

(** Equal inputs give equal outcomes: the outcome of a call is a function of
    the caller-supplied attributes of the listed processes alone. *)
Lemma schedule_deterministic alg fuel h1 processes1 h2 processes2 :
  allocated h1 processes1 -> allocated h2 processes2 ->
  map fresh_copy (records h1 processes1) = map fresh_copy (records h2 processes2) ->
  same_outcome (schedule alg fuel h1 processes1) (schedule alg fuel h2 processes2).
Proof.
  intros Hall1 Hall2 Heq.
  destruct (Nat.le_ge_cases (next_ref h1) (next_ref h2)) as [Hle | Hge].
  - now apply schedule_shift.
  - apply same_outcome_sym. now apply schedule_shift.
Qed.

(** [calculate_metrics] only reads the records of the listed processes. *)
Lemma calculate_metrics_records (number : Type) (of_int : Z -> number)
      (true_div : Z -> Z -> number) (mul_int : number -> Z -> number)
      h1 l1 h2 l2 :
  records h1 l1 = records h2 l2 ->
  calculate_metrics number of_int true_div mul_int h1 l1 =
  calculate_metrics number of_int true_div mul_int h2 l2.
Proof.
  intros Heq. unfold records in Heq.
  assert (Hlen : length l1 = length l2).
  { apply (f_equal (@length Process)) in Heq. now rewrite !length_map in Heq. }
  assert (Hempty : is_empty l1 = is_empty l2).
  { destruct l1, l2; auto; discriminate. }
  assert (Hsum : forall f, py_sum f h1 l1 = py_sum f h2 l2).
  { intros f. unfold py_sum.
    rewrite <- (map_map (cell h1) f), <- (map_map (cell h2) f). now rewrite Heq. }
  assert (Hmax : max_completion h1 l1 = max_completion h2 l2).
  { destruct l1 as [|a l1], l2 as [|b l2]; try discriminate; auto.
    cbn in Heq. inversion Heq as [[Hhd Htl]]. unfold max_completion.
    rewrite <- (map_map (cell h1) completion_time),
            <- (map_map (cell h2) completion_time).
    now rewrite Htl, Hhd. }
  assert (Hmin : min_arrival h1 l1 = min_arrival h2 l2).
  { destruct l1 as [|a l1], l2 as [|b l2]; try discriminate; auto.
    cbn in Heq. inversion Heq as [[Hhd Htl]]. unfold min_arrival.
    rewrite <- (map_map (cell h1) arrival_time),
            <- (map_map (cell h2) arrival_time).
    now rewrite Htl, Hhd. }
  unfold calculate_metrics. now rewrite Hempty, !Hsum, Hmax, Hmin, Hlen.
Qed.

(** C8: every algorithm is deterministic.  Two calls of the same function
    with the same parameters, on lists of processes with equal pid,
    arrival_time, burst_time and priority, in whatever heaps and whatever
    ran before, either both run out of the same fuel or both return, with
    identical timelines and identical finalized records, on which
    [calculate_metrics] returns identical metrics. *)
Theorem C8_deterministic alg fuel h1 processes1 h2 processes2 :
  allocated h1 processes1 -> allocated h2 processes2 ->
  map fresh_copy (records h1 processes1) = map fresh_copy (records h2 processes2) ->
  match schedule alg fuel h1 processes1, schedule alg fuel h2 processes2 with
  | Returned r1, Returned r2 =>
      res_timeline r1 = res_timeline r2 /\
      records (res_heap r1) (res_processes r1) =
      records (res_heap r2) (res_processes r2) /\
      forall (number : Type) (of_int : Z -> number)
             (true_div : Z -> Z -> number) (mul_int : number -> Z -> number),
        calculate_metrics number of_int true_div mul_int
                          (res_heap r1) (res_processes r1) =
        calculate_metrics number of_int true_div mul_int
                          (res_heap r2) (res_processes r2)
  | OutOfFuel, OutOfFuel => True
  | _, _ => False
  end.
Proof.
  intros Hall1 Hall2 Heq.
  pose proof (schedule_deterministic alg fuel _ _ _ _ Hall1 Hall2 Heq) as Hsame.
  pose proof (schedule_never_raises alg fuel h1 processes1) as Hno.
  destruct (schedule alg fuel h1 processes1) as [r1|e1|],
           (schedule alg fuel h2 processes2) as [r2|e2|]; cbn in Hsame; auto.
  - destruct Hsame as [Htl Hrec]. repeat split; auto.
    intros. now apply calculate_metrics_records.
  - now destruct (Hno e1).
Qed.

(** Running an algorithm a second time, on the heap the first run left: the
    caller's list is still allocated and holds the same records (C7), so the
    second run is as the first. *)
Lemma schedule_rerun alg fuel h processes r1 :
  allocated h processes ->
  schedule alg fuel h processes = Returned r1 ->
  same_outcome (Returned r1) (schedule alg fuel (res_heap r1) processes).
Proof.
  intros Hall Hret. rewrite <- Hret.
  destruct (schedule_frame _ _ _ _ _ Hret) as [Hkeep Hnext].
  apply schedule_deterministic; auto.
  - unfold allocated in *. eapply Forall_impl; [|exact Hall]. cbn. intros; lia.
  - f_equal. unfold records. apply map_ext_in. intros a Ha. symmetry. apply Hkeep.
    unfold allocated in Hall. rewrite Forall_forall in Hall. now apply Hall.
Qed.

Lemma C8_deterministic_witness :
  match schedule (RR 2) 20 two_processes [0; 1]%nat,
        schedule (RR 2) 20 two_processes_later [3; 4]%nat with
  | Returned r1, Returned r2 =>
      res_timeline r1 = res_timeline r2 /\
      records (res_heap r1) (res_processes r1) =
      records (res_heap r2) (res_processes r2) /\
      forall (number : Type) (of_int : Z -> number)
             (true_div : Z -> Z -> number) (mul_int : number -> Z -> number),
        calculate_metrics number of_int true_div mul_int
                          (res_heap r1) (res_processes r1) =
        calculate_metrics number of_int true_div mul_int
                          (res_heap r2) (res_processes r2)
  | OutOfFuel, OutOfFuel => True
  | _, _ => False
  end.
Proof.
  apply (C8_deterministic (RR 2) 20 two_processes [0; 1]%nat
                          two_processes_later [3; 4]%nat).
  - repeat constructor.
  - repeat constructor.
  - reflexivity.
Defined.

(** * Further properties of the code *)

(** ** Lemmas: every loop body is a step with its bookkeeping *)

Lemma tstep_astep s s' : tstep s s' -> astep false s s'.
Proof.
  intros [r Hh Hr Har Ht Hall Htl Hp Hc Hcur
         | r e Hin Harr He Hse Hrem Hst Hoth Hnext Htl Ht Hfin Hcur].
  - apply astep_idle with (r := r); auto.
  - apply astep_run with (r := r) (e := e); auto.
    + destruct He as [He | He]; auto.
    + destruct (remaining_time (cell (st_heap s') r) =? 0); tauto.
Qed.

Lemma tsteps_steps s0 s : tsteps s0 s -> steps false s0 s.
Proof.
  induction 1; [constructor | econstructor; eauto using tstep_astep].
Qed.

Lemma derived_finalize now p : derived (finalize now p).
Proof. repeat split. Qed.

Lemma start_time_mark_start h r now :
  start_time (cell (mark_start h r now) r) =
  (if start_time (cell h r) =? -1 then now else start_time (cell h r)).
Proof.
  unfold mark_start. destruct (start_time (cell h r) =? -1) eqn:Hs.
  - now rewrite cell_modify_same.
  - reflexivity.
Qed.

Lemma idle_until_next_arrival_tstep s :
  remaining_processes s <> [] -> ready_queue s = [] ->
  filter (arrived (st_heap s) (current_time s)) (remaining_processes s) = [] ->
  tstep s (idle_until_next_arrival s).
Proof.
  intros Hne Hq Hnil.
  destruct (min_arrival_spec (st_heap s) _ Hne) as ((r & Hr & Har) & Hlow).
  pose proof (filter_nil_none _ _ Hnil r Hr) as Hlate.
  unfold arrived in Hlate. apply Z.leb_gt in Hlate.
  assert (Hlt : (current_time s <? min_arrival (st_heap s) (remaining_processes s)) = true)
    by (apply Z.ltb_lt; lia).
  apply tstep_idle with (r := r); unfold idle_until_next_arrival; simpl; auto.
  - unfold pending. apply in_or_app. now left.
  - lia.
  - unfold pending. rewrite Hq, app_nil_r. exact Hlow.
  - now rewrite Hlt.
  - discriminate.
Qed.

Lemma run_selected_tstep s h1 selected e :
  In selected (remaining_processes s) ->
  arrival (st_heap s) selected <= current_time s ->
  (forall a, a <> selected -> cell h1 a = cell (st_heap s) a) ->
  static_eq (cell (st_heap s) selected) (cell h1 selected) ->
  remaining_time (cell h1 selected) = remaining_time (cell (st_heap s) selected) ->
  start_time (cell h1 selected) =
    (if start_time (cell (st_heap s) selected) =? -1 then current_time s
     else start_time (cell (st_heap s) selected)) ->
  next_ref h1 = next_ref (st_heap s) ->
  (e = remaining_time (cell (st_heap s) selected) \/
   0 < e < remaining_time (cell (st_heap s) selected)) ->
  tstep s (run_selected s h1 selected e).
Proof.
  intros Hin Harr Hoth Hst Hrem Hstart Hnext He.
  assert (Hpend : In selected (pending s)) by (apply in_or_app; now left).
  destruct Hst as (Hpid & Harr' & Hburst & Hprio).
  unfold run_selected. rewrite cell_modify_same. cbn.
  destruct (remaining_time (cell h1 selected) - e =? 0) eqn:Hz.
  - apply tstep_run with (r := selected) (e := e); cbn; auto;
      rewrite ?cell_modify_same; cbn; auto.
    + repeat split; cbn; auto.
    + lia.
    + intros a Ha. rewrite !cell_modify_other by auto. now apply Hoth.
    + now rewrite Hpid.
    + rewrite Hz. unfold completion. rewrite cell_modify_same. cbn.
      repeat split; auto.
      unfold pending. cbn.
      apply (Permutation_app_tail (ready_queue s)
               (remove_first_perm selected (remaining_processes s) Hin)).
    + discriminate.
  - apply tstep_run with (r := selected) (e := e); cbn; auto;
      rewrite ?cell_modify_same; cbn; auto.
    + repeat split; cbn; auto.
    + lia.
    + intros a Ha. rewrite !cell_modify_other by auto. now apply Hoth.
    + now rewrite Hpid.
    + rewrite Hz. split; auto.
    + intros c Hc. inversion Hc. now left.
Qed.

Lemma sjf_np_body_tstep s :
  has_remaining s = true -> ready_queue s = [] -> tstep s (sjf_np_body s).
Proof.
  intros Hc Hq. unfold has_remaining in Hc. unfold sjf_np_body.
  destruct (filter _ (remaining_processes s)) as [|first others] eqn:Hav.
  - apply idle_until_next_arrival_tstep; auto.
    intros Hnil. rewrite Hnil in Hc. discriminate.
  - set (selected := min_by _ first others).
    assert (Hin : In selected (remaining_processes s) /\
                  arrival (st_heap s) selected <= current_time s).
    { pose proof (min_by_in (fun p => burst_time (cell (st_heap s) p)) first others) as Hm.
      fold selected in Hm. rewrite <- Hav in Hm.
      now apply available_in in Hm. }
    destruct Hin as [Hin Harr0].
    destruct (mark_start_same (st_heap s) selected (current_time s))
      as ((Hpid & Harr & Hburst & Hprio) & Hrem & Hnext).
    pose proof (start_time_mark_start (st_heap s) selected (current_time s)) as Hstart.
    unfold execute. cbn.
    apply tstep_run with (r := selected)
                         (e := remaining_time (cell (st_heap s) selected));
      cbn; rewrite ?cell_modify_same; cbn; auto.
    + apply in_or_app. now left.
    + repeat split; cbn; auto.
    + lia.
    + intros a Ha. rewrite !cell_modify_other by auto.
      now apply cell_mark_start_other.
    + now rewrite Hpid, Hrem.
    + now rewrite Hrem.
    + unfold completion. rewrite cell_modify_same. cbn.
      rewrite Hrem. repeat split; auto.
      unfold pending. cbn.
      apply (Permutation_app_tail (ready_queue s)
               (remove_first_perm selected (remaining_processes s) Hin)).
Qed.

(** The stamp a dispatch leaves, given that a process recorded as running
    has been stamped before. *)
Lemma dispatch_heap_start s selected :
  (forall c, current_process s = Some c ->
             start_time (cell (st_heap s) c) <> -1) ->
  start_time
    (cell (if same_process (current_process s) selected then st_heap s
           else mark_start (st_heap s) selected (current_time s)) selected) =
  (if start_time (cell (st_heap s) selected) =? -1 then current_time s
   else start_time (cell (st_heap s) selected)).
Proof.
  intros Hcur. destruct (same_process (current_process s) selected) eqn:Hsame.
  - unfold same_process in Hsame. destruct (current_process s) as [c|]; [|discriminate].
    apply Nat.eqb_eq in Hsame. subst c.
    specialize (Hcur selected eq_refl).
    destruct (Z.eqb_spec (start_time (cell (st_heap s) selected)) (-1)); congruence.
  - apply start_time_mark_start.
Qed.

Lemma sjf_p_body_tstep s :
  has_remaining s = true -> ready_queue s = [] ->
  (forall c, current_process s = Some c ->
             start_time (cell (st_heap s) c) <> -1) ->
  tstep s (sjf_p_body s).
Proof.
  intros Hc Hq Hcur. unfold has_remaining in Hc. unfold sjf_p_body.
  destruct (filter _ (remaining_processes s)) as [|first others] eqn:Hav.
  - apply idle_until_next_arrival_tstep; auto.
    intros Hnil. rewrite Hnil in Hc. discriminate.
  - set (selected := min_by _ first others).
    assert (Hin : In selected (remaining_processes s) /\
                  arrival (st_heap s) selected <= current_time s).
    { pose proof (min_by_in (fun p => remaining_time (cell (st_heap s) p)) first others) as Hm.
      fold selected in Hm. rewrite <- Hav in Hm.
      now apply available_in in Hm. }
    destruct Hin as [Hin Harr0].
    destruct (dispatch_heap (st_heap s) selected (current_time s)
                (same_process (current_process s) selected))
      as (Hoth & Hst & Hrem & Hnext).
    apply run_selected_tstep; auto.
    + now apply dispatch_heap_start.
    + rewrite <- Hrem. apply preemptive_slice_cases.
Qed.

Lemma priority_body_tstep preemptive s :
  has_remaining s = true -> ready_queue s = [] ->
  (forall c, current_process s = Some c ->
             start_time (cell (st_heap s) c) <> -1) ->
  tstep s (priority_body preemptive s).
Proof.
  intros Hc Hq Hcur. unfold has_remaining in Hc. unfold priority_body.
  destruct (filter _ (remaining_processes s)) as [|first others] eqn:Hav.
  - apply idle_until_next_arrival_tstep; auto.
    intros Hnil. rewrite Hnil in Hc. discriminate.
  - set (best := min_by _ first others).
    set (selected := match current_process s with
                     | Some c => if negb preemptive && existsb (Nat.eqb c) (first :: others)
                                 then c else best
                     | None => best
                     end).
    assert (Hbest : In best (first :: others)) by apply min_by_in.
    assert (Hsel : In selected (first :: others)).
    { subst selected. destruct (current_process s) as [c|]; auto.
      destruct (negb preemptive); cbn [andb]; auto.
      destruct (existsb (Nat.eqb c) (first :: others)) eqn:Hex; auto.
      apply existsb_exists in Hex. destruct Hex as (x & Hx & Hcx).
      apply Nat.eqb_eq in Hcx. now subst. }
    assert (Hin : In selected (remaining_processes s) /\
                  arrival (st_heap s) selected <= current_time s).
    { rewrite <- Hav in Hsel. now apply available_in in Hsel. }
    destruct Hin as [Hin Harr0].
    destruct (dispatch_heap (st_heap s) selected (current_time s)
                (same_process (current_process s) selected))
      as (Hoth & Hst & Hrem & Hnext).
    apply run_selected_tstep; auto.
    + now apply dispatch_heap_start.
    + rewrite <- Hrem. destruct preemptive; cbn; auto.
      apply preemptive_slice_cases.
Qed.

Lemma sorted_suffix key (l1 l2 : list ref) :
  StronglySorted (key_le key) (l1 ++ l2) -> StronglySorted (key_le key) l2.
Proof.
  induction l1 as [|x l1 IH]; cbn; intros Hs; auto.
  inversion Hs; subst. auto.
Qed.

Lemma sorted_head key (r : ref) (l : list ref) :
  StronglySorted (key_le key) (r :: l) ->
  forall x, In x (r :: l) -> key r <= key x.
Proof.
  intros Hs x Hx. inversion Hs as [|? ? _ Hall]; subst.
  destruct Hx as [<- | Hx]; [lia|].
  rewrite Forall_forall in Hall. apply (Hall x Hx).
Qed.

Lemma rr_body_tstep q s :
  0 < q -> rr_pending s = true -> rr_lists s -> tstep s (rr_body q s).
Proof.
  intros Hq Hc [Hsorted Hqueued]. unfold rr_body.
  destruct (enqueue_arrived (st_heap s) (current_time s) (remaining_processes s) (ready_queue s))
    as [remaining queue] eqn:Ha.
  pose proof (enqueue_arrived_perm _ _ _ _ _ _ Ha) as Hperm.
  destruct (enqueue_arrived_spec _ _ _ _ _ _ Ha) as (moved & Hrem & Hqueue & Hmoved & Hhd).
  destruct queue as [|process queue1].
  - assert (ready_queue s = [] /\ moved = []) as [Hq0 ->].
    { destruct (ready_queue s); [|discriminate].
      destruct moved; [auto | discriminate]. }
    cbn in Hrem.
    destruct remaining as [|r rest].
    + unfold rr_pending in Hc. rewrite Hq0, Hrem in Hc. discriminate.
    + assert (Hlt : (current_time s <? arrival (st_heap s) r) = true)
        by now apply Z.ltb_lt.
      apply tstep_idle with (r := r); cbn; auto.
      all: try (unfold pending; cbn; rewrite ?Hlt, ?Hrem, ?Hq0; cbn; now auto).
      unfold pending. rewrite Hq0, app_nil_r, Hrem.
      rewrite Hrem in Hsorted. exact (sorted_head _ _ _ Hsorted).
  - set (h := st_heap s) in *.
    set (h1 := mark_start h process (current_time s)).
    destruct (dispatch_heap h process (current_time s) false)
      as (Hoth & (Hpid & Harr & Hburst & Hprio) & Hrm & Hnext).
    fold h1 in Hoth, Hpid, Harr, Hburst, Hprio, Hrm, Hnext.
    pose proof (start_time_mark_start h process (current_time s)) as Hstart.
    fold h1 in Hstart.
    set (e := Z.min q (remaining_time (cell h1 process))).
    rewrite cell_modify_same. cbn.
    destruct (enqueue_arrived (modify h1 process _) (current_time s + e) remaining queue1)
      as [remaining2 queue2] eqn:Ha2.
    pose proof (enqueue_arrived_perm _ _ _ _ _ _ Ha2) as Hperm2.
    assert (Hin : In process (pending s)).
    { unfold pending. eapply Permutation_in; [symmetry; exact Hperm|].
      apply in_or_app. right. now left. }
    assert (Harrived : arrival h process <= current_time s).
    { assert (Hp : In process (ready_queue s ++ moved))
        by (rewrite <- Hqueue; now left).
      apply in_app_or in Hp. destruct Hp as [Hp | Hp]; [now apply Hqueued|].
      rewrite Forall_forall in Hmoved. now apply Hmoved. }
    assert (Hp : Permutation (pending s) (process :: remaining2 ++ queue2)).
    { unfold pending. rewrite Hperm. rewrite <- Hperm2.
      symmetry. apply Permutation_middle. }
    destruct (Z.gtb_spec (remaining_time (cell h1 process) - e) 0) as [Hpos | Hzero].
    + apply tstep_run with (r := process) (e := e); cbn; auto;
        rewrite ?cell_modify_same; cbn; auto.
      * fold h. rewrite <- Hrm. right. unfold e in *. lia.
      * repeat split; cbn; auto.
      * fold h. lia.
      * intros a Hne. rewrite cell_modify_other by auto. now apply Hoth.
      * fold h. now rewrite Hpid.
      * destruct (Z.eqb_spec (remaining_time (cell h1 process) - e) 0); [lia|].
        split; auto.
        rewrite Hp, app_assoc. apply Permutation_cons_append.
    + assert (Hz : remaining_time (cell h1 process) - e = 0) by (unfold e in *; lia).
      apply tstep_run with (r := process) (e := e); cbn; auto;
        rewrite ?cell_modify_same; cbn; auto.
      * fold h. left. lia.
      * repeat split; cbn; auto.
      * fold h. lia.
      * intros a Hne. rewrite !cell_modify_other by auto. now apply Hoth.
      * fold h. now rewrite Hpid.
      * rewrite Hz. cbn. unfold completion. rewrite cell_modify_same. cbn.
        repeat split; auto.
Qed.

Lemma rr_body_lists q s :
  0 < q ->
  (forall r, In r (pending s) -> 0 < remaining_time (cell (st_heap s) r)) ->
  rr_lists s -> rr_lists (rr_body q s).
Proof.
  intros Hq Hpos [Hsorted Hqueued]. unfold rr_body.
  destruct (enqueue_arrived (st_heap s) (current_time s) (remaining_processes s) (ready_queue s))
    as [remaining queue] eqn:Ha.
  pose proof (enqueue_arrived_perm _ _ _ _ _ _ Ha) as Hperm.
  destruct (enqueue_arrived_spec _ _ _ _ _ _ Ha) as (moved & Hrem & Hqueue & Hmoved & Hhd).
  assert (Hsorted1 : StronglySorted (key_le (arrival (st_heap s))) remaining).
  { rewrite Hrem in Hsorted. now apply sorted_suffix in Hsorted. }
  destruct queue as [|process queue1].
  - destruct remaining as [|r rest]; constructor; cbn; auto; easy.
  - set (h := st_heap s) in *.
    set (h1 := mark_start h process (current_time s)).
    set (e := Z.min q (remaining_time (cell h1 process))).
    rewrite cell_modify_same. cbn.
    set (h2 := modify h1 process _).
    destruct (enqueue_arrived h2 (current_time s + e) remaining queue1)
      as [remaining2 queue2] eqn:Ha2.
    destruct (enqueue_arrived_spec _ _ _ _ _ _ Ha2)
      as (moved2 & Hrem2 & Hqueue2 & Hmoved2 & _).
    assert (Harr2 : forall a, arrival h2 a = arrival h a).
    { intros a. unfold h2. rewrite arrival_modify by reflexivity.
      apply arrival_mark_start. }
    assert (Hin : In process (pending s)).
    { unfold pending. eapply Permutation_in; [symmetry; exact Hperm|].
      apply in_or_app. right. now left. }
    assert (He : 0 < e).
    { unfold e. destruct (mark_start_same h process (current_time s)) as (_ & Hrm & _).
      fold h1 in Hrm. rewrite Hrm. specialize (Hpos process Hin). fold h in Hpos. lia. }
    assert (Hq1 : forall x, In x (process :: queue1) -> arrival h x <= current_time s).
    { intros x Hx. rewrite Hqueue in Hx. apply in_app_or in Hx.
      destruct Hx as [Hx | Hx]; [now apply Hqueued|].
      rewrite Forall_forall in Hmoved. now apply Hmoved. }
    assert (Hq2 : forall x, In x queue2 -> arrival h x <= current_time s + e).
    { intros x Hx. rewrite Hqueue2 in Hx. apply in_app_or in Hx.
      destruct Hx as [Hx | Hx].
      - specialize (Hq1 x (or_intror Hx)). lia.
      - rewrite Forall_forall in Hmoved2. rewrite <- Harr2. now apply Hmoved2. }
    assert (Hs2 : StronglySorted (key_le (arrival h)) remaining2).
    { rewrite Hrem2 in Hsorted1. now apply sorted_suffix in Hsorted1. }
    destruct (remaining_time (cell h1 process) - e >? 0).
    + constructor; cbn.
      * eapply sorted_key_ext; [|exact Hs2]. intros a. now rewrite Harr2.
      * intros x Hx. rewrite Harr2. apply in_app_or in Hx.
        destruct Hx as [Hx | [<- | []]]; auto.
        specialize (Hq1 process (or_introl eq_refl)). lia.
    + assert (Harr3 : forall a, arrival (modify h2 process (finalize (current_time s + e))) a
                                = arrival h a).
      { intros a. rewrite arrival_modify by reflexivity. apply Harr2. }
      constructor; cbn.
      * eapply sorted_key_ext; [|exact Hs2]. intros a. now rewrite Harr3.
      * intros x Hx. rewrite Harr3. auto.
Qed.

Lemma tidy_step s0 s s' :
  sound s0 s -> tidy s -> tstep s s' -> tidy s'.
Proof.
  intros Hsound [Hclock Hcurrent] Hstep.
  destruct Hstep as [r Hh Hr Har Ht Hall Htl Hp Hc Hcur
                    | r e Hin Harr He Hse Hrem Hst Hoth Hnext Htl Ht Hfin Hcur].
  - constructor; [lia|]. intros c Hc'. rewrite Hh. auto.
  - pose proof (snd_pos _ _ Hsound r Hin) as Hpos.
    assert (Hr : start_time (cell (st_heap s') r) <> -1).
    { rewrite Hst.
      destruct (Z.eqb_spec (start_time (cell (st_heap s) r)) (-1)); lia. }
    constructor; [lia|]. intros c Hc'.
    destruct (Nat.eq_dec c r) as [-> | Hne]; auto.
    rewrite Hoth by auto. destruct (Hcur c Hc') as [-> | Hold]; [congruence | auto].
Qed.

Lemma while_exit {St : Type} (cond : St -> bool) (body : St -> St) :
  forall fuel s s', while cond body fuel s = Some s' -> cond s' = false.
Proof.
  induction fuel as [|n IH]; intros s s' Hw; simpl in Hw.
  - destruct (cond s) eqn:Hc; [discriminate|]. now inversion Hw; subst.
  - destruct (cond s) eqn:Hc; [eauto|]. now inversion Hw; subst.
Qed.

(** A loop whose body is a step with bookkeeping, as long as the state is
    tidy and [J] holds, only goes through such steps. *)
Lemma while_tsteps (cond : state -> bool) (body : state -> state)
      (J : state -> Prop) (s0 : state) :
  NoDup (pending s0) -> completed_processes s0 = [] -> timeline s0 = [] ->
  (forall r, In r (pending s0) -> 0 < remaining_time (cell (st_heap s0) r)) ->
  tidy s0 -> J s0 ->
  (forall s, wf s0 s -> sound s0 s -> tidy s -> J s -> cond s = true ->
             tstep s (body s) /\ J (body s)) ->
  forall fuel sf, while cond body fuel s0 = Some sf ->
  tsteps s0 sf /\ tidy sf /\ J sf /\ cond sf = false.
Proof.
  intros Hnd Hc Htl Hpos Ht0 HJ0 Hbody fuel sf Hw.
  assert (Hinv : tsteps s0 sf /\ tidy sf /\ J sf).
  { apply (while_invariant cond body
             (fun s => tsteps s0 s /\ tidy s /\ J s)) with (fuel := fuel) (s := s0);
      auto using tsteps_refl.
    intros s (Hs & Ht & HJ) Hcs.
    assert (Hwf : wf s0 s) by (eapply wf_steps; eauto using tsteps_steps).
    assert (Hsound : sound s0 s) by (eapply sound_steps; eauto using tsteps_steps).
    destruct (Hbody s Hwf Hsound Ht HJ Hcs) as [Hstep HJ'].
    split; [eapply tsteps_snoc; eauto|].
    split; [eapply tidy_step; eauto | exact HJ']. }
  destruct Hinv as (Hs & Ht & HJ).
  split; [exact Hs|]. split; [exact Ht|]. split; [exact HJ|].
  eapply while_exit; eauto.
Qed.

(** One iteration of the [for] loop of [fcfs], with its bookkeeping. *)
Lemma fcfs_step_tsteps s0 h now tl r l comp :
  tsteps s0 (mkState h now tl (r :: l) [] comp None) ->
  0 < now \/ arrival h r <= now ->
  StronglySorted (key_le (arrival h)) (r :: l) ->
  exists h' tl',
    fcfs_step (h, now, tl) r =
      (h', Z.max now (arrival h r) + remaining_time (cell h r), tl') /\
    tsteps s0 (mkState h' (Z.max now (arrival h r) + remaining_time (cell h r))
                       tl' l [] (comp ++ [r]) None) /\
    (forall a, a <> r -> cell h' a = cell h a) /\
    (forall a, arrival h' a = arrival h a).
Proof.
  intros Hs Hgap Hsorted. unfold fcfs_step.
  set (a := arrival h r).
  set (now1 := if now <? a then a else now).
  set (tl1 := if now <? a then (if now >? 0 then tl ++ [idle_segment now a] else tl)
              else tl).
  assert (Hnow1 : now1 = Z.max now a).
  { subst now1. destruct (Z.ltb_spec now a); lia. }
  assert (Hmid : tsteps s0 (mkState h now1 tl1 (r :: l) [] comp None)).
  { subst now1 tl1. destruct (Z.ltb_spec now a) as [Hlt | Hge]; auto.
    destruct (Z.gtb_spec now 0) as [Hpos | Hnp]; [|lia].
    eapply tsteps_snoc; [exact Hs|].
    apply tstep_idle with (r := r); cbn; auto; try (now left).
    unfold pending. cbn. rewrite app_nil_r. exact (sorted_head _ _ _ Hsorted). }
  destruct (mark_start_same h r now1)
    as ((Hpid & Harr & Hburst & Hprio) & Hrem & Hnext).
  pose proof (start_time_mark_start h r now1) as Hstart.
  unfold execute. cbn. rewrite cell_modify_same. cbn.
  rewrite Hrem, <- Hnow1. fold now1.
  eexists _, _. split; [reflexivity|]. split; [|split].
  - eapply tsteps_snoc; [exact Hmid|].
    apply tstep_run with (r := r) (e := remaining_time (cell h r));
      cbn; rewrite ?cell_modify_same; cbn; auto.
    + fold a. lia.
    + repeat split; cbn; auto.
    + lia.
    + intros x Hx. rewrite !cell_modify_other by auto.
      now apply cell_mark_start_other.
    + now rewrite Hpid.
    + unfold completion. rewrite cell_modify_same. cbn. repeat split; auto.
  - intros x Hx. rewrite !cell_modify_other by auto.
    now apply cell_mark_start_other.
  - intros x. rewrite !arrival_modify by reflexivity. apply arrival_mark_start.
Qed.

Lemma fcfs_fold_tsteps s0 l : forall h now tl comp,
  NoDup l ->
  (forall r, In r l -> 0 < remaining_time (cell h r) /\ 0 <= arrival h r) ->
  match l with r :: _ => 0 < now \/ arrival h r <= now | [] => True end ->
  StronglySorted (key_le (arrival h)) l ->
  tsteps s0 (mkState h now tl l [] comp None) ->
  exists h' now' tl',
    fold_left fcfs_step l (h, now, tl) = (h', now', tl') /\
    tsteps s0 (mkState h' now' tl' [] [] (comp ++ l) None).
Proof.
  induction l as [|r l IH]; intros h now tl comp Hnd Hvalid Hgap Hsorted Hs.
  - cbn. rewrite app_nil_r. eauto.
  - destruct (fcfs_step_tsteps _ _ _ _ _ _ _ Hs Hgap Hsorted)
      as (h' & tl' & Heq & Hs' & Hoth & Harr).
    cbn [fold_left]. rewrite Heq.
    inversion Hnd as [|? ? Hnotin Hnd']; subst.
    destruct (Hvalid r (or_introl eq_refl)) as [Hrpos Hrarr].
    assert (Hkeep : forall x, In x l -> cell h' x = cell h x).
    { intros x Hx. apply Hoth. intros ->. contradiction. }
    destruct (IH h' (Z.max now (arrival h r) + remaining_time (cell h r)) tl'
                 (comp ++ [r]) Hnd') as (h2 & now2 & tl2 & Hfold & Hs2); auto.
    + intros x Hx. unfold arrival. rewrite (Hkeep x Hx). apply Hvalid. now right.
    + destruct l; auto. left. lia.
    + inversion Hsorted; subst.
      eapply sorted_key_ext; [|eassumption]. intros a. now rewrite Harr.
    + rewrite <- app_assoc in Hs2. cbn in Hs2. eauto.
Qed.

Lemma tidy_start alg h0 sorted :
  (forall r, In r sorted -> 0 <= arrival h0 r) ->
  tidy (start_state alg h0 sorted).
Proof.
  intros Harr. constructor; cbn; [|discriminate].
  destruct alg; cbn; try lia; destruct sorted as [|r l]; try lia;
    apply Harr; now left.
Qed.

(** On a valid input every algorithm returns, and its run is a sequence of
    steps with bookkeeping that empties the pending list. *)
Lemma valid_trun alg h processes fuel :
  allocated h processes -> valid_input h processes -> quantum_ok alg ->
  (fuel_for h processes <= fuel)%nat ->
  exists h0 copies sorted sf,
    copy_processes h processes = (h0, copies) /\
    sorted = sort_by (arrival h0) copies /\
    prepared h processes h0 sorted /\
    schedule alg fuel h processes = Returned (run_of sf) /\
    tsteps (start_state alg h0 sorted) sf /\
    pending sf = [] /\
    wf (start_state alg h0 sorted) sf /\
    sound (start_state alg h0 sorted) sf.
Proof.
  intros Hall Hvalid Hq Hfuel.
  destruct (copy_processes h processes) as [h0 copies] eqn:Hc.
  pose proof (prepare _ _ _ _ Hc) as Hp.
  set (sorted := sort_by (arrival h0) copies) in *.
  set (s0 := start_state alg h0 sorted).
  assert (Hv0 : forall r, In r sorted ->
                  0 < remaining_time (cell h0 r) /\ 0 <= arrival h0 r).
  { intros r Hr.
    destruct (prepared_source _ _ _ _ Hp Hall r Hr) as (p & Hin & Heq).
    unfold valid_input in Hvalid. rewrite Forall_forall in Hvalid.
    unfold arrival. rewrite Heq. cbn. now apply Hvalid. }
  assert (Hnd : NoDup (pending s0))
    by (unfold s0; rewrite pending_start; apply (prep_nodup _ _ _ _ Hp)).
  assert (Hpos : forall r, In r (pending s0) ->
                   0 < remaining_time (cell (st_heap s0) r)).
  { unfold s0. rewrite pending_start. intros r Hr. now apply Hv0. }
  assert (Htidy : tidy s0).
  { apply tidy_start. intros r Hr. now apply Hv0. }
  assert (Hkey : exists sf,
             schedule alg fuel h processes = Returned (run_of sf) /\
             tsteps s0 sf /\ pending sf = []).
  { destruct (schedule_total alg h processes fuel Hall Hq Hfuel) as (res & Hret).
    destruct alg as [| | |b|q]; unfold schedule in *.
    - unfold fcfs in *. rewrite Hc in *. fold sorted in Hret |- *.
      destruct (fcfs_fold_tsteps s0 sorted h0 (origin FCFS h0 sorted) [] [])
        as (h' & now' & tl' & Hfold & Hs); auto.
      + apply (prep_nodup _ _ _ _ Hp).
      + cbn. destruct sorted; auto. right. lia.
      + apply (prep_sorted _ _ _ _ Hp).
      + constructor.
      + assert (Hsame : fold_left fcfs_step sorted (h0, 0, []) = (h', now', tl')).
        { rewrite <- Hfold. cbn. destruct sorted as [|r l] eqn:Hsorted; auto.
          cbn [fold_left]. rewrite fcfs_step_origin; auto.
          apply Hv0. now left. }
        rewrite Hsame. eexists. split; [|split; [exact Hs|]]; reflexivity.
    - unfold sjf_non_preemptive in *. rewrite Hc in *. fold sorted in Hret |- *.
      destruct (finish_returned _ _ Hret) as (sf & Hw & _).
      change (init_state h0 sorted) with s0 in Hw |- *.
      destruct (while_tsteps has_remaining sjf_np_body
                  (fun s => ready_queue s = []) s0) with (fuel := fuel) (sf := sf)
        as (Hs & _ & HJ & Hcond); auto.
      + intros s _ _ _ HJ Hcs. split; [now apply sjf_np_body_tstep|].
        now rewrite ready_queue_sjf_np.
      + exists sf. rewrite Hw. repeat split; auto. now apply has_remaining_false.
    - unfold sjf_preemptive in *. rewrite Hc in *. fold sorted in Hret |- *.
      destruct (finish_returned _ _ Hret) as (sf & Hw & _).
      change (init_state h0 sorted) with s0 in Hw |- *.
      destruct (while_tsteps has_remaining sjf_p_body
                  (fun s => ready_queue s = []) s0) with (fuel := fuel) (sf := sf)
        as (Hs & _ & HJ & Hcond); auto.
      + intros s _ _ Ht HJ Hcs. split; [apply sjf_p_body_tstep; auto; apply Ht|].
        now rewrite ready_queue_sjf_p.
      + exists sf. rewrite Hw. repeat split; auto. now apply has_remaining_false.
    - unfold priority_scheduling in *. rewrite Hc in *. fold sorted in Hret |- *.
      destruct (finish_returned _ _ Hret) as (sf & Hw & _).
      change (init_state h0 sorted) with s0 in Hw |- *.
      destruct (while_tsteps has_remaining (priority_body b)
                  (fun s => ready_queue s = []) s0) with (fuel := fuel) (sf := sf)
        as (Hs & _ & HJ & Hcond); auto.
      + intros s _ _ Ht HJ Hcs. split; [apply priority_body_tstep; auto; apply Ht|].
        now rewrite ready_queue_priority.
      + exists sf. rewrite Hw. repeat split; auto. now apply has_remaining_false.
    - unfold round_robin in *. rewrite Hc in *. fold sorted in Hret |- *.
      destruct (finish_returned _ _ Hret) as (sf & Hw & _).
      change (rr_init h0 sorted) with s0 in Hw |- *.
      destruct (while_tsteps rr_pending (rr_body q) rr_lists s0)
        with (fuel := fuel) (sf := sf) as (Hs & _ & HJ & Hcond); auto.
      + constructor; cbn; [apply (prep_sorted _ _ _ _ Hp) | easy].
      + intros s _ Hsound _ HJ Hcs. split; [now apply rr_body_tstep|].
        apply rr_body_lists; auto. apply (snd_pos _ _ Hsound).
      + exists sf. rewrite Hw. repeat split; auto. now apply rr_pending_false. }
  destruct Hkey as (sf & Hret & Hs & Hpend).
  assert (Hwf : wf s0 sf) by (eapply wf_steps; eauto using tsteps_steps).
  assert (Hsound : sound s0 sf) by (eapply sound_steps; eauto using tsteps_steps).
  exists h0, copies, sorted, sf.
  split; [reflexivity|]. split; [reflexivity|].
  exact (conj Hp (conj Hret (conj Hs (conj Hpend (conj Hwf Hsound))))).
Qed.

(** ** Lemmas: the life of a process *)

Lemma tidy_steps s0 s :
  NoDup (pending s0) -> completed_processes s0 = [] -> timeline s0 = [] ->
  (forall r, In r (pending s0) -> 0 < remaining_time (cell (st_heap s0) r)) ->
  tidy s0 -> tsteps s0 s -> tidy s.
Proof.
  intros Hnd Hc Htl Hpos Ht0 Hs. induction Hs; auto.
  eapply tidy_step; eauto.
  eapply sound_steps; eauto using tsteps_steps.
Qed.

Lemma timed_step s0 s s' :
  wf s0 s -> sound s0 s -> tidy s -> timed s -> tstep s s' -> timed s'.
Proof.
  intros Hwf Hsound [Hclock _] [Hpend Hdone] Hstep.
  pose proof (wf_nodup _ _ Hwf) as Hnd.
  pose proof (NoDup_app_left _ _ Hnd) as Hndp.
  destruct Hstep as [r Hh Hr Har Ht Hall Htl Hp Hc Hcur
                    | r e Hin Harr He Hse Hrem Hst Hoth Hnext Htl Ht Hfin Hcur].
  - constructor; rewrite ?Hh, ?Hc; auto.
    intros x Hx. cbn.
    assert (Hxs : In x (pending s))
      by (eapply Permutation_in; [symmetry|]; eauto).
    destruct (Hpend x Hxs) as [Hfresh | (H1 & H2 & H3 & H4)]; [now left | right].
    repeat split; auto. lia.
  - pose proof (snd_pos _ _ Hsound r Hin) as Hpos.
    destruct Hse as (Hpid & Harr' & Hburst & Hprio).
    unfold arrival in Harr.
    assert (Hr : start_time (cell (st_heap s') r) <> -1 /\
                 arrival_time (cell (st_heap s') r) <= start_time (cell (st_heap s') r) /\
                 remaining_time (cell (st_heap s') r) <= burst_time (cell (st_heap s') r) /\
                 start_time (cell (st_heap s') r) +
                   (burst_time (cell (st_heap s') r) - remaining_time (cell (st_heap s') r))
                 <= current_time s').
    { rewrite Hst, Hrem, <- Harr', <- Hburst, Ht.
      assert (0 < e) by lia.
      destruct (Hpend r Hin) as [(Hs1 & Hs2) | (Hs1 & Hs2 & Hs3 & Hs4)].
      - rewrite Hs1. cbn. lia.
      - destruct (Z.eqb_spec (start_time (cell (st_heap s) r)) (-1)); lia. }
    assert (Hold : forall x, In x (completed_processes s) ->
                     cell (st_heap s') x = cell (st_heap s) x).
    { intros x Hx. apply Hoth. intros ->.
      eapply (NoDup_app_disjoint _ _ _ Hnd); eassumption. }
    assert (Hother : forall x, In x (pending s) -> x <> r ->
              let p := cell (st_heap s') x in
              (start_time p = -1 /\ remaining_time p = burst_time p) \/
              (start_time p <> -1 /\ arrival_time p <= start_time p /\
               remaining_time p <= burst_time p /\
               start_time p + (burst_time p - remaining_time p) <= current_time s')).
    { intros x Hx Hxr. cbn. rewrite (Hoth x Hxr).
      assert (0 < e) by lia.
      destruct (Hpend x Hx) as [Hfresh | (H1 & H2 & H3 & H4)]; [now left | right].
      repeat split; auto. lia. }
    destruct (remaining_time (cell (st_heap s') r) =? 0) eqn:Hz.
    + destruct Hfin as (Hder & Hcompl & Hp & Hc).
      apply Z.eqb_eq in Hz.
      constructor.
      * intros x Hx.
        destruct (pending_after_finish s s' r x Hndp Hp Hx) as [Hxr Hxs].
        now apply Hother.
      * intros x Hx. rewrite Hc in Hx. apply in_app_or in Hx.
        destruct Hx as [Hx | [<- | []]]; cbn.
        -- rewrite (Hold x Hx). now apply Hdone.
        -- unfold completion in Hcompl.
           destruct Hr as (H1 & H2 & H3 & H4). repeat split; try apply Hder; auto. lia.
    + destruct Hfin as (Hp & Hc).
      constructor.
      * intros x Hx.
        assert (Hxs : In x (pending s))
          by (eapply Permutation_in; [symmetry|]; eauto).
        destruct (Nat.eq_dec x r) as [-> | Hxr]; [now right | now apply Hother].
      * intros x Hx. rewrite Hc in Hx. cbn. rewrite (Hold x Hx). now apply Hdone.
Qed.

Lemma timed_steps s0 s :
  NoDup (pending s0) -> completed_processes s0 = [] -> timeline s0 = [] ->
  (forall r, In r (pending s0) -> 0 < remaining_time (cell (st_heap s0) r)) ->
  (forall r, In r (pending s0) ->
     start_time (cell (st_heap s0) r) = -1 /\
     remaining_time (cell (st_heap s0) r) = burst_time (cell (st_heap s0) r)) ->
  tidy s0 -> tsteps s0 s -> timed s.
Proof.
  intros Hnd Hc Htl Hpos Hfresh Ht0 Hs. induction Hs.
  - constructor; [|rewrite Hc; easy]. intros r Hr. left. now apply Hfresh.
  - pose proof (tsteps_steps _ _ Hs) as Hsteps.
    apply (timed_step s0 s s'); auto.
    + now apply (wf_steps false).
    + now apply (sound_steps false).
    + now apply (tidy_steps s0).
Qed.

(** The state every algorithm starts from, on a valid input: fresh copies
    with work to do, none of them stamped. *)
Lemma valid_start alg h processes h0 sorted :
  prepared h processes h0 sorted -> allocated h processes ->
  valid_input h processes ->
  let s0 := start_state alg h0 sorted in
  NoDup (pending s0) /\
  (forall r, In r (pending s0) -> 0 < remaining_time (cell (st_heap s0) r)) /\
  (forall r, In r (pending s0) ->
     start_time (cell (st_heap s0) r) = -1 /\
     remaining_time (cell (st_heap s0) r) = burst_time (cell (st_heap s0) r)) /\
  (forall r, In r (pending s0) -> 0 <= arrival (st_heap s0) r) /\
  tidy s0.
Proof.
  intros Hp Hall Hvalid s0. unfold s0. rewrite pending_start. cbn.
  assert (Hsrc : forall r, In r sorted ->
            0 < remaining_time (cell h0 r) /\ 0 <= arrival h0 r /\
            start_time (cell h0 r) = -1 /\
            remaining_time (cell h0 r) = burst_time (cell h0 r)).
  { intros r Hr.
    destruct (prepared_source _ _ _ _ Hp Hall r Hr) as (p & Hin & Heq).
    unfold valid_input in Hvalid. rewrite Forall_forall in Hvalid.
    unfold arrival. rewrite Heq. cbn.
    destruct (Hvalid p Hin). auto. }
  split; [apply (prep_nodup _ _ _ _ Hp)|].
  split; [intros r Hr; now apply Hsrc|].
  split; [intros r Hr; now apply Hsrc|].
  split; [intros r Hr; now apply Hsrc|].
  apply tidy_start. intros r Hr. now apply Hsrc.
Qed.

(** ** The attributes of a finalized process *)

(** X1: on a valid input every algorithm returns, and every process of the
    returned list has no work left, carries [turnaround_time =
    completion_time - arrival_time], [waiting_time = turnaround_time -
    burst_time] and [response_time = start_time - arrival_time], was first
    dispatched no earlier than it arrived and completed no earlier than
    [start_time + burst_time]: its waiting and response times are not
    negative. *)
Theorem X1_finalized_attributes alg h processes fuel :
  allocated h processes -> valid_input h processes -> quantum_ok alg ->
  (fuel_for h processes <= fuel)%nat ->
  exists r,
    schedule alg fuel h processes = Returned r /\
    Forall (fun p =>
              remaining_time p = 0 /\
              turnaround_time p = completion_time p - arrival_time p /\
              waiting_time p = turnaround_time p - burst_time p /\
              response_time p = start_time p - arrival_time p /\
              arrival_time p <= start_time p /\
              start_time p + burst_time p <= completion_time p /\
              0 <= waiting_time p /\ 0 <= response_time p)
           (records (res_heap r) (res_processes r)).
Proof.
  intros Hall Hvalid Hq Hfuel.
  destruct (valid_trun alg h processes fuel Hall Hvalid Hq Hfuel)
    as (h0 & copies & sorted & sf & Hc & Hsorted & Hp & Hret & Hs & Hpend & Hwf & Hsound).
  destruct (valid_start alg _ _ _ _ Hp Hall Hvalid) as (Hnd & Hpos & Hfresh & _ & Ht0).
  assert (Htimed : timed sf) by (eapply timed_steps; eauto).
  exists (run_of sf). split; [exact Hret|]. cbn.
  unfold records. apply Forall_forall. intros p Hin.
  apply in_map_iff in Hin. destruct Hin as (x & <- & Hx).
  destruct (timed_done _ Htimed x Hx) as ((Hta & Hw & Hr) & Hrem & _ & Harr & Hdone).
  repeat split; auto; lia.
Qed.

Lemma X1_finalized_attributes_witness :
  exists r,
    schedule (RR 2) 74 two_processes [0; 1]%nat = Returned r /\
    Forall (fun p =>
              remaining_time p = 0 /\
              turnaround_time p = completion_time p - arrival_time p /\
              waiting_time p = turnaround_time p - burst_time p /\
              response_time p = start_time p - arrival_time p /\
              arrival_time p <= start_time p /\
              start_time p + burst_time p <= completion_time p /\
              0 <= waiting_time p /\ 0 <= response_time p)
           (records (res_heap r) (res_processes r)).
Proof.
  apply (X1_finalized_attributes (RR 2) two_processes [0; 1]%nat 74).
  - repeat constructor.
  - repeat (constructor; cbn; try lia).
  - cbn. lia.
  - vm_compute. apply le_n.
Defined.

(** ** Lemmas: the timeline and the records *)

Lemma tiles_snoc from tl to g :
  tiles from tl to -> seg_start_time g = to -> 0 < seg_duration g ->
  seg_end_time g = seg_start_time g + seg_duration g ->
  tiles from (tl ++ [g]) (seg_end_time g).
Proof.
  revert from. induction tl as [|x tl IH]; cbn; intros from Ht Hs Hd He.
  - repeat split; auto. congruence.
  - destruct Ht as (H1 & H2 & H3 & H4). repeat split; auto.
Qed.

Lemma tiles_step np s0 s s' from :
  sound s0 s -> tiles from (timeline s) (current_time s) -> astep np s s' ->
  tiles from (timeline s') (current_time s').
Proof.
  intros Hsound Ht Hstep.
  destruct Hstep as [r0 Hh Hr0 Har Hlt Htl Hp Hc
                    | r e Hin He Hse Hrem Hoth Hnext Htl Hclock Hfin].
  - rewrite Htl.
    change (current_time s') with (seg_end_time (idle_segment (current_time s) (current_time s'))).
    apply tiles_snoc with (to := current_time s); cbn; auto; lia.
  - pose proof (snd_pos _ _ Hsound r Hin) as Hpos.
    rewrite Htl, Hclock.
    change (current_time s + e)
      with (seg_end_time (run_segment (pid (cell (st_heap s) r)) (current_time s) e)).
    apply tiles_snoc with (to := current_time s); cbn; auto; lia.
Qed.

Lemma tiles_steps np s0 s :
  NoDup (pending s0) ->
  (forall r, In r (pending s0) -> 0 < remaining_time (cell (st_heap s0) r)) ->
  timeline s0 = [] -> completed_processes s0 = [] ->
  steps np s0 s -> tiles (current_time s0) (timeline s) (current_time s).
Proof.
  intros Hnd Hpos Htl Hc Hs. induction Hs.
  - rewrite Htl. reflexivity.
  - eapply tiles_step; eauto. eapply sound_steps; eauto.
Qed.

(** What a dispatch leaves of the membership of the two lists. *)
Lemma tstep_members s0 s s' :
  wf s0 s -> tstep s s' ->
  (forall x, In x (pending s' ++ completed_processes s') <->
             In x (pending s ++ completed_processes s)) /\
  (forall x, In x (completed_processes s) -> In x (completed_processes s')) /\
  (forall x, In x (pending s') -> In x (pending s)).
Proof.
  intros Hwf Hstep.
  pose proof (astep_members _ _ _ (tstep_astep _ _ Hstep)) as Hmem.
  split; [|split].
  - intros x. split; intros Hx.
    + eapply Permutation_in; [symmetry|]; eauto.
    + eapply Permutation_in; eauto.
  - intros x Hx.
    destruct Hstep as [r Hh Hr Har Ht Hall Htl Hp Hc Hcur
                      | r e Hin Harr He Hse Hrem Hst Hoth Hnext Htl Ht Hfin Hcur].
    + now rewrite Hc.
    + destruct (remaining_time (cell (st_heap s') r) =? 0).
      * destruct Hfin as (_ & _ & _ & ->). apply in_or_app. now left.
      * destruct Hfin as (_ & ->). assumption.
  - intros x Hx.
    destruct Hstep as [r Hh Hr Har Ht Hall Htl Hp Hc Hcur
                      | r e Hin Harr He Hse Hrem Hst Hoth Hnext Htl Ht Hfin Hcur].
    + eapply Permutation_in; [symmetry|]; eauto.
    + destruct (remaining_time (cell (st_heap s') r) =? 0).
      * destruct Hfin as (_ & _ & Hp & _).
        eapply Permutation_in; [symmetry; exact Hp|]. now right.
      * destruct Hfin as (Hp & _). eapply Permutation_in; [symmetry|]; eauto.
Qed.

(** A process that has just been dispatched is finalized exactly when the
    set of finalized processes gains it. *)
Lemma tstep_run_completed s0 s s' r :
  wf s0 s -> In r (pending s) ->
  (if remaining_time (cell (st_heap s') r) =? 0
   then derived (cell (st_heap s') r) /\
        completion (st_heap s') r = current_time s' /\
        Permutation (pending s) (r :: pending s') /\
        completed_processes s' = completed_processes s ++ [r]
   else Permutation (pending s) (pending s') /\
        completed_processes s' = completed_processes s) ->
  (forall x, In x (completed_processes s') ->
             In x (completed_processes s) \/
             (x = r /\ completion (st_heap s') r = current_time s')) /\
  (forall x, In x (completed_processes s) -> x <> r).
Proof.
  intros Hwf Hin Hfin.
  pose proof (wf_nodup _ _ Hwf) as Hnd.
  assert (Hnot : forall x, In x (completed_processes s) -> x <> r).
  { intros x Hx ->. eapply (NoDup_app_disjoint _ _ _ Hnd); eassumption. }
  split; auto.
  intros x Hx. destruct (remaining_time (cell (st_heap s') r) =? 0).
  - destruct Hfin as (_ & Hcompl & _ & Hc). rewrite Hc in Hx.
    apply in_app_or in Hx. destruct Hx as [Hx | [<- | []]]; auto.
  - destruct Hfin as (_ & Hc). rewrite Hc in Hx. auto.
Qed.

Lemma placed_step s0 s s' :
  wf s0 s -> sound s0 s -> tidy s -> timed s -> placed s -> tstep s s' ->
  placed s'.
Proof.
  intros Hwf Hsound [Hclock _] [Hpend _] Hplaced Hstep.
  destruct (tstep_members _ _ _ Hwf Hstep) as (Hmem & Hgrow & _).
  destruct Hstep as [r Hh Hr Har Ht Hall Htl Hp Hc Hcur
                    | r e Hin Harr He Hse Hrem Hst Hoth Hnext Htl Ht Hfin Hcur].
  - intros g Hg. rewrite Htl in Hg. apply in_app_or in Hg.
    destruct Hg as [Hg | [<- | []]].
    + destruct (Hplaced g Hg) as [Hend Hwho]. split; [lia|].
      intros p Hp'. destruct (Hwho p Hp') as (x & Hx & H1 & H2 & H3 & H4).
      exists x. split; [now apply Hmem|]. rewrite Hh, Hc. repeat split; auto.
    + cbn. split; [lia | discriminate].
  - pose proof (snd_pos _ _ Hsound r Hin) as Hpos.
    assert (He0 : 0 < e) by lia.
    destruct (tstep_run_completed _ _ _ _ Hwf Hin Hfin) as (Hnew & Hnot).
    destruct Hse as (Hpid & _).
    assert (Hstart : start_time (cell (st_heap s') r) <> -1 /\
                     start_time (cell (st_heap s') r) <= current_time s /\
                     (start_time (cell (st_heap s) r) <> -1 ->
                      start_time (cell (st_heap s') r) = start_time (cell (st_heap s) r))).
    { rewrite Hst.
      destruct (Z.eqb_spec (start_time (cell (st_heap s) r)) (-1)) as [Heq | Hne].
      - repeat split; lia.
      - destruct (Hpend r Hin) as [(Hs1 & _) | (_ & _ & Hs3 & Hs4)]; [congruence|].
        repeat split; auto; lia. }
    destruct Hstart as (Hs1 & Hs2 & Hs3).
    intros g Hg. rewrite Htl in Hg. apply in_app_or in Hg.
    destruct Hg as [Hg | [<- | []]].
    + destruct (Hplaced g Hg) as [Hend Hwho]. split; [lia|].
      intros p Hp'. destruct (Hwho p Hp') as (x & Hx & H1 & H2 & H3 & H4).
      exists x. split; [now apply Hmem|].
      destruct (Nat.eq_dec x r) as [-> | Hxr].
      * rewrite <- Hpid. rewrite (Hs3 H2). repeat split; auto.
        intros Hdone. destruct (Hnew r Hdone) as [Hold | [_ Hcompl]].
        -- now elim (Hnot r Hold).
        -- rewrite Hcompl. lia.
      * rewrite (Hoth x Hxr). repeat split; auto.
        intros Hdone. unfold completion. rewrite (Hoth x Hxr).
        destruct (Hnew x Hdone) as [Hold | [-> _]]; [now apply H4 | congruence].
    + cbn. split; [lia|]. intros p Hp'. inversion Hp'; subst p.
      exists r. split; [apply Hmem, in_or_app; now left|].
      repeat split; auto.
      intros Hdone. destruct (Hnew r Hdone) as [Hold | [_ Hcompl]].
      * now elim (Hnot r Hold).
      * rewrite Hcompl. lia.
Qed.

Lemma stamped_step s0 s s' :
  wf s0 s -> stamped s -> tstep s s' -> stamped s'.
Proof.
  intros Hwf [Hfirst Hlast] Hstep.
  destruct (tstep_members _ _ _ Hwf Hstep) as (Hmem & Hgrow & _).
  destruct Hstep as [r Hh Hr Har Ht Hall Htl Hp Hc Hcur
                    | r e Hin Harr He Hse Hrem Hst Hoth Hnext Htl Ht Hfin Hcur].
  - split.
    + intros x Hx Hne. rewrite Hh in *. apply Hmem in Hx.
      destruct (Hfirst x Hx Hne) as (g & Hg & H1 & H2).
      exists g. rewrite Htl. split; auto. apply in_or_app. now left.
    + intros x Hx. rewrite Hh, Hc in *.
      destruct (Hlast x Hx) as (g & Hg & H1 & H2).
      exists g. rewrite Htl. split; auto. apply in_or_app. now left.
  - destruct (tstep_run_completed _ _ _ _ Hwf Hin Hfin) as (Hnew & Hnot).
    destruct Hse as (Hpid & _).
    set (g0 := run_segment (pid (cell (st_heap s) r)) (current_time s) e) in *.
    assert (Hg0 : In g0 (timeline s')) by (rewrite Htl; apply in_or_app; right; now left).
    assert (Hkeep : forall g, In g (timeline s) -> In g (timeline s'))
      by (intros g Hg; rewrite Htl; apply in_or_app; now left).
    split.
    + intros x Hx Hne. apply Hmem in Hx.
      destruct (Nat.eq_dec x r) as [-> | Hxr].
      * rewrite Hst in *. rewrite <- Hpid.
        destruct (Z.eqb_spec (start_time (cell (st_heap s) r)) (-1)) as [Heq | Hne'].
        -- exists g0. repeat split; auto.
        -- destruct (Hfirst r Hx Hne') as (g & Hg & H1 & H2). exists g. auto.
      * rewrite (Hoth x Hxr) in *.
        destruct (Hfirst x Hx Hne) as (g & Hg & H1 & H2). exists g. auto.
    + intros x Hx. destruct (Hnew x Hx) as [Hold | [-> Hcompl]].
      * pose proof (Hnot x Hold) as Hxr. unfold completion.
        rewrite (Hoth x Hxr).
        destruct (Hlast x Hold) as (g & Hg & H1 & H2). exists g. auto.
      * exists g0. rewrite <- Hpid, Hcompl, Ht. repeat split; auto.
Qed.

Lemma conserving_step s0 s s' :
  wf s0 s -> sound s0 s -> conserving s -> tstep s s' -> conserving s'.
Proof.
  intros Hwf Hsound Hcons Hstep.
  destruct (tstep_members _ _ _ Hwf Hstep) as (Hmem & Hgrow & _).
  pose proof (wf_nodup _ _ Hwf) as Hnd.
  destruct Hstep as [r Hh Hr Har Ht Hall Htl Hp Hc Hcur
                    | r e Hin Harr He Hse Hrem Hst Hoth Hnext Htl Ht Hfin Hcur].
  - intros g Hg Hidle x Hx. rewrite Hh, Hc. apply Hmem in Hx.
    rewrite Htl in Hg. apply in_app_or in Hg.
    destruct Hg as [Hg | [<- | []]]; [now apply Hcons|]. cbn.
    apply in_app_or in Hx. destruct Hx as [Hx | Hx].
    + left. now apply Hall.
    + right. split; auto. now apply (snd_done _ _ Hsound).
  - destruct (tstep_run_completed _ _ _ _ Hwf Hin Hfin) as (Hnew & Hnot).
    destruct Hse as (_ & Harr' & _).
    intros g Hg Hidle x Hx. apply Hmem in Hx.
    rewrite Htl in Hg. apply in_app_or in Hg.
    destruct Hg as [Hg | [<- | []]]; [|discriminate].
    destruct (Hcons g Hg Hidle x Hx) as [Hlate | [Hdone Hbefore]].
    + left. unfold arrival in *. destruct (Nat.eq_dec x r) as [-> | Hxr].
      * now rewrite <- Harr'.
      * now rewrite (Hoth x Hxr).
    + right. split; auto. unfold completion in *.
      now rewrite (Hoth x (Hnot x Hdone)).
Qed.

(** The three observations hold along every run from a fresh start. *)
Lemma observed_steps s0 s :
  NoDup (pending s0) -> completed_processes s0 = [] -> timeline s0 = [] ->
  (forall r, In r (pending s0) -> 0 < remaining_time (cell (st_heap s0) r)) ->
  (forall r, In r (pending s0) ->
     start_time (cell (st_heap s0) r) = -1 /\
     remaining_time (cell (st_heap s0) r) = burst_time (cell (st_heap s0) r)) ->
  tidy s0 -> tsteps s0 s -> placed s /\ stamped s /\ conserving s.
Proof.
  intros Hnd Hc Htl Hpos Hfresh Ht0 Hs. induction Hs.
  - split; [|split].
    + intros g Hg. rewrite Htl in Hg. contradiction.
    + split.
      * intros r Hr Hne. rewrite Hc, app_nil_r in Hr.
        destruct (Hfresh r Hr). congruence.
      * intros r Hr. rewrite Hc in Hr. contradiction.
    + intros g Hg. rewrite Htl in Hg. contradiction.
  - destruct IHHs as (Hpl & Hst & Hco).
    pose proof (tsteps_steps _ _ Hs) as Hsteps.
    assert (Hwf : wf s0 s) by now apply (wf_steps false).
    assert (Hsound : sound s0 s) by now apply (sound_steps false).
    split; [|split].
    + apply (placed_step s0 s s'); auto.
      * now apply (tidy_steps s0).
      * now apply (timed_steps s0).
    + now apply (stamped_step s0 s s').
    + now apply (conserving_step s0 s s').
Qed.

(** The ends of the timeline of a non-empty run, read off the finalized
    list. *)
Lemma run_span_ends alg h processes h0 sorted sf :
  processes <> [] -> allocated h processes ->
  prepared h processes h0 sorted ->
  wf (start_state alg h0 sorted) sf -> sound (start_state alg h0 sorted) sf ->
  pending sf = [] ->
  clock_origin alg (st_heap sf) (completed_processes sf) =
    current_time (start_state alg h0 sorted) /\
  max_completion (st_heap sf) (completed_processes sf) = current_time sf.
Proof.
  intros Hne Hall Hp Hwf Hsound Hpend.
  pose proof (wf_perm _ _ Hwf) as Hperm.
  rewrite Hpend, pending_start in Hperm. cbn in Hperm.
  assert (Hsne : sorted <> []).
  { intros Hnil. pose proof (prepared_length _ _ _ _ Hp Hall) as Hlen.
    rewrite Hnil in Hlen. destruct processes; [congruence | discriminate]. }
  assert (Hcne : completed_processes sf <> []).
  { intros Hnil. rewrite Hnil in Hperm. apply Permutation_nil in Hperm. congruence. }
  destruct (exists_last Hcne) as (l & r & Hlast).
  split.
  - rewrite (origin_is_min alg h0 sorted); auto.
    + apply (prep_sorted _ _ _ _ Hp).
    + apply (wf_arrival _ _ Hwf).
  - apply max_completion_eq.
    + intros x Hx. now apply (snd_done _ _ Hsound).
    + exists r. split.
      * rewrite Hlast. apply in_or_app. right. now left.
      * eapply (snd_last _ _ Hsound); eauto.
Qed.

(** ** The shape of the timeline *)

(** X2: on a non-empty valid input the timeline of every algorithm tiles
    the interval from the instant it starts at (the smallest arrival for
    [fcfs] and [round_robin], 0 for the others) to the largest completion
    time: every entry starts where the previous one ended, has a positive
    duration, and ends [duration] after it starts.  No two entries
    overlap and there is no hole between them. *)
Theorem X2_timeline_contiguous alg h processes fuel :
  processes <> [] ->
  allocated h processes -> valid_input h processes -> quantum_ok alg ->
  (fuel_for h processes <= fuel)%nat ->
  exists r,
    schedule alg fuel h processes = Returned r /\
    tiles (clock_origin alg (res_heap r) (res_processes r))
          (res_timeline r)
          (max_completion (res_heap r) (res_processes r)).
Proof.
  intros Hne Hall Hvalid Hq Hfuel.
  destruct (valid_trun alg h processes fuel Hall Hvalid Hq Hfuel)
    as (h0 & copies & sorted & sf & Hc & Hsorted & Hp & Hret & Hs & Hpend & Hwf & Hsound).
  destruct (valid_start alg _ _ _ _ Hp Hall Hvalid) as (Hnd & Hpos & Hfresh & _ & Ht0).
  exists (run_of sf). split; [exact Hret|]. cbn.
  destruct (run_span_ends alg _ _ _ _ _ Hne Hall Hp Hwf Hsound Hpend) as [-> ->].
  apply (tiles_steps false); auto. now apply tsteps_steps.
Qed.

Lemma X2_timeline_contiguous_witness :
  exists r,
    schedule SJF_NP 74 two_processes_later [3; 4]%nat = Returned r /\
    tiles (clock_origin SJF_NP (res_heap r) (res_processes r))
          (res_timeline r)
          (max_completion (res_heap r) (res_processes r)).
Proof.
  apply (X2_timeline_contiguous SJF_NP two_processes_later [3; 4]%nat 74).
  - discriminate.
  - repeat (constructor; cbn; try lia).
  - repeat (constructor; cbn; try lia).
  - exact I.
  - vm_compute. apply le_n.
Defined.

(** ** The timeline and the records agree *)

(** X3: on a valid input, every busy entry of the returned timeline
    carries the id of a returned process and lies inside that process's
    window: it starts no earlier than the process's [start_time], which is
    no earlier than its [arrival_time], and ends no later than its
    [completion_time].  No process is run before it arrives or after it
    completes. *)
Theorem X3_segments_in_window alg h processes fuel :
  allocated h processes -> valid_input h processes -> quantum_ok alg ->
  (fuel_for h processes <= fuel)%nat ->
  exists r,
    schedule alg fuel h processes = Returned r /\
    Forall (fun g =>
              seg_pid g = None \/
              exists p, In p (records (res_heap r) (res_processes r)) /\
                        within_window p g)
           (res_timeline r).
Proof.
  intros Hall Hvalid Hq Hfuel.
  destruct (valid_trun alg h processes fuel Hall Hvalid Hq Hfuel)
    as (h0 & copies & sorted & sf & Hc & Hsorted & Hp & Hret & Hs & Hpend & Hwf & Hsound).
  destruct (valid_start alg _ _ _ _ Hp Hall Hvalid) as (Hnd & Hpos & Hfresh & _ & Ht0).
  assert (Htimed : timed sf) by (eapply timed_steps; eauto).
  destruct (observed_steps _ _ Hnd eq_refl eq_refl Hpos Hfresh Ht0 Hs) as (Hpl & _ & _).
  exists (run_of sf). split; [exact Hret|]. cbn.
  apply Forall_forall. intros g Hg.
  destruct (seg_pid g) as [p|] eqn:Hpid; [right | now left].
  destruct (Hpl g Hg) as [_ Hwho].
  destruct (Hwho p Hpid) as (x & Hx & H1 & H2 & H3 & H4).
  rewrite Hpend in Hx. cbn in Hx.
  destruct (timed_done _ Htimed x Hx) as (_ & _ & _ & Harr & _).
  exists (cell (st_heap sf) x). split.
  - unfold records. now apply in_map.
  - unfold within_window. rewrite H1. repeat split; auto.
Qed.

Lemma X3_segments_in_window_witness :
  exists r,
    schedule SJF_P 74 two_processes [0; 1]%nat = Returned r /\
    Forall (fun g =>
              seg_pid g = None \/
              exists p, In p (records (res_heap r) (res_processes r)) /\
                        within_window p g)
           (res_timeline r).
Proof.
  apply (X3_segments_in_window SJF_P two_processes [0; 1]%nat 74).
  - repeat constructor.
  - repeat (constructor; cbn; try lia).
  - exact I.
  - vm_compute. apply le_n.
Defined.

(** X4: on a valid input, every returned process has a timeline entry
    under its id that starts at its [start_time] and one that ends at its
    [completion_time]: the two attributes are the instants of its first
    dispatch and of the end of its last one. *)
Theorem X4_window_on_timeline alg h processes fuel :
  allocated h processes -> valid_input h processes -> quantum_ok alg ->
  (fuel_for h processes <= fuel)%nat ->
  exists r,
    schedule alg fuel h processes = Returned r /\
    Forall (window_on (res_timeline r))
           (records (res_heap r) (res_processes r)).
Proof.
  intros Hall Hvalid Hq Hfuel.
  destruct (valid_trun alg h processes fuel Hall Hvalid Hq Hfuel)
    as (h0 & copies & sorted & sf & Hc & Hsorted & Hp & Hret & Hs & Hpend & Hwf & Hsound).
  destruct (valid_start alg _ _ _ _ Hp Hall Hvalid) as (Hnd & Hpos & Hfresh & _ & Ht0).
  assert (Htimed : timed sf) by (eapply timed_steps; eauto).
  destruct (observed_steps _ _ Hnd eq_refl eq_refl Hpos Hfresh Ht0 Hs)
    as (_ & (Hfirst & Hlast) & _).
  exists (run_of sf). split; [exact Hret|]. cbn.
  unfold records. apply Forall_forall. intros p Hin.
  apply in_map_iff in Hin. destruct Hin as (x & <- & Hx).
  destruct (timed_done _ Htimed x Hx) as (_ & _ & Hne & _).
  split.
  - apply Hfirst; auto. apply in_or_app. now right.
  - now apply Hlast.
Qed.

Lemma X4_window_on_timeline_witness :
  exists r,
    schedule (PRIORITY true) 74 two_processes [0; 1]%nat = Returned r /\
    Forall (window_on (res_timeline r))
           (records (res_heap r) (res_processes r)).
Proof.
  apply (X4_window_on_timeline (PRIORITY true) two_processes [0; 1]%nat 74).
  - repeat constructor.
  - repeat (constructor; cbn; try lia).
  - exact I.
  - vm_compute. apply le_n.
Defined.

(** X5: on a valid input no algorithm idles while a process is waiting:
    for every idle entry of the returned timeline, every returned process
    either completed by the time the gap starts or arrives no earlier than
    the gap ends. *)
Theorem X5_idle_only_when_nothing_waits alg h processes fuel :
  allocated h processes -> valid_input h processes -> quantum_ok alg ->
  (fuel_for h processes <= fuel)%nat ->
  exists r,
    schedule alg fuel h processes = Returned r /\
    Forall (fun g =>
              seg_pid g = None ->
              Forall (not_waiting g) (records (res_heap r) (res_processes r)))
           (res_timeline r).
Proof.
  intros Hall Hvalid Hq Hfuel.
  destruct (valid_trun alg h processes fuel Hall Hvalid Hq Hfuel)
    as (h0 & copies & sorted & sf & Hc & Hsorted & Hp & Hret & Hs & Hpend & Hwf & Hsound).
  destruct (valid_start alg _ _ _ _ Hp Hall Hvalid) as (Hnd & Hpos & Hfresh & _ & Ht0).
  destruct (observed_steps _ _ Hnd eq_refl eq_refl Hpos Hfresh Ht0 Hs) as (_ & _ & Hco).
  exists (run_of sf). split; [exact Hret|]. cbn.
  apply Forall_forall. intros g Hg Hidle.
  unfold records. apply Forall_forall. intros p Hin.
  apply in_map_iff in Hin. destruct Hin as (x & <- & Hx).
  unfold not_waiting.
  destruct (Hco g Hg Hidle x) as [Hlate | [_ Hdone]]; auto.
  apply in_or_app. now right.
Qed.

Lemma X5_idle_only_when_nothing_waits_witness :
  exists r,
    schedule SJF_NP 74 late_first [0; 1]%nat = Returned r /\
    Forall (fun g =>
              seg_pid g = None ->
              Forall (not_waiting g) (records (res_heap r) (res_processes r)))
           (res_timeline r).
Proof.
  apply (X5_idle_only_when_nothing_waits SJF_NP late_first [0; 1]%nat 74).
  - repeat constructor.
  - repeat (constructor; cbn; try lia).
  - exact I.
  - vm_compute. lia.
Defined.

(** ** The busy time and the span *)

Lemma executed_time_cons h x l :
  executed_time h (x :: l) =
  burst_time (cell h x) - remaining_time (cell h x) + executed_time h l.
Proof. reflexivity. Qed.

Lemma executed_time_ext h h' l :
  (forall x, In x l -> cell h' x = cell h x) ->
  executed_time h' l = executed_time h l.
Proof.
  induction l as [|x l IH]; intros Heq; auto.
  rewrite !executed_time_cons, (Heq x (or_introl eq_refl)), IH; auto.
  intros y Hy. apply Heq. now right.
Qed.

Lemma executed_time_update h h' l r e :
  NoDup l -> In r l ->
  (forall a, a <> r -> cell h' a = cell h a) ->
  burst_time (cell h' r) = burst_time (cell h r) ->
  remaining_time (cell h' r) = remaining_time (cell h r) - e ->
  executed_time h' l = executed_time h l + e.
Proof.
  intros Hnd Hin Hoth Hb Hrem.
  induction l as [|x l IH]; [easy|].
  rewrite !executed_time_cons.
  inversion Hnd as [|? ? Hnotin Hnd']; subst.
  destruct Hin as [-> | Hin].
  - rewrite (executed_time_ext h h' l), Hb, Hrem; [lia|].
    intros y Hy. apply Hoth. intros ->. contradiction.
  - rewrite (IH Hnd' Hin), (Hoth x); [lia|].
    intros ->. contradiction.
Qed.

Lemma executed_time_done h l :
  (forall x, In x l -> remaining_time (cell h x) = 0) ->
  executed_time h l = spec_total_burst h l.
Proof.
  induction l as [|x l IH]; intros Hz; auto.
  rewrite executed_time_cons.
  change (spec_total_burst h (x :: l))
    with (burst_time (cell h x) + spec_total_burst h l).
  rewrite (Hz x (or_introl eq_refl)), IH; [lia|].
  intros y Hy. apply Hz. now right.
Qed.

Lemma spec_total_burst_perm h l l' :
  Permutation l l' -> spec_total_burst h l = spec_total_burst h l'.
Proof.
  unfold spec_total_burst. induction 1; cbn; lia.
Qed.

Lemma spec_total_burst_pos h l :
  l <> [] -> (forall x, In x l -> 0 < burst_time (cell h x)) ->
  0 < spec_total_burst h l.
Proof.
  unfold spec_total_burst. intros Hne Hpos.
  assert (Hge : forall l', (forall x, In x l' -> 0 < burst_time (cell h x)) ->
                  0 <= fold_right (fun r acc => burst_time (cell h r) + acc) 0 l').
  { induction l' as [|x l' IH]; cbn; intros Hp; [lia|].
    specialize (Hp x (or_introl eq_refl)) as Hx.
    assert (0 <= fold_right (fun r acc => burst_time (cell h r) + acc) 0 l').
    { apply IH. intros y Hy. apply Hp. now right. }
    lia. }
  destruct l as [|x l]; [congruence|]. cbn.
  specialize (Hpos x (or_introl eq_refl)) as Hx.
  assert (0 <= fold_right (fun r acc => burst_time (cell h r) + acc) 0 l).
  { apply Hge. intros y Hy. apply Hpos. now right. }
  lia.
Qed.

(** The processes never receive more time than has passed since the
    earliest of them arrived. *)
Lemma executed_time_bound s0 s m :
  NoDup (pending s0) -> completed_processes s0 = [] -> timeline s0 = [] ->
  (forall r, In r (pending s0) -> 0 < remaining_time (cell (st_heap s0) r)) ->
  (forall r, In r (pending s0) ->
     remaining_time (cell (st_heap s0) r) = burst_time (cell (st_heap s0) r)) ->
  (forall x, In x (pending s0) -> m <= arrival (st_heap s0) x) ->
  tsteps s0 s ->
  executed_time (st_heap s) (pending s0) <= Z.max 0 (current_time s - m).
Proof.
  intros Hnd Hc Htl Hpos Hfresh Hm Hs. induction Hs.
  - assert (Hz : executed_time (st_heap s0) (pending s0) = 0).
    { clear Hnd Hpos Hm. induction (pending s0) as [|x l IH]; auto.
      rewrite executed_time_cons, (Hfresh x (or_introl eq_refl)), IH; [lia|].
      intros y Hy. apply Hfresh. now right. }
    lia.
  - pose proof (tsteps_steps _ _ Hs) as Hsteps.
    assert (Hwf : wf s0 s) by now apply (wf_steps false).
    assert (Hsound : sound s0 s) by now apply (sound_steps false).
    destruct H as [r Hh Hr Har Ht Hall Htl' Hp Hc' Hcur
                  | r e Hin Harr He Hse Hrem Hst Hoth Hnext Htl' Ht Hfin Hcur].
    + rewrite Hh. lia.
    + assert (Hin0 : In r (pending s0)).
      { eapply Permutation_in; [apply (wf_perm _ _ Hwf)|].
        apply in_or_app. now left. }
      destruct Hse as (_ & _ & Hb & _).
      rewrite (executed_time_update (st_heap s) (st_heap s') (pending s0) r e);
        auto.
      pose proof (Hm r Hin0) as Hmr.
      rewrite <- (wf_arrival _ _ Hwf) in Hmr.
      pose proof (snd_pos _ _ Hsound r Hin). lia.
Qed.

(** X6: on a non-empty valid input, the sum of the bursts of the returned
    processes is positive and no larger than the largest completion time
    minus the smallest arrival time: the ratio [calculate_metrics] reports
    as CPU utilization lies above 0 and never exceeds 100 percent. *)
Theorem X6_busy_within_span alg h processes fuel :
  processes <> [] ->
  allocated h processes -> valid_input h processes -> quantum_ok alg ->
  (fuel_for h processes <= fuel)%nat ->
  exists r,
    schedule alg fuel h processes = Returned r /\
    0 < py_sum burst_time (res_heap r) (res_processes r) <=
      max_completion (res_heap r) (res_processes r) -
      min_arrival (res_heap r) (res_processes r).
Proof.
  intros Hne Hall Hvalid Hq Hfuel.
  destruct (valid_trun alg h processes fuel Hall Hvalid Hq Hfuel)
    as (h0 & copies & sorted & sf & Hc & Hsorted & Hp & Hret & Hs & Hpend & Hwf & Hsound).
  destruct (valid_start alg _ _ _ _ Hp Hall Hvalid) as (Hnd & Hpos & Hfresh & _ & Ht0).
  set (s0 := start_state alg h0 sorted) in *.
  exists (run_of sf). split; [exact Hret|].
  cbn [run_of res_timeline res_processes res_heap].
  destruct (run_span_ends alg _ _ _ _ _ Hne Hall Hp Hwf Hsound Hpend) as [_ ->].
  pose proof (wf_perm _ _ Hwf) as Hperm. rewrite Hpend, app_nil_l in Hperm.
  assert (Hcne : completed_processes sf <> []).
  { intros Hnil. rewrite Hnil in Hperm. apply Permutation_nil in Hperm.
    unfold s0 in Hperm. rewrite pending_start in Hperm.
    pose proof (prepared_length _ _ _ _ Hp Hall) as Hlen.
    rewrite Hperm in Hlen. destruct processes; [congruence | discriminate]. }
  destruct (min_arrival_spec (st_heap sf) _ Hcne) as (_ & Hlow).
  assert (Hbound := executed_time_bound s0 sf
                      (min_arrival (st_heap sf) (completed_processes sf))
                      Hnd eq_refl eq_refl Hpos
                      (fun r Hr => proj2 (Hfresh r Hr))).
  rewrite executed_time_done, (spec_total_burst_perm _ _ _ (Permutation_sym Hperm)),
    <- py_sum_burst in Hbound.
  - assert (Hsum : 0 < py_sum burst_time (st_heap sf) (completed_processes sf)).
    { rewrite py_sum_burst. apply spec_total_burst_pos; auto.
      intros x Hx.
      assert (Hx0 : In x (pending s0)) by (eapply Permutation_in; eauto).
      destruct (wf_static _ _ Hwf x) as (_ & _ & Hb & _). rewrite <- Hb.
      destruct (Hfresh x Hx0) as [_ <-]. now apply Hpos. }
    assert (py_sum burst_time (st_heap sf) (completed_processes sf) <=
            Z.max 0 (current_time sf -
                     min_arrival (st_heap sf) (completed_processes sf))); [|lia].
    apply Hbound; auto.
    intros x Hx. rewrite <- (wf_arrival _ _ Hwf). apply Hlow.
    eapply Permutation_in; [symmetry; exact Hperm | exact Hx].
  - intros x Hx. apply (snd_done _ _ Hsound).
    eapply Permutation_in; [symmetry; exact Hperm | exact Hx].
Qed.

Lemma X6_busy_within_span_witness :
  exists r,
    schedule FCFS 74 late_first [0; 1]%nat = Returned r /\
    0 < py_sum burst_time (res_heap r) (res_processes r) <=
      max_completion (res_heap r) (res_processes r) -
      min_arrival (res_heap r) (res_processes r).
Proof.
  apply (X6_busy_within_span FCFS late_first [0; 1]%nat 74).
  - discriminate.
  - repeat constructor.
  - repeat (constructor; cbn; try lia).
  - exact I.
  - vm_compute. lia.
Defined.

(** ** process.py: [execute], [is_completed] and [reset] *)

(** X7: [Process.execute] charges to the process exactly the time it
    returns, never leaves a negative [remaining_time], never runs for longer
    than a given quantum, and leaves the process completed exactly when no
    quantum was given or the quantum covered what remained.  It writes
    nothing but the [remaining_time] of the process.  With a quantum it
    computes what [round_robin] computes in line, [min(time_quantum,
    remaining_time)] charged to the process; without one it returns all
    that remained. *)
Theorem X7_execute_contract h r (time_quantum : option Z) :
  snd (execute h r time_quantum) +
    remaining_time (cell (fst (execute h r time_quantum)) r) =
    remaining_time (cell h r) /\
  0 <= remaining_time (cell (fst (execute h r time_quantum)) r) /\
  is_completed (cell (fst (execute h r time_quantum)) r) =
    match time_quantum with
    | None => true
    | Some q => remaining_time (cell h r) <=? q
    end /\
  cell (fst (execute h r time_quantum)) r =
    set_remaining_time
      (remaining_time (cell (fst (execute h r time_quantum)) r)) (cell h r) /\
  (forall a, a <> r -> cell (fst (execute h r time_quantum)) a = cell h a) /\
  match time_quantum with
  | Some q =>
      snd (execute h r (Some q)) <= q /\
      execute h r (Some q) =
        (modify h r (fun p => set_remaining_time
                                (remaining_time p - Z.min q (remaining_time p)) p),
         Z.min q (remaining_time (cell h r)))
  | None => snd (execute h r None) = remaining_time (cell h r)
  end.
Proof.
  unfold execute, is_completed.
  destruct time_quantum as [q|].
  - destruct (Z.geb_spec q (remaining_time (cell h r))) as [Hge | Hlt]; cbn [fst snd];
      rewrite ?cell_modify_same; cbn [remaining_time set_remaining_time].
    + repeat split; try lia.
      * intros a Ha. now apply cell_modify_other.
      * unfold modify. cbn beta.
        rewrite !Z.min_r by lia. now rewrite Z.sub_diag.
    + repeat split; try lia.
      * intros a Ha. now apply cell_modify_other.
      * unfold modify. cbn beta.
        now rewrite !Z.min_l by lia.
  - cbn [fst snd]. rewrite cell_modify_same. cbn [remaining_time set_remaining_time].
    repeat split; try lia.
    intros a Ha. now apply cell_modify_other.
Qed.

Lemma reset_fresh p : reset p = fresh_copy p.
Proof. reflexivity. Qed.

Lemma fresh_copy_static p q : static_eq p q -> fresh_copy p = fresh_copy q.
Proof.
  intros (H1 & H2 & H3 & H4). unfold fresh_copy. now rewrite H1, H2, H3, H4.
Qed.

Lemma fresh_copy_twice p : fresh_copy (fresh_copy p) = fresh_copy p.
Proof. reflexivity. Qed.

(** X8: a run followed by [reset] is a round trip.  On a valid input every
    returned process is completed, and resetting the returned processes
    gives back, up to their order, the objects the algorithm started from:
    the caller's pid, arrival time, burst time and priority, the whole
    burst remaining and -1 in every other attribute; none of them is
    completed any more. *)
Theorem X8_reset_round_trip alg h processes fuel :
  allocated h processes -> valid_input h processes -> quantum_ok alg ->
  (fuel_for h processes <= fuel)%nat ->
  exists r,
    schedule alg fuel h processes = Returned r /\
    Forall (fun p => is_completed p = true)
           (records (res_heap r) (res_processes r)) /\
    Permutation (map reset (records (res_heap r) (res_processes r)))
                (map fresh_copy (records h processes)) /\
    Forall (fun p => is_completed p = false)
           (map reset (records (res_heap r) (res_processes r))).
Proof.
  intros Hall Hvalid Hq Hfuel.
  destruct (valid_trun alg h processes fuel Hall Hvalid Hq Hfuel)
    as (h0 & copies & sorted & sf & Hc & Hsorted & Hp & Hret & Hs & Hpend & Hwf & Hsound).
  exists (run_of sf). split; [exact Hret|].
  cbn [run_of res_timeline res_processes res_heap].
  pose proof (wf_perm _ _ Hwf) as Hperm.
  rewrite Hpend, app_nil_l, pending_start in Hperm.
  assert (Hreset : map reset (records (st_heap sf) (completed_processes sf)) =
                   map (fun x => fresh_copy (cell h0 x)) (completed_processes sf)).
  { unfold records. rewrite map_map. apply map_ext. intros x.
    rewrite reset_fresh. apply fresh_copy_static, static_eq_sym.
    apply (wf_static _ _ Hwf x). }
  assert (Hround : Permutation
                     (map reset (records (st_heap sf) (completed_processes sf)))
                     (map fresh_copy (records h processes))).
  { rewrite Hreset.
    rewrite (Permutation_map (fun x => fresh_copy (cell h0 x)) Hperm).
    pose proof (Permutation_map fresh_copy (prep_records _ _ _ _ Hp Hall)) as Hrec.
    unfold records in Hrec. rewrite !map_map in Hrec.
    unfold records. rewrite map_map. exact Hrec. }
  split; [|split; [exact Hround|]].
  - unfold records. apply Forall_forall. intros p Hin.
    apply in_map_iff in Hin. destruct Hin as (x & <- & Hx).
    destruct (snd_done _ _ Hsound x Hx) as [Hz _].
    unfold is_completed. rewrite Hz. reflexivity.
  - eapply Permutation_Forall; [symmetry; exact Hround|].
    unfold records. rewrite map_map. apply Forall_forall. intros p Hin.
    apply in_map_iff in Hin. destruct Hin as (x & <- & Hx).
    unfold valid_input in Hvalid. rewrite Forall_forall in Hvalid.
    destruct (Hvalid x Hx) as [Hb _].
    unfold is_completed. cbn. apply Z.leb_gt. exact Hb.
Qed.

Lemma X8_reset_round_trip_witness :
  exists r,
    schedule (RR 2) 74 two_processes_later [3; 4]%nat = Returned r /\
    Forall (fun p => is_completed p = true)
           (records (res_heap r) (res_processes r)) /\
    Permutation (map reset (records (res_heap r) (res_processes r)))
                (map fresh_copy (records two_processes_later [3; 4]%nat)) /\
    Forall (fun p => is_completed p = false)
           (map reset (records (res_heap r) (res_processes r))).
Proof.
  apply (X8_reset_round_trip (RR 2) two_processes_later [3; 4]%nat 74).
  - repeat (constructor; cbn; try lia).
  - repeat (constructor; cbn; try lia).
  - cbn. lia.
  - vm_compute. apply le_n.
Defined.

(** ** app.py: [run_algorithm] *)

Lemma copies_allocated h processes h1 copies :
  copy_processes h processes = (h1, copies) ->
  allocated h processes ->
  allocated h1 copies /\
  map fresh_copy (records h1 copies) = map fresh_copy (records h processes) /\
  (forall a, (a < next_ref h)%nat -> cell h1 a = cell h a).
Proof.
  intros Hc Hall.
  destruct (copy_processes_spec _ _ _ _ Hc) as (Hl & Hn & Hkeep & Hval).
  split; [|split; auto].
  - unfold allocated. rewrite Hl, Hn. apply Forall_forall.
    intros x Hx. apply in_seq in Hx. lia.
  - unfold records. rewrite (Hval Hall), !map_map. reflexivity.
Qed.

(** X9: [run_algorithm] called with one of its six algorithm names reports
    what a direct call of that algorithm on the caller's list returns: the
    same timeline, the same finalized records and the metrics
    [calculate_metrics] computes from them (or the exception it raises);
    Round Robin runs with quantum 2 when no quantum is given.  The second
    copy of the processes that [run_algorithm] makes changes nothing, and
    the caller's objects are left as they were. *)
Theorem X9_run_algorithm_dispatch (number : Type) (of_int : Z -> number)
        (true_div : Z -> Z -> number) (mul_int : number -> Z -> number)
        name time_quantum alg fuel h processes :
  algorithm_of name time_quantum = Some alg ->
  allocated h processes ->
  reports number of_int true_div mul_int
          (run_algorithm number of_int true_div mul_int
                         name fuel h processes time_quantum)
          (schedule alg fuel h processes) /\
  forall rep,
    run_algorithm number of_int true_div mul_int
                  name fuel h processes time_quantum = Returned (Value rep) ->
    forall a, (a < next_ref h)%nat -> cell (rep_heap rep) a = cell h a.
Proof.
  intros Halg Hall.
  unfold run_algorithm.
  destruct (copy_processes h processes) as [h1 copies] eqn:Hc.
  destruct (copies_allocated _ _ _ _ Hc Hall) as (Hall1 & Hrec & Hkeep).
  assert (Hsched :
    (if (name =? "FCFS")%string then fcfs h1 copies
     else if (name =? "SJF (Non-preemptive)")%string
       then sjf_non_preemptive fuel h1 copies
     else if (name =? "SJF (Preemptive)")%string
       then sjf_preemptive fuel h1 copies
     else if (name =? "Priority (Non-preemptive)")%string
       then priority_scheduling fuel h1 copies false
     else if (name =? "Priority (Preemptive)")%string
       then priority_scheduling fuel h1 copies true
     else if (name =? "Round Robin")%string
       then round_robin fuel h1 copies
              (match time_quantum with None => 2 | Some q => q end)
     else Returned (mkResult [] [] h1)) = schedule alg fuel h1 copies).
  { unfold algorithm_of in Halg.
    repeat (destruct (String.eqb name _);
            [inversion Halg; subst; reflexivity|]).
    discriminate. }
  cbv zeta. rewrite Hsched.
  pose proof (schedule_deterministic alg fuel h1 copies h processes Hall1 Hall Hrec)
    as Hsame.
  pose proof (schedule_frame alg fuel h1 copies) as Hframe.
  destruct (schedule alg fuel h1 copies) as [r1| |];
    destruct (schedule alg fuel h processes) as [r| |]; cbn in Hsame; try easy.
  destruct Hsame as [Htl Hrecs].
    pose proof (calculate_metrics_records number of_int true_div mul_int
                  _ _ _ _ Hrecs) as Hm.
    destruct (Hframe r1 eq_refl) as [Hlow _].
    split.
    + unfold reports.
      destruct (calculate_metrics number of_int true_div mul_int
                                  (res_heap r1) (res_processes r1)) as [m|e] eqn:Hcm;
        cbn; rewrite <- Hm; auto.
    + intros rep Hrep a Ha.
      destruct (calculate_metrics number of_int true_div mul_int
                                  (res_heap r1) (res_processes r1)) as [m|e];
        cbn in Hrep; inversion Hrep; subst. cbn.
      rewrite Hlow by (destruct (copy_processes_spec _ _ _ _ Hc) as (_ & -> & _); lia).
      now apply Hkeep.
Qed.

Lemma X9_run_algorithm_dispatch_witness :
  reports Q inject_Z rational_div rational_mul
          (run_algorithm Q inject_Z rational_div rational_mul
                         "Round Robin" 74 two_processes [0; 1]%nat None)
          (schedule (RR 2) 74 two_processes [0; 1]%nat) /\
  forall rep,
    run_algorithm Q inject_Z rational_div rational_mul
                  "Round Robin" 74 two_processes [0; 1]%nat None =
      Returned (Value rep) ->
    forall a, (a < next_ref two_processes)%nat ->
              cell (rep_heap rep) a = cell two_processes a.
Proof.
  apply (X9_run_algorithm_dispatch Q inject_Z rational_div rational_mul
           "Round Robin" None (RR 2) 74 two_processes [0; 1]%nat).
  - reflexivity.
  - repeat constructor.
Defined.

(** X10: [run_algorithm] called with a name that is none of its six
    algorithm names raises nothing: it reports an empty timeline, an empty
    list of processes and the all-zero metrics, whatever the processes and
    the quantum, and leaves the caller's objects as they were. *)
Theorem X10_run_algorithm_unknown_name (number : Type) (of_int : Z -> number)
        (true_div : Z -> Z -> number) (mul_int : number -> Z -> number)
        name time_quantum fuel h processes :
  algorithm_of name time_quantum = None ->
  exists rep,
    run_algorithm number of_int true_div mul_int
                  name fuel h processes time_quantum = Returned (Value rep) /\
    rep_timeline rep = [] /\ rep_processes rep = [] /\
    rep_metrics rep =
      mkSummary (of_int 0) (of_int 0) (of_int 0) (of_int 0) (of_int 0) /\
    forall a, (a < next_ref h)%nat -> cell (rep_heap rep) a = cell h a.
Proof.
  intros Halg. unfold run_algorithm.
  destruct (copy_processes h processes) as [h1 copies] eqn:Hc.
  destruct (copy_processes_spec _ _ _ _ Hc) as (_ & _ & Hkeep & _).
  unfold algorithm_of in Halg.
  repeat (destruct (String.eqb name _); [discriminate|]).
  cbn. eexists. split; [reflexivity|]. cbn. auto.
Qed.

Lemma X10_run_algorithm_unknown_name_witness :
  exists rep,
    run_algorithm Q inject_Z rational_div rational_mul
                  "Compare All" 0 two_processes [0; 1]%nat (Some 2) =
      Returned (Value rep) /\
    rep_timeline rep = [] /\ rep_processes rep = [] /\
    rep_metrics rep =
      mkSummary (inject_Z 0) (inject_Z 0) (inject_Z 0) (inject_Z 0) (inject_Z 0) /\
    forall a, (a < next_ref two_processes)%nat ->
              cell (rep_heap rep) a = cell two_processes a.
Proof.
  apply (X10_run_algorithm_unknown_name Q inject_Z rational_div rational_mul
           "Compare All" (Some 2) 0 two_processes [0; 1]%nat).
  reflexivity.
Defined.

(** ** The dispatches of [round_robin] *)

(** A step keeps the finalized processes and their records. *)
Lemma tstep_completed_kept s0 s s' :
  wf s0 s -> tstep s s' ->
  forall x, In x (completed_processes s) ->
            In x (completed_processes s') /\
            cell (st_heap s') x = cell (st_heap s) x.
Proof.
  intros Hwf Hstep x Hx.
  destruct (tstep_members _ _ _ Hwf Hstep) as (_ & Hgrow & _).
  split; [now apply Hgrow|].
  destruct Hstep as [r Hh Hr Har Ht Hall Htl Hp Hc Hcur
                    | r e Hin Harr He Hse Hrem Hst Hoth Hnext Htl Ht Hfin Hcur].
  - now rewrite Hh.
  - apply Hoth. intros ->.
    eapply (NoDup_app_disjoint _ _ _ (wf_nodup _ _ Hwf)); eassumption.
Qed.

(** What one iteration of [round_robin] appends to the timeline. *)
Lemma rr_body_slice q s :
  0 < q -> rr_pending s = true ->
  (forall r, In r (pending s) -> 0 < remaining_time (cell (st_heap s) r)) ->
  exists tail,
    timeline (rr_body q s) = timeline s ++ tail /\
    forall g p, In g tail -> seg_pid g = Some p ->
      0 < seg_duration g <= q /\
      (seg_duration g < q ->
       exists x, In x (completed_processes (rr_body q s)) /\
                 pid (cell (st_heap (rr_body q s)) x) = p /\
                 completion (st_heap (rr_body q s)) x = seg_end_time g).
Proof.
  intros Hq Hc Hpos. unfold rr_body.
  destruct (enqueue_arrived (st_heap s) (current_time s) (remaining_processes s) (ready_queue s))
    as [remaining queue] eqn:Ha.
  pose proof (enqueue_arrived_perm _ _ _ _ _ _ Ha) as Hperm.
  destruct queue as [|process queue1].
  - destruct remaining as [|r rest]; cbn.
    + exists []. rewrite app_nil_r. split; [reflexivity | easy].
    + destruct (current_time s <? arrival (st_heap s) r).
      * eexists. split; [reflexivity|].
        intros g p [<- | []] Hp. discriminate.
      * exists []. rewrite app_nil_r. split; [reflexivity | easy].
  - set (h := st_heap s) in *.
    set (h1 := mark_start h process (current_time s)).
    destruct (mark_start_same h process (current_time s))
      as ((Hpid & _) & Hrm & _).
    fold h1 in Hpid, Hrm.
    assert (Hin : In process (pending s)).
    { unfold pending. eapply Permutation_in; [symmetry; exact Hperm|].
      apply in_or_app. right. now left. }
    specialize (Hpos process Hin). fold h in Hpos.
    set (e := Z.min q (remaining_time (cell h1 process))).
    rewrite cell_modify_same. cbn.
    destruct (enqueue_arrived (modify h1 process _) (current_time s + e) remaining queue1)
      as [remaining2 queue2] eqn:Ha2.
    destruct (Z.gtb_spec (remaining_time (cell h1 process) - e) 0) as [Hleft | Hzero];
      cbn; (eexists; split; [reflexivity|]);
      intros g p [<- | []] Hp; cbn in *; fold e;
      (split; [unfold e; lia|]); intros Hshort.
    + unfold e in *. lia.
    + exists process. split; [apply in_or_app; right; now left|].
      unfold completion. rewrite !cell_modify_same. cbn.
      split; [congruence | reflexivity].
Qed.

Lemma sliced_body q s0 s :
  0 < q -> wf s0 s -> sound s0 s -> rr_lists s -> rr_pending s = true ->
  sliced q s -> sliced q (rr_body q s).
Proof.
  intros Hq Hwf Hsound Hlists Hc Hsl.
  pose proof (rr_body_tstep q s Hq Hc Hlists) as Hstep.
  destruct (rr_body_slice q s Hq Hc (snd_pos _ _ Hsound)) as (tail & Htl & Htail).
  intros g p Hg Hp. rewrite Htl in Hg. apply in_app_or in Hg.
  destruct Hg as [Hg | Hg]; [|now apply (Htail g p)].
  destruct (Hsl g p Hg Hp) as [Hd Hshort]. split; auto.
  intros Hlt. destruct (Hshort Hlt) as (x & Hx & H1 & H2).
  destruct (tstep_completed_kept _ _ _ Hwf Hstep x Hx) as [Hx' Hcell].
  exists x. unfold completion in *. rewrite Hcell. auto.
Qed.

(** X11: on a valid input with a positive quantum, every busy entry of the
    timeline of [round_robin] lasts a positive time no longer than the
    quantum, and an entry shorter than the quantum is the last of its
    process: it ends at that process's completion time.  A process is only
    taken off the CPU when its quantum has expired or it has finished. *)
Theorem X11_round_robin_slices h processes time_quantum fuel :
  allocated h processes -> valid_input h processes -> 0 < time_quantum ->
  (fuel_for h processes <= fuel)%nat ->
  exists r,
    round_robin fuel h processes time_quantum = Returned r /\
    Forall (fun g =>
              match seg_pid g with
              | None => True
              | Some p =>
                  0 < seg_duration g <= time_quantum /\
                  (seg_duration g < time_quantum ->
                   exists x, In x (records (res_heap r) (res_processes r)) /\
                             pid x = p /\
                             completion_time x = seg_end_time g)
              end)
           (res_timeline r).
Proof.
  intros Hall Hvalid Hq Hfuel.
  destruct (schedule_total (RR time_quantum) h processes fuel Hall Hq Hfuel)
    as (res & Hret).
  cbn [schedule] in Hret. exists res. split; [exact Hret|].
  unfold round_robin in Hret.
  destruct (copy_processes h processes) as [h0 copies] eqn:Hc.
  pose proof (prepare _ _ _ _ Hc) as Hp.
  set (sorted := sort_by (arrival h0) copies) in *.
  destruct (valid_start (RR time_quantum) _ _ _ _ Hp Hall Hvalid)
    as (Hnd & Hpos & _ & _ & Ht0).
  destruct (finish_returned _ _ Hret) as (sf & Hw & ->).
  change (rr_init h0 sorted) with (start_state (RR time_quantum) h0 sorted) in Hw.
  destruct (while_tsteps rr_pending (rr_body time_quantum)
              (fun s => rr_lists s /\ sliced time_quantum s)
              (start_state (RR time_quantum) h0 sorted))
    with (fuel := fuel) (sf := sf) as (_ & _ & (_ & Hsl) & _); auto.
  - split.
    + constructor; cbn; [apply (prep_sorted _ _ _ _ Hp) | easy].
    + intros g p Hg. cbn in Hg. contradiction.
  - intros s Hwf Hsound _ (Hlists & Hsl) Hcs.
    split; [now apply rr_body_tstep|]. split.
    + apply rr_body_lists; auto. apply (snd_pos _ _ Hsound).
    + eapply sliced_body; eauto.
  - cbn [run_of res_timeline res_processes res_heap].
    apply Forall_forall. intros g Hg.
    destruct (seg_pid g) as [p|] eqn:Hpid; [|exact I].
    destruct (Hsl g p Hg Hpid) as [Hd Hshort]. split; auto.
    intros Hlt. destruct (Hshort Hlt) as (x & Hx & H1 & H2).
    exists (cell (st_heap sf) x). split; [|split; auto].
    unfold records. now apply in_map.
Qed.

Lemma X11_round_robin_slices_witness :
  exists r,
    round_robin 74 two_processes [0; 1]%nat 2 = Returned r /\
    Forall (fun g =>
              match seg_pid g with
              | None => True
              | Some p =>
                  0 < seg_duration g <= 2 /\
                  (seg_duration g < 2 ->
                   exists x, In x (records (res_heap r) (res_processes r)) /\
                             pid x = p /\
                             completion_time x = seg_end_time g)
              end)
           (res_timeline r).
Proof.
  apply (X11_round_robin_slices two_processes [0; 1]%nat 2 74).
  - repeat constructor.
  - repeat (constructor; cbn; try lia).
  - lia.
  - vm_compute. apply le_n.
Defined.

(** ** The choices of the selection loops *)

Lemma idle_picks key s : picks key s (idle_until_next_arrival s).
Proof.
  unfold picks, idle_until_next_arrival. cbn.
  destruct (current_time s <? _).
  - eexists. split; [reflexivity|]. intros g p [<- | []] Hp. discriminate.
  - exists []. rewrite app_nil_r. split; [reflexivity | easy].
Qed.

Lemma run_selected_picks key s h1 selected e :
  In selected (remaining_processes s) ->
  pid (cell h1 selected) = pid (cell (st_heap s) selected) ->
  (forall x, In x (remaining_processes s) ->
             arrival (st_heap s) x <= current_time s ->
             key (cell (st_heap s) selected) <= key (cell (st_heap s) x)) ->
  picks key s (run_selected s h1 selected e).
Proof.
  intros Hin Hpid Hmin. unfold picks, run_selected.
  rewrite cell_modify_same. cbn.
  destruct (_ =? 0); cbn; (eexists; split; [reflexivity|]);
    intros g p [<- | []] Hp; cbn in *; (split; [reflexivity|]);
    exists selected; repeat split; auto; congruence.
Qed.

Lemma min_by_available key h now l first others x :
  filter (arrived h now) l = first :: others ->
  In x l -> arrival h x <= now ->
  key (min_by key first others) <= key x.
Proof.
  intros Hav Hx Ha. apply min_by_le. rewrite <- Hav.
  apply filter_In. split; auto. unfold arrived. now apply Z.leb_le.
Qed.

Lemma sjf_np_body_picks s : picks burst_time s (sjf_np_body s).
Proof.
  unfold sjf_np_body.
  destruct (filter _ (remaining_processes s)) as [|first others] eqn:Hav.
  - apply idle_picks.
  - set (selected := min_by _ first others).
    assert (Hin : In selected (remaining_processes s)).
    { pose proof (min_by_in (fun p => burst_time (cell (st_heap s) p)) first others) as Hm.
      fold selected in Hm. rewrite <- Hav in Hm.
      now apply available_in in Hm. }
    destruct (mark_start_same (st_heap s) selected (current_time s))
      as ((Hpid & _) & _).
    unfold picks, execute. cbn. rewrite !cell_modify_same. cbn.
    eexists. split; [reflexivity|].
    intros g p [<- | []] Hp; cbn in *. split; [reflexivity|].
    exists selected. repeat split; auto; [congruence|].
    intros x Hx Ha.
    apply (min_by_available (fun p => burst_time (cell (st_heap s) p))
             (st_heap s) (current_time s) (remaining_processes s)); auto.
Qed.

Lemma priority_body_picks preemptive s :
  (preemptive = false -> current_process s = None) ->
  picks priority s (priority_body preemptive s).
Proof.
  intros Hcur. unfold priority_body.
  destruct (filter _ (remaining_processes s)) as [|first others] eqn:Hav.
  - apply idle_picks.
  - set (best := min_by _ first others).
    assert (Hsel : match current_process s with
                   | Some c => if negb preemptive && existsb (Nat.eqb c) (first :: others)
                               then c else best
                   | None => best
                   end = best).
    { destruct (current_process s) as [c|]; auto.
      destruct preemptive; auto. now specialize (Hcur eq_refl). }
    rewrite Hsel.
    assert (Hin : In best (remaining_processes s)).
    { pose proof (min_by_in (fun p => priority (cell (st_heap s) p)) first others) as Hm.
      fold best in Hm. rewrite <- Hav in Hm.
      now apply available_in in Hm. }
    destruct (dispatch_heap (st_heap s) best (current_time s)
                (same_process (current_process s) best))
      as (_ & (Hpid & _) & _).
    apply run_selected_picks; auto.
    intros x Hx Ha.
    apply (min_by_available (fun p => priority (cell (st_heap s) p))
             (st_heap s) (current_time s) (remaining_processes s)); auto.
Qed.

Lemma priority_body_current s :
  current_process (priority_body false s) = None.
Proof.
  unfold priority_body.
  destruct (filter _ (remaining_processes s)); [reflexivity|].
  cbn [negb andb]. unfold run_selected. rewrite cell_modify_same. cbn.
  now rewrite Z.sub_diag.
Qed.

Lemma chosen_step key s0 s s' :
  (forall p q, static_eq p q -> key p = key q) ->
  wf s0 s -> sound s0 s -> ready_queue s = [] ->
  chosen_by key s0 s -> tstep s s' -> picks key s s' ->
  chosen_by key s0 s'.
Proof.
  intros Hkey Hwf Hsound Hq Hch Hstep (tail & Htl & Htail).
  assert (Hwf' : wf s0 s') by (eapply wf_step; eauto using tstep_astep).
  assert (Hstatic : forall a, static_eq (cell (st_heap s) a) (cell (st_heap s') a)).
  { intros a. eapply static_eq_trans; [apply static_eq_sym, (wf_static _ _ Hwf)|].
    apply (wf_static _ _ Hwf'). }
  assert (Harr : forall a, arrival (st_heap s') a = arrival (st_heap s) a).
  { intros a. now rewrite (wf_arrival _ _ Hwf), (wf_arrival _ _ Hwf'). }
  intros g p Hg Hp. rewrite Htl in Hg. apply in_app_or in Hg.
  destruct Hg as [Hg | Hg].
  - destruct (Hch g p Hg Hp) as (r & Hr & Hpid & Hbest).
    exists r. split; auto.
    destruct (Hstatic r) as (Hpr & _). split; [congruence|].
    intros x Hx. rewrite <- (Hkey _ _ (Hstatic r)), <- (Hkey _ _ (Hstatic x)), Harr.
    destruct (Hbest x Hx) as [Hle | [Hlate | [Hdone Hbefore]]]; auto.
    right. right.
    destruct (tstep_completed_kept _ _ _ Hwf Hstep x Hdone) as [Hx' Hcell].
    unfold completion in *. rewrite Hcell. auto.
  - destruct (Htail g p Hg Hp) as (Hstart & r & Hr & Hpid & Hmin).
    assert (Hr0 : In r (pending s0)).
    { eapply Permutation_in; [apply (wf_perm _ _ Hwf)|].
      apply in_or_app. left. apply in_or_app. now left. }
    exists r. split; auto.
    destruct (Hstatic r) as (Hpr & _). split; [congruence|].
    intros x Hx. rewrite <- (Hkey _ _ (Hstatic r)), <- (Hkey _ _ (Hstatic x)), Harr.
    rewrite Hstart.
    assert (Hxs : In x (pending s ++ completed_processes s)).
    { eapply Permutation_in; [symmetry; apply (wf_perm _ _ Hwf) | exact Hx]. }
    apply in_app_or in Hxs. destruct Hxs as [Hxs | Hxs].
    + unfold pending in Hxs. rewrite Hq, app_nil_r in Hxs.
      destruct (Z.le_gt_cases (arrival (st_heap s) x) (current_time s)) as [Ha | Ha].
      * left. now apply Hmin.
      * right. left. lia.
    + right. right.
      destruct (tstep_completed_kept _ _ _ Hwf Hstep x Hxs) as [Hx' Hcell].
      split; auto. unfold completion in *. rewrite Hcell.
      now apply (snd_done _ _ Hsound).
Qed.

(** X12: on a valid input, [sjf_non_preemptive] and [priority_scheduling]
    (in both modes) give the CPU to the best process present: at the start
    of every busy entry of the timeline, the process of that entry has the
    smallest burst time (for [sjf_non_preemptive]) or priority value (for
    [priority_scheduling]) among the processes that have arrived and have
    not completed by then. *)
Theorem X12_best_process_runs alg key h processes fuel :
  policy_key alg = Some key ->
  allocated h processes -> valid_input h processes ->
  (fuel_for h processes <= fuel)%nat ->
  exists r,
    schedule alg fuel h processes = Returned r /\
    Forall (fun g =>
              match seg_pid g with
              | None => True
              | Some p =>
                  exists x, In x (records (res_heap r) (res_processes r)) /\
                            pid x = p /\
                            Forall (no_better key (key x) g)
                                   (records (res_heap r) (res_processes r))
              end)
           (res_timeline r).
Proof.
  intros Hkey Hall Hvalid Hfuel.
  assert (Hq : quantum_ok alg) by (destruct alg; try discriminate; exact I).
  assert (Hstatic : forall p q, static_eq p q -> key p = key q).
  { intros p q (H1 & H2 & H3 & H4).
    destruct alg; inversion Hkey; subst; auto. }
  destruct (schedule_total alg h processes fuel Hall Hq Hfuel) as (res & Hret).
  exists res. split; [exact Hret|].
  destruct (copy_processes h processes) as [h0 copies] eqn:Hc.
  pose proof (prepare _ _ _ _ Hc) as Hp.
  set (sorted := sort_by (arrival h0) copies) in *.
  destruct (valid_start alg _ _ _ _ Hp Hall Hvalid) as (Hnd & Hpos & _ & _ & Ht0).
  set (s0 := start_state alg h0 sorted) in *.
  assert (Hrun : exists sf, res = run_of sf /\ pending sf = [] /\ wf s0 sf /\
                            chosen_by key s0 sf).
  { destruct alg as [| | |b|q]; try discriminate; inversion Hkey; subst key;
      cbn [schedule] in Hret.
    - unfold sjf_non_preemptive in Hret. rewrite Hc in Hret. fold sorted in Hret.
      destruct (finish_returned _ _ Hret) as (sf & Hw & ->).
      change (init_state h0 sorted) with s0 in Hw.
      destruct (while_tsteps has_remaining sjf_np_body
                  (fun s => ready_queue s = [] /\ chosen_by burst_time s0 s) s0)
        with (fuel := fuel) (sf := sf) as (Hs & _ & (HJ & Hch) & Hcond); auto.
      + split; [reflexivity|]. intros g p Hg. cbn in Hg. contradiction.
      + intros s Hwf Hsound _ (HJ & Hch) Hcs.
        assert (Hstep : tstep s (sjf_np_body s)) by now apply sjf_np_body_tstep.
        split; [exact Hstep|]. split; [now rewrite ready_queue_sjf_np|].
        eapply chosen_step; eauto. apply sjf_np_body_picks.
      + exists sf. split; [reflexivity|].
        split; [now apply has_remaining_false|].
        split; auto. apply (wf_steps false); auto. now apply tsteps_steps.
    - unfold priority_scheduling in Hret. rewrite Hc in Hret. fold sorted in Hret.
      destruct (finish_returned _ _ Hret) as (sf & Hw & ->).
      change (init_state h0 sorted) with s0 in Hw.
      destruct (while_tsteps has_remaining (priority_body b)
                  (fun s => ready_queue s = [] /\
                            (b = false -> current_process s = None) /\
                            chosen_by priority s0 s) s0)
        with (fuel := fuel) (sf := sf) as (Hs & _ & (HJ & _ & Hch) & Hcond); auto.
      + split; [reflexivity|]. split; [reflexivity|].
        intros g p Hg. cbn in Hg. contradiction.
      + intros s Hwf Hsound Ht (HJ & Hcur & Hch) Hcs.
        assert (Hstep : tstep s (priority_body b s))
          by (apply priority_body_tstep; auto; apply Ht).
        split; [exact Hstep|]. split; [now rewrite ready_queue_priority|]. split.
        * intros ->. apply priority_body_current.
        * eapply chosen_step; eauto. now apply priority_body_picks.
      + exists sf. split; [reflexivity|].
        split; [now apply has_remaining_false|].
        split; auto. apply (wf_steps false); auto. now apply tsteps_steps. }
  destruct Hrun as (sf & -> & Hpend & Hwf & Hch).
  cbn [run_of res_timeline res_processes res_heap].
  pose proof (wf_perm _ _ Hwf) as Hperm. rewrite Hpend, app_nil_l in Hperm.
  apply Forall_forall. intros g Hg.
  destruct (seg_pid g) as [p|] eqn:Hpid; [|exact I].
  destruct (Hch g p Hg Hpid) as (r & Hr & Hpr & Hbest).
  exists (cell (st_heap sf) r). split; [|split; auto].
  - unfold records. apply in_map.
    eapply Permutation_in; [symmetry; exact Hperm | exact Hr].
  - unfold records. apply Forall_forall. intros y Hy.
    apply in_map_iff in Hy. destruct Hy as (x & <- & Hx).
    assert (Hx0 : In x (pending s0)) by (eapply Permutation_in; eauto).
    unfold no_better.
    destruct (Hbest x Hx0) as [Hle | [Hlate | [_ Hbefore]]]; auto.
Qed.

Lemma X12_best_process_runs_witness :
  exists r,
    schedule (PRIORITY true) 74 urgent_second [0; 1]%nat = Returned r /\
    Forall (fun g =>
              match seg_pid g with
              | None => True
              | Some p =>
                  exists x, In x (records (res_heap r) (res_processes r)) /\
                            pid x = p /\
                            Forall (no_better priority (priority x) g)
                                   (records (res_heap r) (res_processes r))
              end)
           (res_timeline r).
Proof.
  apply (X12_best_process_runs (PRIORITY true) priority
           urgent_second [0; 1]%nat 74).
  - reflexivity.
  - repeat constructor.
  - repeat (constructor; cbn; try lia).
  - vm_compute. lia.
Defined.

(** ** The order of [fcfs] and the empty input *)

Lemma insert_by_stable key k x l :
  filter (fun y => key y =? k) (insert_by key x l) =
  filter (fun y => key y =? k) (x :: l).
Proof.
  induction l as [|y l IH]; [reflexivity|].
  cbn [insert_by]. destruct (Z.leb_spec (key x) (key y)) as [Hle | Hgt]; auto.
  cbn [filter] in *. rewrite IH.
  destruct (Z.eqb_spec (key x) k), (Z.eqb_spec (key y) k); auto. lia.
Qed.

Lemma sort_by_stable key k l :
  filter (fun y => key y =? k) (sort_by key l) = filter (fun y => key y =? k) l.
Proof.
  induction l as [|x l IH]; [reflexivity|].
  change (sort_by key (x :: l)) with (insert_by key x (sort_by key l)).
  rewrite insert_by_stable. cbn [filter]. now rewrite IH.
Qed.

Lemma filter_map_commute {A B : Type} (f : A -> B) (P : B -> bool) (l : list A) :
  filter P (map f l) = map f (filter (fun x => P (f x)) l).
Proof.
  induction l as [|x l IH]; cbn; auto.
  destruct (P (f x)); cbn; now rewrite IH.
Qed.

Lemma fcfs_step_static h now tl r h' now' tl' :
  fcfs_step (h, now, tl) r = (h', now', tl') ->
  (forall a, static_eq (cell h a) (cell h' a)) /\
  dispatched_pids tl' = dispatched_pids tl ++ [pid (cell h r)].
Proof.
  unfold fcfs_step, execute.
  set (now1 := if now <? arrival h r then arrival h r else now).
  destruct (mark_start_same h r now1) as (Hst & _ & _).
  intros Heq. inversion Heq; subst. clear Heq. split.
  - intros a. destruct (Nat.eq_dec a r) as [-> | Hne].
    + rewrite !cell_modify_same. cbn.
      destruct Hst as (H1 & H2 & H3 & H4). repeat split; cbn; auto.
    + rewrite !cell_modify_other by auto.
      rewrite cell_mark_start_other by auto. apply static_eq_refl.
  - rewrite ?cell_modify_same, ?Nat.eqb_refl. cbn [pid set_remaining_time].
    destruct Hst as (H1 & _). rewrite <- H1.
    unfold dispatched_pids. rewrite flat_map_app. cbn.
    f_equal.
    destruct (now <? arrival h r); auto.
    destruct (now >? 0); auto.
    rewrite flat_map_app. cbn. now rewrite app_nil_r.
Qed.

Lemma fcfs_fold_static l : forall h now tl h' now' tl',
  fold_left fcfs_step l (h, now, tl) = (h', now', tl') ->
  (forall a, static_eq (cell h a) (cell h' a)) /\
  dispatched_pids tl' = dispatched_pids tl ++ map (fun r => pid (cell h r)) l.
Proof.
  induction l as [|r l IH]; intros h now tl h' now' tl' Hf; cbn [fold_left] in Hf.
  - inversion Hf; subst. rewrite app_nil_r. split; auto.
    intros a. apply static_eq_refl.
  - destruct (fcfs_step (h, now, tl) r) as [[h1 now1] tl1] eqn:Hstep.
    destruct (fcfs_step_static _ _ _ _ _ _ _ Hstep) as [Hs1 Hp1].
    destruct (IH _ _ _ _ _ _ Hf) as [Hs2 Hp2]. split.
    + intros a. eapply static_eq_trans; eauto.
    + rewrite Hp2, Hp1, <- app_assoc. cbn. f_equal. f_equal.
      apply map_ext. intros x. destruct (Hs1 x) as (H & _). now rewrite H.
Qed.

(** X13: [fcfs] serves in order of arrival, and among processes that
    arrive at the same instant in the order of the caller's list.  On every
    input it returns; the returned list is sorted by arrival time; for
    every instant the returned processes arriving then are, in the same
    order, the caller's processes arriving then; and the busy entries of
    the timeline are one per process, in the order of the returned list. *)
Theorem X13_fcfs_arrival_order h processes :
  allocated h processes ->
  exists r,
    fcfs h processes = Returned r /\
    StronglySorted Z.le
      (map arrival_time (records (res_heap r) (res_processes r))) /\
    (forall k,
       map fresh_copy
           (arriving_at k (records (res_heap r) (res_processes r))) =
       map fresh_copy (arriving_at k (records h processes))) /\
    dispatched_pids (res_timeline r) =
      map pid (records (res_heap r) (res_processes r)).
Proof.
  intros Hall. unfold fcfs.
  destruct (copy_processes h processes) as [h0 copies] eqn:Hc.
  destruct (copy_processes_spec _ _ _ _ Hc) as (_ & _ & _ & Hval).
  specialize (Hval Hall).
  set (sorted := sort_by (arrival h0) copies).
  destruct (fold_left fcfs_step sorted (h0, 0, [])) as [[h1 now1] tl1] eqn:Hf.
  destruct (fcfs_fold_static _ _ _ _ _ _ _ Hf) as [Hstatic Hpids].
  eexists. split; [reflexivity|]. cbn [res_timeline res_processes res_heap].
  assert (Hfresh : forall l, map fresh_copy (records h1 l) =
                             map fresh_copy (records h0 l)).
  { intros l. unfold records. rewrite !map_map. apply map_ext.
    intros x. symmetry. apply fresh_copy_static, Hstatic. }
  assert (Harr : forall x, arrival_time (cell h1 x) = arrival h0 x).
  { intros x. destruct (Hstatic x) as (_ & Ha & _). now rewrite <- Ha. }
  split; [|split].
  - apply sorted_by_arrival_records.
    eapply sorted_key_ext; [|apply (sort_by_sorted (arrival h0) copies)].
    intros a. unfold arrival. now rewrite Harr.
  - intros k. unfold arriving_at, records.
    rewrite !filter_map_commute.
    rewrite (filter_ext (fun x => arrival_time (cell h1 x) =? k)
                        (fun x => arrival h0 x =? k))
      by (intros x; now rewrite Harr).
    unfold sorted. rewrite sort_by_stable.
    fold (records h1 (filter (fun x => arrival h0 x =? k) copies)).
    rewrite Hfresh. unfold records.
    rewrite <- (filter_map_commute (cell h0) (fun p => arrival_time p =? k)).
    rewrite Hval, filter_map_commute, !map_map.
    reflexivity.
  - rewrite Hpids. cbn. unfold records. rewrite map_map.
    apply map_ext. intros x. destruct (Hstatic x) as (H & _). now rewrite H.
Qed.

Lemma X13_fcfs_arrival_order_witness :
  exists r,
    fcfs late_first [0; 1]%nat = Returned r /\
    StronglySorted Z.le
      (map arrival_time (records (res_heap r) (res_processes r))) /\
    (forall k,
       map fresh_copy
           (arriving_at k (records (res_heap r) (res_processes r))) =
       map fresh_copy (arriving_at k (records late_first [0; 1]%nat))) /\
    dispatched_pids (res_timeline r) =
      map pid (records (res_heap r) (res_processes r)).
Proof.
  apply (X13_fcfs_arrival_order late_first [0; 1]%nat).
  repeat constructor.
Defined.

(** X14: the empty input is a degenerate run, not an error.  On an empty
    list every algorithm, with any quantum and without a single iteration,
    returns an empty timeline and an empty list of processes and leaves the
    heap as it was. *)
Theorem X14_empty_input alg fuel h :
  schedule alg fuel h [] = Returned (mkResult [] [] h).
Proof.
  destruct alg, fuel; reflexivity.
Qed.

(** ** visualization.py: [display_summary_metrics] *)

(** X15: [display_summary_metrics] raises ZeroDivisionError on an empty
    list, where [calculate_metrics] returns the all-zero summary, and
    raises it for no other reason than an empty list or a largest
    completion time of 0. *)
Theorem X15_summary_table_zero_division (number : Type) (of_int : Z -> number)
        (true_div : Z -> Z -> number) (mul_int : number -> Z -> number)
        (render : number -> number -> number -> Z -> number -> number -> string)
        h processes :
  display_summary_metrics number of_int true_div mul_int render h [] =
    Raise ZeroDivisionError /\
  calculate_metrics number of_int true_div mul_int h [] =
    Value (mkSummary (of_int 0) (of_int 0) (of_int 0) (of_int 0) (of_int 0)) /\
  match display_summary_metrics number of_int true_div mul_int render
                                h processes with
  | Raise ZeroDivisionError =>
      processes = [] \/ max_completion h processes = 0
  | _ => True
  end.
Proof.
  split; [reflexivity|]. split; [reflexivity|].
  destruct processes as [|first others]; [left; reflexivity|].
  unfold display_summary_metrics.
  set (l := first :: others).
  set (n := Z.of_nat (length l)).
  assert (Hn : (n =? 0) = false) by (apply Z.eqb_neq; subst n l; cbn; lia).
  unfold py_div. rewrite Hn.
  destruct (overflows (py_sum turnaround_time h l) n); cbn [bind]; auto.
  destruct (overflows (py_sum waiting_time h l) n); cbn [bind]; auto.
  destruct (overflows (py_sum response_time h l) n); cbn [bind]; auto.
  destruct (Z.eqb_spec (max_completion h l) 0) as [Hz | Hnz]; cbn [bind]; auto.
  destruct (overflows (py_sum burst_time h l) (max_completion h l)); cbn [bind]; auto.
  destruct (max_completion h l >? 0); cbn [bind]; auto.
  destruct (overflows n (max_completion h l)); cbn [bind]; auto.
Qed.

(** The zero-burst process of C2: [fcfs] returns it completed at time 0,
    [calculate_metrics] reports zeros for it, and
    [display_summary_metrics] raises ZeroDivisionError. *)
Example summary_table_of_zero_burst :
  exists r,
    fcfs zero_burst [0%nat] = Returned r /\
    calculate_metrics Q inject_Z rational_div rational_mul
                      (res_heap r) (res_processes r) =
      Value (mkSummary 0%Q 0%Q 0%Q 0%Q 0%Q) /\
    forall render,
      display_summary_metrics Q inject_Z rational_div rational_mul render
                              (res_heap r) (res_processes r) =
        Raise ZeroDivisionError.
Proof.
  eexists. split; [reflexivity|]. split; [now vm_compute|].
  intros render. now vm_compute.
Qed.

(** X16: on a non-empty list whose smallest arrival time is 0 and whose
    largest completion time is positive (every run of a valid input in
    which some process arrives at time 0), [display_summary_metrics] shows
    exactly the five numbers [calculate_metrics] computes, or raises the
    same exception.  For other lists the two utilizations and the two
    throughputs have different divisors. *)
Theorem X16_summary_table_agrees (number : Type) (of_int : Z -> number)
        (true_div : Z -> Z -> number) (mul_int : number -> Z -> number)
        (render : number -> number -> number -> Z -> number -> number -> string)
        h processes :
  processes <> [] -> min_arrival h processes = 0 ->
  0 < max_completion h processes ->
  display_summary_metrics number of_int true_div mul_int render h processes =
  bind (calculate_metrics number of_int true_div mul_int h processes)
       (fun m => Value (render (avg_turnaround_time m) (avg_waiting_time m)
                               (avg_response_time m)
                               (Z.of_nat (length processes))
                               (cpu_utilization m) (throughput m))).
Proof.
  intros Hne Hmin Hmax.
  destruct processes as [|first others]; [congruence|].
  unfold display_summary_metrics, calculate_metrics.
  cbn [is_empty negb]. rewrite Hmin, Z.sub_0_r.
  set (l := first :: others) in *.
  set (n := Z.of_nat (length l)).
  assert (Hn : (n =? 0) = false) by (apply Z.eqb_neq; subst n l; cbn; lia).
  assert (Hgt : (max_completion h l >? 0) = true) by (apply Z.gtb_lt; lia).
  assert (Hz : (max_completion h l =? 0) = false) by (apply Z.eqb_neq; lia).
  unfold py_div. rewrite Hn, Hgt, Hz.
  destruct (overflows (py_sum turnaround_time h l) n),
           (overflows (py_sum waiting_time h l) n),
           (overflows (py_sum response_time h l) n),
           (overflows (py_sum burst_time h l) (max_completion h l)),
           (overflows n (max_completion h l)); reflexivity.
Qed.

Lemma X16_summary_table_agrees_witness :
  display_summary_metrics Q inject_Z rational_div rational_mul
                          (fun _ _ _ _ _ _ => "html"%string)
                          (heap_of [finalize 5 (set_start_time 0 P1)]) [0%nat] =
  bind (calculate_metrics Q inject_Z rational_div rational_mul
                          (heap_of [finalize 5 (set_start_time 0 P1)]) [0%nat])
       (fun m => Value "html"%string).
Proof.
  apply (X16_summary_table_agrees Q inject_Z rational_div rational_mul
           (fun _ _ _ _ _ _ => "html"%string)
           (heap_of [finalize 5 (set_start_time 0 P1)]) [0%nat]).
  - discriminate.
  - reflexivity.
  - now vm_compute.
Defined.

(** The process arriving at time 1, scheduled by [fcfs]: the utilization
    [calculate_metrics] reports is 100, over the span from 1 to 2, while
    [display_summary_metrics] shows 50, over the time up to 2. *)
Example summary_table_of_late_process :
  exists r,
    fcfs late_process [0%nat] = Returned r /\
    calculate_metrics Q inject_Z rational_div rational_mul
                      (res_heap r) (res_processes r) =
      Value (mkSummary 1%Q 0%Q 0%Q 100%Q 1%Q) /\
    forall render,
      display_summary_metrics Q inject_Z rational_div rational_mul render
                              (res_heap r) (res_processes r) =
        Value (render 1%Q 0%Q 0%Q 1 50%Q (1 # 2)%Q).
Proof.
  eexists. split; [reflexivity|]. split; [now vm_compute|].
  intros render. now vm_compute.
Qed.
